(** * uvpad: texture dilation by neighbour averaging and by jump flooding

    A shallow embedding of [main.go] (the two-algorithm revision:
    [process_gimp_alg], [process_paint_net_alg], [jumpFlood],
    [processJumpFlood]) together with the properties of the padding
    engines that the specification states.

    Conventions of the embedding.
    - Go [int], [uint32] and [float64] values are integers here.  Every
      quantity stays far below the width of its Go type for rasters that
      fit in memory (channel sums are at most 4 * 65535, squared distances
      at most width^2 + height^2), so no wrap-around or rounding occurs;
      [uint8(...)] conversions, which do truncate, are written out.
      Divisions have non-negative operands, for which Go's truncated
      division is [Z.div].  The number of workers, [runtime.NumCPU()], is
      a parameter [numCpu].
    - [image.Image] is an interface; the algorithms only use [Bounds()]
      and [At(x, y).RGBA()].  The decoded image has its origin at (0, 0),
      as [png.Decode] produces it.
    - A slice is a list; a read or write through [zlookup] / [zstore] is
      bounds checked like a Go index expression and a failed check (a
      run-time panic) is [None].  [zget] / [zset] are used only where the
      index is below the length by construction: the bytes of an
      [image.RGBA] at a pixel inside its bounds, and the entries of the
      [width * height] grids and of the mask at [y * width + x] for a
      pixel of the raster.
    - Goroutines of one jump-flood pass are run one after another in
      worker order: they read only the two copies taken before the pass
      and each writes only the cells of its own rows, so the order does
      not matter ([jf_schedule_irrelevant]). *)

From Stdlib Require Import ZArith Lia List Bool Ascii.
From stdpp Require Import base tactics option numbers list strings.

Local Open Scope Z_scope.

(** ** Colours and rasters *)

(** The four values returned by [Color.RGBA()]: alpha-premultiplied
    16-bit channels carried in [uint32]s. *)
Record Color := mkColor { cr : Z; cg : Z; cb : Z; ca : Z }.

(** [color.RGBA]: four [uint8] channels. *)
Record RGBA := mkRGBA { R : Z; G : Z; B : Z; A : Z }.

(** [image.Image], reduced to what the program calls. *)
Record Image := mkImage { Dx : Z; Dy : Z; At : Z -> Z -> Color }.

#[global] Instance Color_inhabited : Inhabited Color := populate (mkColor 0 0 0 0).

Definition uint8 (z : Z) : Z := z mod 256.

(** [color.RGBA.RGBA()]: each channel [c] becomes [c | c << 8], that is
    [c * 0x101]. *)
Definition RGBA_RGBA (c : RGBA) : Color :=
  mkColor (R c * 257) (G c * 257) (B c * 257) (A c * 257).

(** [color.RGBAModel.Convert] on a colour given by its [RGBA()] values:
    the high byte of every channel (a [color.RGBA] is returned as it is,
    which is the same thing). *)
Definition RGBAModel_Convert (c : Color) : RGBA :=
  mkRGBA (uint8 (Z.shiftr (cr c) 8)) (uint8 (Z.shiftr (cg c) 8))
         (uint8 (Z.shiftr (cb c) 8)) (uint8 (Z.shiftr (ca c) 8)).

Definition zget {T} `{Inhabited T} (l : list T) (i : Z) : T :=
  l !!! Z.to_nat i.

Definition zset {T} (l : list T) (i : Z) (v : T) : list T :=
  <[Z.to_nat i := v]> l.

Definition zlookup {T} (l : list T) (i : Z) : option T :=
  if i <? 0 then None else l !! Z.to_nat i.

Definition zstore {T} (l : list T) (i : Z) (v : T) : option (list T) :=
  if (0 <=? i) && (i <? Z.of_nat (length l)) then Some (zset l i v) else None.

(** The built-in [copy(dst, src)]. *)
Definition copy {T} (dst src : list T) : list T :=
  take (length dst) src ++ drop (length src) dst.

(** [for i := lo; i < hi; i++ { body }] over a state. *)
Definition for_range {S} (lo hi : Z) (body : Z -> S -> S) (s : S) : S :=
  foldl (fun s i => body i s) s (seqZ lo (hi - lo)).

Definition in_rect (w h x y : Z) : bool :=
  (0 <=? x) && (x <? w) && (0 <=? y) && (y <? h).

(** [image.NewRGBA(bounds).Pix]; the stride is [4 * w]. *)
Definition NewRGBA (w h : Z) : list Z := replicate (Z.to_nat (4 * w * h)) 0.

Definition write4 (pix : list Z) (i : Z) (c : RGBA) : list Z :=
  zset (zset (zset (zset pix i (R c)) (i + 1) (G c)) (i + 2) (B c)) (i + 3) (A c).

(** [Set] of [image.RGBA], with the colour already converted. *)
Definition RGBA_Set (w h : Z) (pix : list Z) (x y : Z) (c : RGBA) : list Z :=
  if in_rect w h x y then write4 pix (y * (4 * w) + x * 4) c else pix.

(** [At] of [image.RGBA], i.e. [RGBAAt]. *)
Definition RGBA_At (w h : Z) (pix : list Z) (x y : Z) : RGBA :=
  if in_rect w h x y then
    let i := y * (4 * w) + x * 4 in
    mkRGBA (zget pix i) (zget pix (i + 1)) (zget pix (i + 2)) (zget pix (i + 3))
  else mkRGBA 0 0 0 0.

(** ** Iterative neighbour averaging: [process_gimp_alg] *)

Module IA.

Record state := mkState {
  output : list Z;      (* output.Pix *)
  rgba : list Z;        (* rgba.Pix *)
  remaining : Z;
  passes : Z
}.

Definition neighbours : list (Z * Z) := [(-1, 0); (1, 0); (0, -1); (0, 1)].

(** The body of [for _, n := range neighbours] over [(r, g, b, count)]. *)
Definition gather (w h : Z) (rgba : list Z) (x y : Z)
    (acc : Z * Z * Z * Z) (n : Z * Z) : Z * Z * Z * Z :=
  let '(r, g, b, count) := acc in
  let nx := x + n.1 in
  let ny := y + n.2 in
  if (0 <=? nx) && (nx <? w) && (0 <=? ny) && (ny <? h) then
    let c := RGBA_RGBA (RGBA_At w h rgba nx ny) in
    if ca c =? 65535 then (r + cr c, g + cg c, b + cb c, count + 1)
    else acc
  else acc.

(** The body of the two pixel loops over [(tempImg.Pix, remaining)]. *)
Definition pixel_step (w h : Z) (output rgba : list Z) (x y : Z)
    (st : list Z * Z) : list Z * Z :=
  let pixelIdx := y * (4 * w) + x * 4 in
  let alpha := zget output (pixelIdx + 3) in
  if alpha =? 255 then st
  else
    let '(r, g, b, count) := foldl (gather w h rgba x y) (0, 0, 0, 0) neighbours in
    if 0 <? count then
      (write4 st.1 pixelIdx
         (mkRGBA (uint8 (Z.shiftr (r / count) 8)) (uint8 (Z.shiftr (g / count) 8))
                 (uint8 (Z.shiftr (b / count) 8)) 255),
       st.2 - 1)
    else st.

(** One iteration of [for remaining > 0]. *)
Definition pass (w h : Z) (st : state) : state :=
  let tempImg := copy (NewRGBA w h) (output st) in
  let '(tempImg, remaining) :=
    for_range 0 h (fun y => for_range 0 w (fun x =>
      pixel_step w h (output st) (rgba st) x y)) (tempImg, remaining st) in
  let output' := copy (output st) tempImg in
  mkState output' (copy (rgba st) output') remaining (passes st + 1).

(** [for remaining > 0 { ... }]; [None] when the fuel runs out first. *)
Fixpoint loop (fuel : nat) (w h : Z) (st : state) : option state :=
  if 0 <? remaining st then
    match fuel with
    | O => None
    | S fuel => loop fuel w h (pass w h st)
    end
  else Some st.

(** The state on entry to the pass loop. *)
Definition init (input : Image) : state :=
  let w := Dx input in
  let h := Dy input in
  let rgba := for_range 0 w (fun x => for_range 0 h (fun y pix =>
      RGBA_Set w h pix x y (RGBAModel_Convert (At input x y)))) (NewRGBA w h) in
  let output := copy (NewRGBA w h) rgba in
  let remaining := for_range 0 w (fun x => for_range 0 h (fun y remaining =>
      if ca (RGBA_RGBA (RGBA_At w h rgba x y)) =? 65535 then remaining
      else remaining + 1)) 0 in
  mkState output rgba remaining 0.

Definition process_gimp_alg (fuel : nat) (input : Image) : option state :=
  loop fuel (Dx input) (Dy input) (init input).

End IA.

(** ** Jump flood propagation: [process_paint_net_alg] *)

Module JFP.

Record Point := mkPoint { px : Z; py : Z }.

#[global] Instance Point_inhabited : Inhabited Point := populate (mkPoint 0 0).

Record grids := mkGrids { distances : list Z; nearest : list Point }.

Fixpoint foldM {S T} (f : T -> S -> option S) (l : list T) (s : S) : option S :=
  match l with
  | [] => Some s
  | a :: l => s' ← f a s; foldM f l s'
  end.

Definition neighbours (step : Z) : list (Z * Z) :=
  [(-step, -step); (0, -step); (step, -step);
   (-step, 0); (step, 0);
   (-step, step); (0, step); (step, step)].

Definition resolved (p : Point) : bool :=
  negb (px p =? -1) && negb (py p =? -1).

(** The body of [for _, neighbour := range neighbours] over
    [(distances, nearest, bestDistance)]. *)
Definition candidate (width height : Z) (nearestCopy : list Point)
    (x y idx : Z) (n : Z * Z) (st : grids * Z) : option (grids * Z) :=
  let '(g, bestDistance) := st in
  let nx := x + n.1 in
  let ny := y + n.2 in
  if (0 <=? nx) && (nx <? width) && (0 <=? ny) && (ny <? height) then
    let neighbourIdx := ny * width + nx in
    p ← zlookup nearestCopy neighbourIdx;
    if resolved p then
      let dx := x - px p in
      let dy := y - py p in
      let distance := dx * dx + dy * dy in
      if distance <? bestDistance then
        d ← zstore (distances g) idx distance;
        n ← zstore (nearest g) idx p;
        Some (mkGrids d n, distance)
      else Some st
    else Some st
  else Some st.

Definition pixel (width height : Z) (distancesCopy : list Z)
    (nearestCopy : list Point) (step y x : Z) (g : grids) : option grids :=
  let idx := y * width + x in
  bestDistance ← zlookup distancesCopy idx;
  r ← foldM (candidate width height nearestCopy x y idx) (neighbours step)
        (g, bestDistance);
  Some r.1.

Definition processJumpFlood (width height : Z) (distancesCopy : list Z)
    (nearestCopy : list Point) (g : grids) (step start end_ : Z) : option grids :=
  foldM (fun y => foldM (pixel width height distancesCopy nearestCopy step y)
                    (seqZ 0 width))
        (seqZ start (end_ - start)) g.

(** The row range handed to goroutine [i]. *)
Definition chunk (numCpu height i : Z) : Z * Z :=
  let chunkSize := height / numCpu in
  let chunkSize := if chunkSize =? 0 then 1 else chunkSize in
  let start := i * chunkSize in
  let end_ := (i + 1) * chunkSize in
  let end_ := if i =? numCpu - 1 then height else end_ in
  (start, end_).

(** One iteration of [for step := 1; step < maxSteps; step++]: copy the
    grids, start [numCpu] workers, wait for them. *)
Definition pass (numCpu width height step : Z) (g : grids) : option grids :=
  let distancesCopy := copy (replicate (length (distances g)) 0) (distances g) in
  let nearestCopy :=
    copy (replicate (length (nearest g)) (mkPoint 0 0)) (nearest g) in
  foldM (fun i g =>
           let '(start, end_) := chunk numCpu height i in
           processJumpFlood width height distancesCopy nearestCopy g step start end_)
        (seqZ 0 numCpu) g.

(** [int(math.Ceil(math.Log2(math.Max(width, height)))) * 2], exact for
    positive arguments. *)
Definition maxSteps (width height : Z) : Z :=
  Z.log2_up (Z.max width height) * 2.

(** The loops that fill [distances] and [nearest].  The read
    [opaqueMask[idx]] is bounds checked; the writes are to slices of
    [width * height] entries at an index below that. *)
Definition init (width height : Z) (opaqueMask : list bool) : option grids :=
  let maxDistance := width * width + height * height in
  foldM (fun x => foldM (fun y (g : grids) =>
      let idx := y * width + x in
      m ← zlookup opaqueMask idx;
      if (m : bool) then
        Some (mkGrids (zset (distances g) idx 0) (zset (nearest g) idx (mkPoint x y)))
      else
        Some (mkGrids (zset (distances g) idx maxDistance)
                      (zset (nearest g) idx (mkPoint (-1) (-1)))))
    (seqZ 0 height)) (seqZ 0 width)
    (mkGrids (replicate (Z.to_nat (width * height)) 0)
             (replicate (Z.to_nat (width * height)) (mkPoint 0 0))).

(** The pass loop, with the number of passes it ran. *)
Definition run_passes (numCpu width height : Z) (g : grids) : option (grids * Z) :=
  foldM (fun step '(g, n) => g' ← pass numCpu width height step g; Some (g', n + 1))
        (seqZ 1 (maxSteps width height - 1)) (g, 0).

Definition jumpFlood (numCpu width height : Z) (opaqueMask : list bool)
    : option (list Point) :=
  g ← init width height opaqueMask;
  r ← run_passes numCpu width height g;
  Some (nearest r.1).

(** How many passes [jumpFlood] runs on a raster of this size. *)
Definition pass_count (numCpu width height : Z) (opaqueMask : list bool)
    : option Z :=
  g ← init width height opaqueMask;
  r ← run_passes numCpu width height g;
  Some r.2.

(** The first two loop nests: copy the input, then rewrite the opaque
    pixels and build the mask. *)
Definition prepare (input : Image) : list Z * list bool :=
  let width := Dx input in
  let height := Dy input in
  let output := for_range 0 height (fun y => for_range 0 width (fun x pix =>
      RGBA_Set width height pix x y (RGBAModel_Convert (At input x y))))
      (NewRGBA width height) in
  for_range 0 width (fun x => for_range 0 height (fun y (st : list Z * list bool) =>
      let c := At input x y in
      if ca c =? 65535 then
        (RGBA_Set width height st.1 x y
           (mkRGBA (uint8 (cr c)) (uint8 (cg c)) (uint8 (cb c)) 255),
         zset st.2 (y * width + x) true)
      else st))
    (output, replicate (Z.to_nat (width * height)) false).

(** The last loop nest: recolour the transparent pixels. *)
Definition finalize (input : Image) (nearest : list Point) (output : list Z)
    : list Z :=
  let width := Dx input in
  let height := Dy input in
  for_range 0 width (fun x => for_range 0 height (fun y pix =>
      let idx := y * width + x in
      if ca (At input x y) =? 65535 then pix
      else
        let point := zget nearest idx in
        if resolved point then
          let c := At input (px point) (py point) in
          RGBA_Set width height pix x y
            (mkRGBA (uint8 (Z.shiftr (cr c) 8)) (uint8 (Z.shiftr (cg c) 8))
                    (uint8 (Z.shiftr (cb c) 8)) 255)
        else RGBA_Set width height pix x y (mkRGBA 0 0 0 0))) output.

Definition process_paint_net_alg (numCpu : Z) (input : Image) : option (list Z) :=
  let '(output, opaqueMask) := prepare input in
  nearest ← jumpFlood numCpu (Dx input) (Dy input) opaqueMask;
  Some (finalize input nearest output).

End JFP.

(** ** Rasters given by rows *)

(** An image given by its rows of [RGBA()] values; black transparent
    outside. *)
Definition image_of_rows (w h : Z) (rows : list (list Color)) : Image :=
  mkImage w h (fun x y =>
    if in_rect w h x y then zget (zget rows y) x else mkColor 0 0 0 0).

(** ** Pixel view of a [Pix] slice *)

(** The pixel stored at pixel index [k] (bytes [4k .. 4k+3]). *)
Definition pixel_at (pix : list Z) (k : Z) : RGBA :=
  mkRGBA (zget pix (4 * k)) (zget pix (4 * k + 1))
         (zget pix (4 * k + 2)) (zget pix (4 * k + 3)).

(** Row-major and column-major traversals of a [w] by [h] raster, as the
    loop nests visit it. *)
Definition coords_yx (w h : Z) : list (Z * Z) :=
  y ← seqZ 0 h; x ← seqZ 0 w; [(x, y)].

Definition coords_xy (w h : Z) : list (Z * Z) :=
  x ← seqZ 0 w; y ← seqZ 0 h; [(x, y)].

Definition sumZ {T} (f : T -> Z) (l : list T) : Z :=
  foldr (fun c acc => f c + acc) 0 l.

(** ** The averaging pass as the specification words it *)

Module IASpec.

(** The up/down/left/right neighbours of [(x, y)] that lie in the raster
    and are fully opaque in the snapshot [snap], in the order the code
    visits them. *)
Definition gathered (w h : Z) (snap : list Z) (x y : Z) : list RGBA :=
  map (fun n : Z * Z => RGBA_At w h snap (x + n.1) (y + n.2))
    (List.filter
       (fun n : Z * Z => in_rect w h (x + n.1) (y + n.2)
                         && (A (RGBA_At w h snap (x + n.1) (y + n.2)) =? 255))
       IA.neighbours).

(** Truncating mean of 8-bit channel values. *)
Definition mean8 (vals : list Z) : Z :=
  sumZ (fun v => v) vals / Z.of_nat (length vals).

(** What the code stores: the high byte of the truncating mean of the
    channel values widened to 16 bits ([v * 0x101]). *)
Definition mean16_hi (vals : list Z) : Z :=
  Z.shiftr (sumZ (fun v => v * 257) vals / Z.of_nat (length vals)) 8.

(** Is the pixel rewritten by a pass over the snapshot? *)
Definition filled (w h : Z) (snap : list Z) (c : Z * Z) : bool :=
  negb (A (RGBA_At w h snap c.1 c.2) =? 255)
  && negb (Nat.eqb (length (gathered w h snap c.1 c.2)) 0).

(** The pixel after one pass, for a given notion of mean. *)
Definition step_pixel (mean : list Z -> Z) (w h : Z) (snap : list Z) (x y : Z) : RGBA :=
  if filled w h snap (x, y) then
    let ns := gathered w h snap x y in
    mkRGBA (uint8 (mean (map R ns))) (uint8 (mean (map G ns)))
           (uint8 (mean (map B ns))) 255
  else RGBA_At w h snap x y.

(** Number of pixels a pass over the snapshot rewrites. *)
Definition filled_count (w h : Z) (snap : list Z) : Z :=
  sumZ (fun c => if filled w h snap c then 1 else 0) (coords_yx w h).

End IASpec.

(** A state the pass loop can be in: both rasters have the size of the
    image and [rgba] holds the same bytes as [output]. *)
Definition ia_wf (w h : Z) (st : IA.state) : Prop :=
  Z.of_nat (length (IA.output st)) = 4 * (w * h) /\ IA.rgba st = IA.output st.

(** ** Sample rasters *)

Definition opaque8 (r g b : Z) : Color :=
  mkColor (r * 257) (g * 257) (b * 257) 65535.

Definition clear : Color := mkColor 0 0 0 0.

(** The 3 by 3 scenario of the specification: transparent centre, pure
    red edge neighbours, blue corners. *)
Definition red_cross : Image :=
  image_of_rows 3 3
    [[opaque8 0 0 255; opaque8 255 0 0; opaque8 0 0 255];
     [opaque8 255 0 0; clear;           opaque8 255 0 0];
     [opaque8 0 0 255; opaque8 255 0 0; opaque8 0 0 255]].

(** Transparent centre whose edge neighbours have red 64, 65, 65, 65. *)
Definition uneven_cross : Image :=
  image_of_rows 3 3
    [[opaque8 0 0 0;  opaque8 65 0 0; opaque8 0 0 0];
     [opaque8 64 0 0; clear;          opaque8 65 0 0];
     [opaque8 0 0 0;  opaque8 65 0 0; opaque8 0 0 0]].

(** One fully transparent pixel. *)
Definition clear_pixel : Image := image_of_rows 1 1 [[clear]].

(** A 3 by 2 raster whose only opaque pixel is the top-left corner. *)
Definition lit_corner : Image :=
  image_of_rows 3 2 [[opaque8 9 8 7; clear; clear]; [clear; clear; clear]].

(** An opaque pixel followed by a transparent one. *)
Definition two_pixels : Image := image_of_rows 2 1 [[opaque8 1 2 3; clear]].

(** A row of 93 pixels of which only the first is opaque. *)
Definition far_row : Image :=
  image_of_rows 93 1 [opaque8 10 20 30 :: replicate 92 clear].

(** One opaque pixel of a 16-bit image: red 0x1200. *)
Definition deep_pixel : Image := image_of_rows 1 1 [[mkColor 4608 0 0 65535]].

(** A 2 by 2 raster with one opaque pixel. *)
Definition small_square : Image :=
  image_of_rows 2 2 [[opaque8 1 2 3; clear]; [clear; clear]].

(** A 3 by 3 raster whose centre is transparent and whose eight other
    pixels are pure red. *)
Definition red_ring : Image :=
  image_of_rows 3 3
    [[opaque8 255 0 0; opaque8 255 0 0; opaque8 255 0 0];
     [opaque8 255 0 0; clear;           opaque8 255 0 0];
     [opaque8 255 0 0; opaque8 255 0 0; opaque8 255 0 0]].

(** A 16-bit raster: an opaque pixel followed by a pixel whose alpha is
    0xff80, just below the maximum. *)
Definition near_opaque_row : Image :=
  image_of_rows 2 1 [[opaque8 1 2 3; mkColor 0 0 0 65408]].

(** ** Distances in the raster *)

(** The length of a shortest up/down/left/right path between two pixels
    of a rectangular raster. *)
Definition manhattan (p q : Z * Z) : Z :=
  Z.abs (p.1 - q.1) + Z.abs (p.2 - q.2).

(** Opacity as the averaging engine sees the input, that is on its
    8-bit working raster. *)
Definition ia_opaque (input : Image) (c : Z * Z) : bool :=
  A (RGBAModel_Convert (At input c.1 c.2)) =? 255.

Definition ia_opaque_pixels (input : Image) : list (Z * Z) :=
  List.filter (ia_opaque input) (coords_yx (Dx input) (Dy input)).

Definition ia_transparent_pixels (input : Image) : list (Z * Z) :=
  List.filter (fun c => negb (ia_opaque input c)) (coords_yx (Dx input) (Dy input)).

Definition minimum (l : list Z) : Z :=
  match l with
  | [] => 0
  | a :: l => foldr Z.min a l
  end.

Definition maximum (l : list Z) : Z := foldr Z.max 0 l.

(** Distance from a pixel to the nearest opaque pixel of the input. *)
Definition dist_to_opaque (input : Image) (c : Z * Z) : Z :=
  minimum (map (manhattan c) (ia_opaque_pixels input)).

(** The largest distance from a transparent pixel to its nearest opaque
    pixel (0 when nothing is transparent). *)
Definition max_distance (input : Image) : Z :=
  maximum (map (dist_to_opaque input) (ia_transparent_pixels input)).

(** Opacity as the specification words it: the alpha of the input
    pixel is at its maximum.  The distances below are [dist_to_opaque]
    and [max_distance] for this notion of opacity. *)
Definition spec_opaque (input : Image) (c : Z * Z) : bool :=
  ca (At input c.1 c.2) =? 65535.

Definition spec_opaque_pixels (input : Image) : list (Z * Z) :=
  List.filter (spec_opaque input) (coords_yx (Dx input) (Dy input)).

Definition spec_transparent_pixels (input : Image) : list (Z * Z) :=
  List.filter (fun c => negb (spec_opaque input c)) (coords_yx (Dx input) (Dy input)).

Definition spec_dist_to_opaque (input : Image) (c : Z * Z) : Z :=
  minimum (map (manhattan c) (spec_opaque_pixels input)).

Definition spec_max_distance (input : Image) : Z :=
  maximum (map (spec_dist_to_opaque input) (spec_transparent_pixels input)).

(** Number of pixels of a raster that are not fully opaque. *)
Definition transparent_count (w h : Z) (pix : list Z) : Z :=
  sumZ (fun c : Z * Z => if A (RGBA_At w h pix c.1 c.2) =? 255 then 0 else 1)
       (coords_yx w h).

(** The invariant of the pass loop. *)
Definition ia_inv (w h : Z) (st : IA.state) : Prop :=
  ia_wf w h st /\ IA.remaining st = transparent_count w h (IA.output st).

(** Some opaque pixel of the input is at distance at most [k]. *)
Definition ia_within (input : Image) (k : Z) (c : Z * Z) : Prop :=
  exists s, In s (ia_opaque_pixels input) /\ manhattan c s <= k.

(** The state after [n] passes. *)
Definition ia_after (input : Image) (n : nat) : IA.state :=
  Nat.iter n (IA.pass (Dx input) (Dy input)) (IA.init input).

(** ** The jump-flood update as the specification words it *)

Module JFPSpec.

(** The distance and nearest-source entries of pixel index [idx]. *)
Definition cell (g : JFP.grids) (idx : Z) : Z * JFP.Point :=
  (zget (JFP.distances g) idx, zget (JFP.nearest g) idx).

(** Testing one neighbour offset from pixel [(x, y)], over the best
    distance so far and the pixel's entries: a neighbour inside the
    raster whose previous-pass nearest source is resolved proposes that
    source, which is taken when strictly closer. *)
Definition scan (width height : Z) (nearestCopy : list JFP.Point) (x y : Z)
    (acc : Z * (Z * JFP.Point)) (n : Z * Z) : Z * (Z * JFP.Point) :=
  let nx := x + n.1 in
  let ny := y + n.2 in
  if in_rect width height nx ny then
    let p := zget nearestCopy (ny * width + nx) in
    if JFP.resolved p then
      let d := (x - JFP.px p) * (x - JFP.px p) + (y - JFP.py p) * (y - JFP.py p) in
      if d <? acc.1 then (d, (d, p)) else acc
    else acc
  else acc.

(** The entries of pixel [(x, y)] after a pass with offset [step] over
    the grids [g]. *)
Definition new_cell (width height : Z) (g : JFP.grids) (step x y : Z)
    : Z * JFP.Point :=
  (foldl (scan width height (JFP.nearest g) x y)
         (zget (JFP.distances g) (y * width + x), cell g (y * width + x))
         (JFP.neighbours step)).2.

End JFPSpec.

(** Both grids have one entry per pixel. *)
Definition jf_ok (w h : Z) (g : JFP.grids) : Prop :=
  Z.of_nat (length (JFP.distances g)) = w * h /\
  Z.of_nat (length (JFP.nearest g)) = w * h.

(** The grids the initialisation loops build when every read of the
    mask succeeds. *)
Definition jf_init_grids (width height : Z) (opaqueMask : list bool) : JFP.grids :=
  let maxDistance := width * width + height * height in
  for_range 0 width (fun x => for_range 0 height (fun y g =>
    let idx := y * width + x in
    if zget opaqueMask idx then
      JFP.mkGrids (zset (JFP.distances g) idx 0)
                  (zset (JFP.nearest g) idx (JFP.mkPoint x y))
    else
      JFP.mkGrids (zset (JFP.distances g) idx maxDistance)
                  (zset (JFP.nearest g) idx (JFP.mkPoint (-1) (-1)))))
    (JFP.mkGrids (replicate (Z.to_nat (width * height)) 0)
                 (replicate (Z.to_nat (width * height)) (JFP.mkPoint 0 0))).

(** The rows handed to the workers of a pass, worker after worker. *)
Definition worker_rows (numCpu height : Z) : list Z :=
  i ← seqZ 0 numCpu;
  seqZ (JFP.chunk numCpu height i).1
       ((JFP.chunk numCpu height i).2 - (JFP.chunk numCpu height i).1).

(** The work of a pass on row [y]: the inner loop of [processJumpFlood]
    reading the grids [g0] copied at the start of the pass. *)
Definition jf_row (width height : Z) (g0 : JFP.grids) (step y : Z)
    : JFP.grids -> option JFP.grids :=
  JFP.foldM (JFP.pixel width height (JFP.distances g0) (JFP.nearest g0) step y)
            (seqZ 0 width).

(** What holds of the grids before and after every pass: an opaque
    pixel is its own source at distance 0, and a resolved entry names an
    opaque pixel of the input. *)
Definition jf_inv (input : Image) (g : JFP.grids) : Prop :=
  jf_ok (Dx input) (Dy input) g /\
  forall x y, 0 <= x < Dx input -> 0 <= y < Dy input ->
    let c := JFPSpec.cell g (y * Dx input + x) in
    (ca (At input x y) = 65535 -> c = (0, JFP.mkPoint x y)) /\
    (JFP.resolved c.2 = true ->
       (0 <= JFP.px c.2 < Dx input /\ 0 <= JFP.py c.2 < Dy input) /\
       ca (At input (JFP.px c.2) (JFP.py c.2)) = 65535).

(** The colour written for a transparent pixel whose source is [p]. *)
Definition fill_from (input : Image) (p : JFP.Point) : RGBA :=
  let c := At input (JFP.px p) (JFP.py p) in
  mkRGBA (uint8 (Z.shiftr (cr c) 8)) (uint8 (Z.shiftr (cg c) 8))
         (uint8 (Z.shiftr (cb c) 8)) 255.

(** ** Rasters with a single transparent pixel *)

(** [(x, y)] is one of the eight pixels around [(hx, hy)]. *)
Definition adjacent (hx hy x y : Z) : Prop :=
  Z.abs (x - hx) <= 1 /\ Z.abs (y - hy) <= 1 /\ (x, y) <> (hx, hy).

(** The raster has at least two pixels, [(hx, hy)] is its only pixel
    that is not opaque, and the pixels around it all have colour [col]. *)
Definition single_hole (input : Image) (hx hy : Z) (col : RGBA) : Prop :=
  (0 <= hx < Dx input /\ 0 <= hy < Dy input) /\
  2 <= Z.max (Dx input) (Dy input) /\
  A (RGBAModel_Convert (At input hx hy)) <> 255 /\
  (forall x y, 0 <= x < Dx input -> 0 <= y < Dy input -> (x, y) <> (hx, hy) ->
     ca (At input x y) = 65535) /\
  (forall x y, 0 <= x < Dx input -> 0 <= y < Dy input -> adjacent hx hy x y ->
     RGBAModel_Convert (At input x y) = col).

(** The hole's entry names one of the pixels around it, at its true
    squared distance. *)
Definition hole_resolved (input : Image) (hx hy : Z) (g : JFP.grids) : Prop :=
  exists p,
    JFPSpec.cell g (hy * Dx input + hx)
      = ((hx - JFP.px p) * (hx - JFP.px p) + (hy - JFP.py p) * (hy - JFP.py p), p) /\
    (0 <= JFP.px p < Dx input /\ 0 <= JFP.py p < Dy input) /\
    adjacent hx hy (JFP.px p) (JFP.py p).

(** ** How far a source can travel *)

Definition chebyshev (p q : Z * Z) : Z :=
  Z.max (Z.abs (p.1 - q.1)) (Z.abs (p.2 - q.2)).

(** The sum of the offsets of all passes run on a [w] by [h] raster. *)
Definition jf_reach (w h : Z) : Z :=
  sumZ (fun s => s) (seqZ 1 (JFP.maxSteps w h - 1)).

(** Every resolved entry belongs to a pixel that has an opaque input
    pixel within [r] steps (king moves). *)
Definition jf_within (input : Image) (r : Z) (g : JFP.grids) : Prop :=
  forall x y, 0 <= x < Dx input -> 0 <= y < Dy input ->
    JFP.resolved (JFPSpec.cell g (y * Dx input + x)).2 = true ->
    exists sx sy, (0 <= sx < Dx input /\ 0 <= sy < Dy input) /\
      ca (At input sx sy) = 65535 /\ chebyshev (x, y) (sx, sy) <= r.

(** ** The command line: where the result is written *)

Module Cli.

(** A Go string is its bytes. *)
Definition lit (s : String.string) : list Ascii.ascii := String.list_ascii_of_string s.

(** The loop of [path.Ext]: [rest] holds the bytes not yet visited, last
    byte first, and [tail] the bytes already passed, in order. *)
Fixpoint ext_scan (rest tail : list Ascii.ascii) : list Ascii.ascii :=
  match rest with
  | [] => []
  | c :: rest =>
      if Ascii.eqb c "/"%char then []
      else if Ascii.eqb c "."%char then c :: tail
      else ext_scan rest (c :: tail)
  end.

(** [path.Ext]: the suffix starting at the last dot of the last
    slash-separated element, empty when there is no such dot. *)
Definition path_Ext (path : list Ascii.ascii) : list Ascii.ascii :=
  ext_scan (rev path) [].

Definition strings_HasSuffix (s suffix : list Ascii.ascii) : bool :=
  (length suffix <=? length s)%nat
  && bool_decide (drop (length s - length suffix) s = suffix).

Definition strings_TrimSuffix (s suffix : list Ascii.ascii) : list Ascii.ascii :=
  if strings_HasSuffix s suffix then take (length s - length suffix) s else s.

(** [strings.TrimSuffix(input, ext) + "_padded" + ext]. *)
Definition default_output (input : list Ascii.ascii) : list Ascii.ascii :=
  let ext := path_Ext input in
  strings_TrimSuffix input ext ++ lit "_padded" ++ ext.

(** What the [Action] of the command does with its arguments: print the
    usage line and return, or call [run]. *)
Inductive action := Usage | Run (input output : list Ascii.ascii) (slower : bool).

(** The [Action] closure up to its call of [run]: [args] are the
    positional arguments, [outputFlag] and [slower] the values of the
    flags [--output] and [--slower]. *)
Definition Action (args : list (list Ascii.ascii)) (outputFlag : list Ascii.ascii)
    (slower : bool) : action :=
  match args with
  | [input] =>
      let output := default_output input in
      let output := if bool_decide (outputFlag = []) then output else outputFlag in
      Run input output slower
  | _ => Usage
  end.

End Cli.

(** ** Rasters read back, byte ranges, true distances *)

(** An [image.RGBA] holding the bytes [pix], passed as an [image.Image]:
    [At] returns a [color.RGBA]. *)
Definition image_of_RGBA (w h : Z) (pix : list Z) : Image :=
  mkImage w h (fun x y => RGBA_RGBA (RGBA_At w h pix x y)).

(** The four channels are values of a [uint8]. *)
Definition byte_channels (c : RGBA) : Prop :=
  (0 <= R c < 256 /\ 0 <= G c < 256) /\ (0 <= B c < 256 /\ 0 <= A c < 256).

(** Squared Euclidean distance from pixel [(x, y)] to the point [p]. *)
Definition sqdist (x y : Z) (p : JFP.Point) : Z :=
  (x - JFP.px p) * (x - JFP.px p) + (y - JFP.py p) * (y - JFP.py p).

(** Every entry is still the initial sentinel pair or holds a source
    inside the raster together with the squared distance to it. *)
Definition jf_consistent (w h : Z) (g : JFP.grids) : Prop :=
  forall x y, 0 <= x < w -> 0 <= y < h ->
    JFPSpec.cell g (y * w + x) = (w * w + h * h, JFP.mkPoint (-1) (-1)) \/
    (JFP.resolved (JFPSpec.cell g (y * w + x)).2 = true /\
     (0 <= JFP.px (JFPSpec.cell g (y * w + x)).2 < w /\
      0 <= JFP.py (JFPSpec.cell g (y * w + x)).2 < h) /\
     (JFPSpec.cell g (y * w + x)).1 = sqdist x y (JFPSpec.cell g (y * w + x)).2).


(** ** Arrays *)

Section arrays.
Context {T : Type} `{!Inhabited T}.
Implicit Types (l : list T) (i j : Z) (v : T).

Lemma length_zset l i v : length (zset l i v) = length l.
Proof. apply length_insert. Qed.

Lemma zget_zset_eq l i v :
  0 <= i < Z.of_nat (length l) -> zget (zset l i v) i = v.
Proof.
  intros Hi. unfold zget, zset.
  apply list_lookup_total_insert_eq. lia.
Qed.

Lemma zget_zset_ne l i j v :
  0 <= i -> 0 <= j -> i <> j -> zget (zset l i v) j = zget l j.
Proof.
  intros Hi Hj Hne. unfold zget, zset.
  apply list_lookup_total_insert_ne. lia.
Qed.

Lemma copy_same_length (dst src : list T) :
  length dst = length src -> copy dst src = src.
Proof.
  intros Hlen. unfold copy.
  rewrite Hlen, take_ge, drop_ge by lia. apply app_nil_r.
Qed.

Lemma zlookup_Some l i :
  0 <= i < Z.of_nat (length l) -> zlookup l i = Some (zget l i).
Proof.
  intros Hi. unfold zlookup, zget.
  destruct (Z.ltb_spec i 0); [lia|].
  apply list_lookup_lookup_total_lt. lia.
Qed.

Lemma zlookup_None l i :
  i < 0 \/ Z.of_nat (length l) <= i -> zlookup l i = None.
Proof.
  intros Hi. unfold zlookup.
  destruct (Z.ltb_spec i 0); [done|].
  apply lookup_ge_None_2. lia.
Qed.

Lemma zstore_Some l i v :
  0 <= i < Z.of_nat (length l) -> zstore l i v = Some (zset l i v).
Proof.
  intros Hi. unfold zstore.
  destruct (Z.leb_spec 0 i); [|lia].
  destruct (Z.ltb_spec i (Z.of_nat (length l))); [done|lia].
Qed.
End arrays.

Lemma length_NewRGBA w h : 0 <= w -> 0 <= h ->
  Z.of_nat (length (NewRGBA w h)) = 4 * (w * h).
Proof. intros. unfold NewRGBA. rewrite length_replicate. nia. Qed.

Lemma length_write4 pix i c : length (write4 pix i c) = length pix.
Proof. unfold write4. by rewrite !length_zset. Qed.

Lemma pixel_at_write4_eq pix k c :
  0 <= k -> 4 * k + 3 < Z.of_nat (length pix) ->
  pixel_at (write4 pix (4 * k) c) k = c.
Proof.
  intros Hk Hlen. destruct c as [r g b a]. unfold pixel_at, write4. cbn [R G B A].
  f_equal.
  - rewrite !zget_zset_ne by lia. apply zget_zset_eq. lia.
  - rewrite !zget_zset_ne by lia. apply zget_zset_eq. rewrite !length_zset. lia.
  - rewrite !zget_zset_ne by lia. apply zget_zset_eq. rewrite !length_zset. lia.
  - apply zget_zset_eq. rewrite !length_zset. lia.
Qed.

Lemma pixel_at_write4_ne pix k j c :
  0 <= k -> 0 <= j -> k <> j ->
  pixel_at (write4 pix (4 * k) c) j = pixel_at pix j.
Proof.
  intros Hk Hj Hne. unfold pixel_at, write4.
  f_equal; rewrite !zget_zset_ne by lia; reflexivity.
Qed.

Lemma pix_offset w x y : y * (4 * w) + x * 4 = 4 * (y * w + x).
Proof. lia. Qed.

Lemma in_rect_spec w h x y :
  in_rect w h x y = true <-> 0 <= x < w /\ 0 <= y < h.
Proof. unfold in_rect. rewrite !andb_true_iff. lia. Qed.

Lemma index_bounds w h x y :
  0 <= x < w -> 0 <= y < h -> 0 <= y * w + x < w * h.
Proof. nia. Qed.

Lemma index_inj w x y x' y' :
  0 <= x < w -> 0 <= x' < w -> y * w + x = y' * w + x' -> x = x' /\ y = y'.
Proof.
  intros Hx Hx' Heq.
  assert (y = y') as ->.
  { destruct (Z.lt_trichotomy y y') as [Hlt|[Heq'|Hlt]]; [|done|].
    - assert ((y + 1) * w <= y' * w) by nia. lia.
    - assert ((y' + 1) * w <= y * w) by nia. lia. }
  lia.
Qed.

Lemma RGBA_At_pixel w h pix x y :
  0 <= x < w -> 0 <= y < h -> RGBA_At w h pix x y = pixel_at pix (y * w + x).
Proof.
  intros Hx Hy. unfold RGBA_At.
  rewrite (proj2 (in_rect_spec w h x y)) by done.
  rewrite pix_offset. reflexivity.
Qed.

Lemma length_RGBA_Set w h pix x y c : length (RGBA_Set w h pix x y c) = length pix.
Proof. unfold RGBA_Set. destruct (in_rect _ _ _ _); [apply length_write4|done]. Qed.

(** ** Loop nests as folds over the visited coordinates *)

Lemma foldl_bind_list {S T U} (f : S -> U -> S) (g : T -> list U) (l : list T) (s : S) :
  foldl f s (l ≫= g) = foldl (fun s a => foldl f s (g a)) s l.
Proof.
  revert s. induction l as [|a l IH]; intros s; [done|].
  rewrite bind_cons, foldl_app. cbn [foldl]. apply IH.
Qed.

Lemma foldl_ext_in {S T} (f g : S -> T -> S) (l : list T) (s : S) :
  (forall s a, a ∈ l -> f s a = g s a) -> foldl f s l = foldl g s l.
Proof.
  revert s. induction l as [|a l IH]; intros s Hfg; [done|].
  cbn [foldl]. rewrite Hfg by left. apply IH.
  intros s' a' Ha'. apply Hfg. by right.
Qed.

Lemma for_range_nest_xy {S} (w h : Z) (body : Z -> Z -> S -> S) (s : S) :
  for_range 0 w (fun x => for_range 0 h (fun y => body x y)) s
  = foldl (fun s c => body c.1 c.2 s) s (coords_xy w h).
Proof.
  unfold for_range, coords_xy. rewrite foldl_bind_list, !Z.sub_0_r.
  apply foldl_ext_in. intros s' x _.
  rewrite foldl_bind_list. apply foldl_ext_in. intros s'' y _. reflexivity.
Qed.

Lemma for_range_nest_yx {S} (w h : Z) (body : Z -> Z -> S -> S) (s : S) :
  for_range 0 h (fun y => for_range 0 w (fun x => body x y)) s
  = foldl (fun s c => body c.1 c.2 s) s (coords_yx w h).
Proof.
  unfold for_range, coords_yx. rewrite foldl_bind_list, !Z.sub_0_r.
  apply foldl_ext_in. intros s' y _.
  rewrite foldl_bind_list. apply foldl_ext_in. intros s'' x _. reflexivity.
Qed.

Lemma elem_of_coords_xy w h c :
  c ∈ coords_xy w h <-> 0 <= c.1 < w /\ 0 <= c.2 < h.
Proof.
  unfold coords_xy. rewrite list_elem_of_bind. split.
  - intros (x & Hc & Hx). apply list_elem_of_bind in Hc as (y & Hc & Hy).
    apply list_elem_of_singleton in Hc as ->.
    apply elem_of_seqZ in Hx, Hy. cbn. lia.
  - intros [Hx Hy]. exists c.1. rewrite elem_of_seqZ. split; [|lia].
    apply list_elem_of_bind. exists c.2. rewrite elem_of_seqZ.
    split; [|lia]. destruct c. apply list_elem_of_singleton. reflexivity.
Qed.

Lemma elem_of_coords_yx w h c :
  c ∈ coords_yx w h <-> 0 <= c.1 < w /\ 0 <= c.2 < h.
Proof.
  unfold coords_yx. rewrite list_elem_of_bind. split.
  - intros (y & Hc & Hy). apply list_elem_of_bind in Hc as (x & Hc & Hx).
    apply list_elem_of_singleton in Hc as ->.
    apply elem_of_seqZ in Hx, Hy. cbn. lia.
  - intros [Hx Hy]. exists c.2. rewrite elem_of_seqZ. split; [|lia].
    apply list_elem_of_bind. exists c.1. rewrite elem_of_seqZ.
    split; [|lia]. destruct c. apply list_elem_of_singleton. reflexivity.
Qed.

Lemma NoDup_coords_xy w h : NoDup (coords_xy w h).
Proof.
  unfold coords_xy. apply NoDup_bind; [| |apply NoDup_seqZ].
  - intros x1 x2 c _ _ H1 H2.
    apply list_elem_of_bind in H1 as (y1 & H1 & _).
    apply list_elem_of_bind in H2 as (y2 & H2 & _).
    apply list_elem_of_singleton in H1, H2. congruence.
  - intros x _. apply NoDup_bind; [| |apply NoDup_seqZ].
    + intros y1 y2 c _ _ H1 H2. apply list_elem_of_singleton in H1, H2. congruence.
    + intros y _. apply NoDup_singleton.
Qed.

Lemma NoDup_coords_yx w h : NoDup (coords_yx w h).
Proof.
  unfold coords_yx. apply NoDup_bind; [| |apply NoDup_seqZ].
  - intros y1 y2 c _ _ H1 H2.
    apply list_elem_of_bind in H1 as (x1 & H1 & _).
    apply list_elem_of_bind in H2 as (x2 & H2 & _).
    apply list_elem_of_singleton in H1, H2. congruence.
  - intros y _. apply NoDup_bind; [| |apply NoDup_seqZ].
    + intros x1 x2 c _ _ H1 H2. apply list_elem_of_singleton in H1, H2. congruence.
    + intros x _. apply NoDup_singleton.
Qed.

(** A loop whose body rewrites only the cell of the coordinate it visits,
    as a function of that cell's old content, computes the pointwise
    image of the initial array. *)
Section pointwise.
Context {S C V : Type} `{!EqDecision C}.
Variables (get : S -> C -> V) (ok : S -> Prop) (dom : C -> Prop).
Variables (f : S -> C -> S) (new : C -> V -> V).
Hypothesis ok_step : forall s c, ok s -> dom c -> ok (f s c).
Hypothesis get_eq : forall s c, ok s -> dom c -> get (f s c) c = new c (get s c).
Hypothesis get_ne : forall s c c',
  ok s -> dom c -> dom c' -> c <> c' -> get (f s c) c' = get s c'.

Lemma foldl_pointwise l s :
  NoDup l -> Forall dom l -> ok s ->
  ok (foldl f s l) /\
  forall c, dom c ->
    get (foldl f s l) c = if decide (c ∈ l) then new c (get s c) else get s c.
Proof.
  revert s. induction l as [|a l IH]; intros s Hnd Hdom Hok.
  - split; [done|]. intros c _. cbn. rewrite decide_False; [done|]. apply not_elem_of_nil.
  - apply NoDup_cons in Hnd as [Hal Hnd].
    apply Forall_cons in Hdom as [Ha Hdom].
    cbn [foldl].
    destruct (IH (f s a) Hnd Hdom (ok_step _ _ Hok Ha)) as [Hok' Hget].
    split; [done|]. intros c Hc. rewrite (Hget c Hc).
    destruct (decide (c = a)) as [->|Hne].
    + rewrite (decide_False (P := a ∈ l)) by done.
      rewrite (decide_True (P := a ∈ a :: l)) by left.
      by apply get_eq.
    + rewrite get_ne by done.
      destruct (decide (c ∈ l)) as [Hin|Hin].
      * rewrite decide_True; [done|]. by right.
      * rewrite decide_False; [done|]. rewrite elem_of_cons. tauto.
Qed.
End pointwise.

(** A counter that each visit moves by an amount fixed by the
    coordinate ends moved by the sum of these amounts. *)
Lemma foldl_measure {S C} (m : S -> Z) (d : C -> Z) (f : S -> C -> S) l s :
  (forall s c, c ∈ l -> m (f s c) = m s + d c) ->
  m (foldl f s l) = m s + sumZ d l.
Proof.
  revert s. induction l as [|a l IH]; intros s Hm; cbn [foldl sumZ foldr]; [lia|].
  rewrite IH by (intros; apply Hm; by right).
  rewrite Hm by left. fold (sumZ d l). lia.
Qed.

(** ** The averaging pass *)

Lemma gather_foldl w h snap x y (l : list (Z * Z)) r g b n :
  foldl (IA.gather w h snap x y) (r, g, b, n) l =
  let ns := map (fun n : Z * Z => RGBA_At w h snap (x + n.1) (y + n.2))
    (List.filter
       (fun n : Z * Z => in_rect w h (x + n.1) (y + n.2)
                         && (A (RGBA_At w h snap (x + n.1) (y + n.2)) =? 255)) l) in
  (r + sumZ (fun v => v * 257) (map R ns), g + sumZ (fun v => v * 257) (map G ns),
   b + sumZ (fun v => v * 257) (map B ns), n + Z.of_nat (length ns)).
Proof.
  revert r g b n. induction l as [|[dx dy] l IH]; intros r g b n.
  - cbn. repeat f_equal; lia.
  - cbn [foldl List.filter]. unfold IA.gather at 2. cbn [fst snd].
    fold (in_rect w h (x + dx) (y + dy)).
    destruct (in_rect w h (x + dx) (y + dy)) eqn:Hin; cbn [andb].
    + cbn [RGBA_RGBA ca cr cg cb].
      destruct (Z.eqb_spec (A (RGBA_At w h snap (x + dx) (y + dy)) * 257) 65535) as [Ha|Ha].
      * rewrite (proj2 (Z.eqb_eq _ 255)) by lia.
        rewrite IH. cbv zeta. cbn [map length fst snd]. unfold sumZ. cbn [foldr].
        f_equal; [f_equal; [f_equal|]|]; lia.
      * rewrite (proj2 (Z.eqb_neq _ 255)) by lia. apply IH.
    + apply IH.
Qed.

Lemma gather_neighbours w h snap x y :
  foldl (IA.gather w h snap x y) (0, 0, 0, 0) IA.neighbours =
  let ns := IASpec.gathered w h snap x y in
  (sumZ (fun v => v * 257) (map R ns), sumZ (fun v => v * 257) (map G ns),
   sumZ (fun v => v * 257) (map B ns), Z.of_nat (length ns)).
Proof. rewrite gather_foldl. reflexivity. Qed.

(** The colour a pass writes at a pixel it rewrites. *)
Lemma pixel_step_spec w h out rgba x y temp rem :
  IA.pixel_step w h out rgba x y (temp, rem) =
  if negb (A (pixel_at out (y * w + x)) =? 255)
     && negb (Nat.eqb (length (IASpec.gathered w h rgba x y)) 0)
  then
    let ns := IASpec.gathered w h rgba x y in
    (write4 temp (4 * (y * w + x))
       (mkRGBA (uint8 (IASpec.mean16_hi (map R ns))) (uint8 (IASpec.mean16_hi (map G ns)))
               (uint8 (IASpec.mean16_hi (map B ns))) 255),
     rem - 1)
  else (temp, rem).
Proof.
  unfold IA.pixel_step. rewrite pix_offset, gather_neighbours.
  change (zget out (4 * (y * w + x) + 3)) with (A (pixel_at out (y * w + x))).
  destruct (A (pixel_at out (y * w + x)) =? 255); cbn [negb andb]; [done|].
  cbv zeta. cbn [fst snd].
  destruct (IASpec.gathered w h rgba x y) as [|n ns] eqn:Hns; [done|].
  rewrite (proj2 (Z.ltb_lt 0 _)) by (cbn [length]; lia).
  cbn [Nat.eqb length negb]. unfold IASpec.mean16_hi.
  rewrite !List.length_map. reflexivity.
Qed.

Lemma length_pixel_step w h out rgba x y s :
  length (IA.pixel_step w h out rgba x y s).1 = length s.1.
Proof.
  destruct s as [temp rem]. rewrite pixel_step_spec.
  destruct (_ && _); cbn [fst]; [apply length_write4|done].
Qed.

Lemma copy_NewRGBA w h (pix : list Z) :
  0 <= w -> 0 <= h -> Z.of_nat (length pix) = 4 * (w * h) ->
  copy (NewRGBA w h) pix = pix.
Proof.
  intros Hw Hh Hlen. apply copy_same_length.
  apply Nat2Z.inj. rewrite length_NewRGBA by done. lia.
Qed.

(** The pixel bodies of a pass run in any order that visits every pixel
    once: each pixel ends as a function of the snapshot alone. *)
Lemma ia_pixels_spec w h out rgba rem (l : list (Z * Z)) :
  0 <= w -> 0 <= h -> Z.of_nat (length out) = 4 * (w * h) ->
  NoDup l -> (forall c, c ∈ l <-> c ∈ coords_yx w h) ->
  let r := foldl (fun s c => IA.pixel_step w h out rgba c.1 c.2 s) (out, rem) l in
  Z.of_nat (length r.1) = 4 * (w * h) /\
  (forall x y, 0 <= x < w -> 0 <= y < h ->
     pixel_at r.1 (y * w + x) =
     if negb (A (pixel_at out (y * w + x)) =? 255)
        && negb (Nat.eqb (length (IASpec.gathered w h rgba x y)) 0)
     then
       let ns := IASpec.gathered w h rgba x y in
       mkRGBA (uint8 (IASpec.mean16_hi (map R ns))) (uint8 (IASpec.mean16_hi (map G ns)))
              (uint8 (IASpec.mean16_hi (map B ns))) 255
     else pixel_at out (y * w + x)) /\
  r.2 = rem - sumZ (fun c : Z * Z =>
          if negb (A (pixel_at out (c.2 * w + c.1)) =? 255)
             && negb (Nat.eqb (length (IASpec.gathered w h rgba c.1 c.2)) 0)
          then 1 else 0) l.
Proof.
  intros Hw Hh Hlen Hnd Hl r. subst r.
  set (f := fun (s : list Z * Z) (c : Z * Z) => IA.pixel_step w h out rgba c.1 c.2 s).
  pose proof (foldl_pointwise
    (fun (s : list Z * Z) (c : Z * Z) => pixel_at s.1 (c.2 * w + c.1))
    (fun s => Z.of_nat (length s.1) = 4 * (w * h))
    (fun c => 0 <= c.1 < w /\ 0 <= c.2 < h)
    f
    (fun c v =>
       if negb (A (pixel_at out (c.2 * w + c.1)) =? 255)
          && negb (Nat.eqb (length (IASpec.gathered w h rgba c.1 c.2)) 0)
       then
         let ns := IASpec.gathered w h rgba c.1 c.2 in
         mkRGBA (uint8 (IASpec.mean16_hi (map R ns))) (uint8 (IASpec.mean16_hi (map G ns)))
                (uint8 (IASpec.mean16_hi (map B ns))) 255
       else v)) as Hpw.
  destruct (Hpw) with (l := l) (s := (out, rem)) as [Hok Hget].
  - intros s c Hs Hc. unfold f. rewrite length_pixel_step. done.
  - intros [temp rem'] [x y] Hs [Hx Hy]. cbn [fst snd] in *. unfold f. cbn [fst snd].
    rewrite pixel_step_spec. destruct (_ && _); cbn [fst]; [|done].
    apply pixel_at_write4_eq; [lia|].
    pose proof (index_bounds w h x y Hx Hy). lia.
  - intros [temp rem'] [x y] [x' y'] Hs [Hx Hy] [Hx' Hy'] Hne. cbn [fst snd] in *.
    unfold f. cbn [fst snd]. rewrite pixel_step_spec.
    destruct (_ && _); cbn [fst]; [|done].
    apply pixel_at_write4_ne; [nia|nia|].
    intros Heq. apply index_inj in Heq as [-> ->]; [done|lia|lia].
  - done.
  - apply Forall_forall. intros c Hc%Hl. by apply elem_of_coords_yx.
  - done.
  - split; [exact Hok|]. split.
    + intros x y Hx Hy. specialize (Hget (x, y)). cbn [fst snd] in Hget.
      rewrite Hget by lia.
      rewrite decide_True by (apply Hl, elem_of_coords_yx; cbn; lia). reflexivity.
    + rewrite (foldl_measure snd (fun c : Z * Z =>
          - (if negb (A (pixel_at out (c.2 * w + c.1)) =? 255)
               && negb (Nat.eqb (length (IASpec.gathered w h rgba c.1 c.2)) 0)
             then 1 else 0))).
      * cbn [snd].
        assert (forall (g : Z * Z -> Z) k, sumZ (fun c => - g c) k = - sumZ g k) as Hneg.
        { intros g k. induction k as [|a k IH]; cbn; [done|]. fold (sumZ g k).
          fold (sumZ (fun c => - g c) k). lia. }
        rewrite Hneg. lia.
      * intros [temp rem'] [x y] _. unfold f. cbn [fst snd]. rewrite pixel_step_spec.
        destruct (_ && _); cbn [snd]; lia.
Qed.

(** The loop nest of a pass, pixel by pixel. *)
Lemma pass_loop_spec w h out rgba rem :
  0 <= w -> 0 <= h -> Z.of_nat (length out) = 4 * (w * h) ->
  let r := for_range 0 h (fun y => for_range 0 w (fun x =>
             IA.pixel_step w h out rgba x y)) (out, rem) in
  Z.of_nat (length r.1) = 4 * (w * h) /\
  (forall x y, 0 <= x < w -> 0 <= y < h ->
     pixel_at r.1 (y * w + x) =
     if negb (A (pixel_at out (y * w + x)) =? 255)
        && negb (Nat.eqb (length (IASpec.gathered w h rgba x y)) 0)
     then
       let ns := IASpec.gathered w h rgba x y in
       mkRGBA (uint8 (IASpec.mean16_hi (map R ns))) (uint8 (IASpec.mean16_hi (map G ns)))
              (uint8 (IASpec.mean16_hi (map B ns))) 255
     else pixel_at out (y * w + x)) /\
  r.2 = rem - sumZ (fun c : Z * Z =>
          if negb (A (pixel_at out (c.2 * w + c.1)) =? 255)
             && negb (Nat.eqb (length (IASpec.gathered w h rgba c.1 c.2)) 0)
          then 1 else 0) (coords_yx w h).
Proof.
  intros Hw Hh Hlen. rewrite for_range_nest_yx. cbv beta.
  apply ia_pixels_spec; [done|done|done|apply NoDup_coords_yx|done].
Qed.

(** ** Sums over coordinate lists *)

Lemma sumZ_ext_in {T} (f g : T -> Z) l :
  (forall c, c ∈ l -> f c = g c) -> sumZ f l = sumZ g l.
Proof.
  induction l as [|a l IH]; intros Hfg; cbn; [done|].
  fold (sumZ f l) (sumZ g l). rewrite Hfg by left.
  rewrite IH; [done|]. intros c Hc. apply Hfg. by right.
Qed.

Lemma sumZ_sub {T} (f g : T -> Z) l :
  sumZ (fun c => f c - g c) l = sumZ f l - sumZ g l.
Proof.
  induction l as [|a l IH]; cbn; [done|].
  fold (sumZ f l) (sumZ g l) (sumZ (fun c => f c - g c) l). lia.
Qed.

Lemma sumZ_nonneg {T} (f : T -> Z) l :
  (forall c, c ∈ l -> 0 <= f c) -> 0 <= sumZ f l.
Proof.
  induction l as [|a l IH]; intros Hf; cbn; [done|]. fold (sumZ f l).
  pose proof (Hf a ltac:(left)). pose proof (IH ltac:(intros; apply Hf; by right)). lia.
Qed.

Lemma sumZ_pos {T} (f : T -> Z) l :
  (forall c, c ∈ l -> 0 <= f c) ->
  0 < sumZ f l <-> exists c, c ∈ l /\ 0 < f c.
Proof.
  induction l as [|a l IH]; intros Hf; cbn.
  - split; [lia|]. intros (c & Hc & _). by apply not_elem_of_nil in Hc.
  - fold (sumZ f l).
    pose proof (Hf a ltac:(left)) as Ha.
    assert (forall c, c ∈ l -> 0 <= f c) as Hl by (intros; apply Hf; by right).
    pose proof (sumZ_nonneg f l Hl). specialize (IH Hl). split.
    + intros Hpos. destruct (Z.lt_ge_cases 0 (f a)).
      * exists a. split; [left|done].
      * destruct (proj1 IH ltac:(lia)) as (c & Hc & Hfc). exists c. split; [by right|done].
    + intros (c & Hc & Hfc). apply elem_of_cons in Hc as [->|Hc]; [lia|].
      assert (0 < sumZ f l) by (apply IH; eauto). lia.
Qed.

Lemma sumZ_perm {T} (f : T -> Z) l k : l ≡ₚ k -> sumZ f l = sumZ f k.
Proof.
  induction 1 as [|a l k _ IH|a b l|l k m _ IH1 _ IH2]; cbn; try done.
  - fold (sumZ f l) (sumZ f k). lia.
  - lia.
  - congruence.
Qed.

Lemma coords_perm w h : coords_xy w h ≡ₚ coords_yx w h.
Proof.
  apply NoDup_Permutation; [apply NoDup_coords_xy|apply NoDup_coords_yx|].
  intros c. rewrite elem_of_coords_xy, elem_of_coords_yx. done.
Qed.

(** Two [Pix] slices of the same raster with the same pixels are the
    same bytes. *)
Lemma pix_ext w h (p1 p2 : list Z) :
  0 <= w ->
  Z.of_nat (length p1) = 4 * (w * h) -> Z.of_nat (length p2) = 4 * (w * h) ->
  (forall x y, 0 <= x < w -> 0 <= y < h ->
     pixel_at p1 (y * w + x) = pixel_at p2 (y * w + x)) ->
  p1 = p2.
Proof.
  intros Hw Hl1 Hl2 Hpix.
  apply (list_eq_same_length _ _ (Z.to_nat (4 * (w * h)))); [lia|lia|].
  intros i a b Hi Ha Hb.
  assert (0 < w) as Hw'.
  { destruct (Z.eq_dec w 0) as [->|]; [|lia]. cbn in Hi. lia. }
  set (k := Z.of_nat i / 4).
  assert (0 <= k < w * h /\ 0 <= Z.of_nat i - 4 * k < 4) as [Hk Hc].
  { unfold k. pose proof (Z.div_mod (Z.of_nat i) 4 ltac:(lia)).
    pose proof (Z.mod_pos_bound (Z.of_nat i) 4 ltac:(lia)).
    split; [|lia]. split; [apply Z.div_pos; lia|].
    apply Z.div_lt_upper_bound; lia. }
  assert (0 <= k mod w < w /\ 0 <= k / w < h /\ k = k / w * w + k mod w) as (Hx & Hy & Hxy).
  { pose proof (Z.mod_pos_bound k w Hw'). pose proof (Z.div_mod k w ltac:(lia)).
    split; [done|]. split; [|lia]. split; [apply Z.div_pos; lia|].
    apply Z.div_lt_upper_bound; [done|]. nia. }
  specialize (Hpix _ _ Hx Hy). rewrite <- Hxy in Hpix. unfold pixel_at in Hpix.
  apply list_lookup_total_correct in Ha, Hb.
  assert (zget p1 (Z.of_nat i) = a) as Ha' by (unfold zget; by rewrite Nat2Z.id).
  assert (zget p2 (Z.of_nat i) = b) as Hb' by (unfold zget; by rewrite Nat2Z.id).
  injection Hpix as H0 H1 H2 H3.
  assert (Z.of_nat i = 4 * k \/ Z.of_nat i = 4 * k + 1 \/
          Z.of_nat i = 4 * k + 2 \/ Z.of_nat i = 4 * k + 3) as Hcase by lia.
  destruct Hcase as [Hi'|[Hi'|[Hi'|Hi']]]; rewrite Hi' in Ha', Hb'; congruence.
Qed.

(** The order in which a pass visits the pixels does not matter. *)
Lemma ia_traversal_irrelevant w h out rgba rem (l : list (Z * Z)) :
  0 <= w -> 0 <= h -> Z.of_nat (length out) = 4 * (w * h) ->
  l ≡ₚ coords_yx w h ->
  foldl (fun s c => IA.pixel_step w h out rgba c.1 c.2 s) (out, rem) l
  = for_range 0 h (fun y => for_range 0 w (fun x =>
      IA.pixel_step w h out rgba x y)) (out, rem).
Proof.
  intros Hw Hh Hlen Hperm.
  destruct (ia_pixels_spec w h out rgba rem l Hw Hh Hlen) as (Hl1 & Hp1 & Hr1).
  { rewrite Hperm. apply NoDup_coords_yx. }
  { intros c. by rewrite Hperm. }
  destruct (pass_loop_spec w h out rgba rem Hw Hh Hlen) as (Hl2 & Hp2 & Hr2).
  cbv zeta in *.
  destruct (foldl _ _ l) as [t1 r1], (for_range 0 h _ _) as [t2 r2].
  cbn [fst snd] in *. f_equal.
  - apply (pix_ext w h); try done. intros x y Hx Hy. by rewrite Hp1, Hp2.
  - rewrite Hr1, Hr2. f_equal. by apply sumZ_perm.
Qed.

(** ** C5: one averaging pass *)

(** One pass over a state of the pass loop, pixel by pixel, in the terms
    of [IASpec]. *)
Lemma ia_pass_step w h st :
  0 <= w -> 0 <= h -> ia_wf w h st ->
  (forall x y, 0 <= x < w -> 0 <= y < h ->
     RGBA_At w h (IA.output (IA.pass w h st)) x y =
     IASpec.step_pixel IASpec.mean16_hi w h (IA.output st) x y) /\
  IA.remaining (IA.pass w h st) =
    IA.remaining st - IASpec.filled_count w h (IA.output st) /\
  IA.passes (IA.pass w h st) = IA.passes st + 1 /\
  ia_wf w h (IA.pass w h st).
Proof.
  intros Hw Hh [Hlen Hrgba]. unfold IA.pass.
  rewrite (copy_NewRGBA w h (IA.output st)) by done. rewrite Hrgba.
  destruct (pass_loop_spec w h (IA.output st) (IA.output st) (IA.remaining st) Hw Hh Hlen)
    as (Hlen' & Hpix & Hrem).
  destruct (for_range 0 h _ _) as [temp rem]. cbn [fst snd] in *.
  assert (copy (IA.output st) temp = temp) as Hc.
  { apply copy_same_length. apply Nat2Z.inj. lia. }
  rewrite !Hc. cbn [IA.output IA.rgba IA.remaining IA.passes].
  split; [|split; [|split; [done|split; done]]].
  - intros x y Hx Hy. rewrite RGBA_At_pixel, Hpix by done.
    unfold IASpec.step_pixel, IASpec.filled. cbn [fst snd].
    rewrite RGBA_At_pixel by done. reflexivity.
  - rewrite Hrem. unfold IASpec.filled_count. f_equal.
    apply sumZ_ext_in. intros [x y] Hc'%elem_of_coords_yx. cbn [fst snd] in *.
    unfold IASpec.filled. cbn [fst snd]. rewrite RGBA_At_pixel by lia. reflexivity.
Qed.

(** C5 (as amended).  One pass over a state of the pass loop rewrites
    simultaneously, from the snapshot held at the start of the pass:
    a pixel that is not fully opaque and has at least one in-raster,
    fully opaque up/down/left/right neighbour gets, per colour channel,
    the high byte of the truncating mean of those neighbours' channel
    values widened to 16 bits, and alpha 255; every other pixel is kept.
    The remaining count drops by the number of pixels rewritten, the
    pass index grows by one, the result is again a loop state, and
    visiting the pixels in any other order gives the same raster and
    count. *)
Theorem ia_pass_spec w h st :
  0 <= w -> 0 <= h -> ia_wf w h st ->
  (forall x y, 0 <= x < w -> 0 <= y < h ->
     RGBA_At w h (IA.output (IA.pass w h st)) x y =
     IASpec.step_pixel IASpec.mean16_hi w h (IA.output st) x y) /\
  IA.remaining (IA.pass w h st) =
    IA.remaining st - IASpec.filled_count w h (IA.output st) /\
  IA.passes (IA.pass w h st) = IA.passes st + 1 /\
  ia_wf w h (IA.pass w h st) /\
  forall l : list (Z * Z), l ≡ₚ coords_yx w h ->
    foldl (fun s c => IA.pixel_step w h (IA.output st) (IA.rgba st) c.1 c.2 s)
          (IA.output st, IA.remaining st) l
    = (IA.output (IA.pass w h st), IA.remaining (IA.pass w h st)).
Proof.
  intros Hw Hh Hwf.
  destruct (ia_pass_step w h st Hw Hh Hwf) as (Hpix & Hrem & Hpasses & Hwf').
  repeat (split; [done|]).
  intros l Hperm. destruct Hwf as [Hlen Hrgba].
  rewrite (ia_traversal_irrelevant w h _ _ _ l Hw Hh Hlen Hperm).
  unfold IA.pass. rewrite (copy_NewRGBA w h (IA.output st)) by done.
  destruct (pass_loop_spec w h (IA.output st) (IA.rgba st) (IA.remaining st) Hw Hh Hlen)
    as (Hlen' & _).
  destruct (for_range 0 h _ _) as [temp rem]. cbn [fst snd] in *.
  rewrite copy_same_length by (apply Nat2Z.inj; lia). reflexivity.
Qed.

(** The scenario of the specification: the centre of [red_cross] becomes
    exactly (255, 0, 0, 255). *)
Lemma ia_pass_spec_witness :
  0 <= 3 /\ ia_wf 3 3 (IA.init red_cross) /\
  RGBA_At 3 3 (IA.output (IA.pass 3 3 (IA.init red_cross))) 1 1 = mkRGBA 255 0 0 255.
Proof.
  split; [lia|]. split; [split; reflexivity|].
  destruct (ia_pass_spec 3 3 (IA.init red_cross)) as [Hpix _];
    [lia|lia|split; reflexivity|].
  rewrite Hpix by lia. reflexivity.
Defined.

(** C5 as the specification words it (the colour is the truncating mean
    of the gathered 8-bit channel values) fails: on [uneven_cross] the
    code stores red 65 where the mean of 64, 65, 65, 65 truncates to 64. *)
Lemma ia_mean8_counterexample :
  ~ (forall w h st, 0 <= w -> 0 <= h -> ia_wf w h st ->
       forall x y, 0 <= x < w -> 0 <= y < h ->
         RGBA_At w h (IA.output (IA.pass w h st)) x y =
         IASpec.step_pixel IASpec.mean8 w h (IA.output st) x y).
Proof.
  intros Hall.
  specialize (Hall 3 3 (IA.init uneven_cross) ltac:(lia) ltac:(lia)
                ltac:(split; reflexivity) 1 1 ltac:(lia) ltac:(lia)).
  vm_compute in Hall. discriminate Hall.
Qed.

Example uneven_cross_fill :
  RGBA_At 3 3 (IA.output (IA.pass 3 3 (IA.init uneven_cross))) 1 1 = mkRGBA 65 0 0 255 /\
  IASpec.step_pixel IASpec.mean8 3 3 (IA.output (IA.init uneven_cross)) 1 1
    = mkRGBA 64 0 0 255.
Proof. split; reflexivity. Qed.

(** The stored byte is the truncating mean of the 8-bit values or one
    more. *)
Lemma sumZ_scale {T} (f : T -> Z) k l : sumZ (fun c => f c * k) l = sumZ f l * k.
Proof.
  induction l as [|a l IH]; cbn; [done|].
  fold (sumZ f l) (sumZ (fun c => f c * k) l). lia.
Qed.

Lemma sumZ_bytes (vals : list Z) :
  Forall (fun v => 0 <= v <= 255) vals ->
  0 <= sumZ (fun v => v) vals <= 255 * Z.of_nat (length vals).
Proof.
  induction 1 as [|v vals Hv _ IH]; cbn [sumZ foldr length]; [lia|].
  fold (sumZ (fun v => v) vals). lia.
Qed.

Lemma mean16_hi_bounds (vals : list Z) :
  vals <> [] -> Forall (fun v => 0 <= v <= 255) vals ->
  IASpec.mean8 vals <= IASpec.mean16_hi vals <= IASpec.mean8 vals + 1.
Proof.
  intros Hne Hb. unfold IASpec.mean8, IASpec.mean16_hi.
  rewrite (sumZ_scale (fun v => v)), Z.shiftr_div_pow2 by lia.
  pose proof (sumZ_bytes vals Hb) as Hs.
  set (s := sumZ (fun v => v) vals) in *.
  assert (0 < Z.of_nat (length vals)) as Hn by (destruct vals; [done|cbn; lia]).
  set (n := Z.of_nat (length vals)) in *.
  change (2 ^ 8) with 256.
  rewrite Z.div_div by lia.
  pose proof (Z.div_mod s n ltac:(lia)) as Hq.
  pose proof (Z.mod_pos_bound s n Hn) as Hr.
  set (q := s / n) in *. set (r := s mod n) in *.
  assert (0 <= q <= 255) by nia.
  split.
  - apply Z.div_le_lower_bound; nia.
  - apply Z.lt_succ_r. apply Z.div_lt_upper_bound; nia.
Qed.

(** ** Loops of [Set] calls *)

Lemma pixel_at_RGBA_Set_eq w h pix x y c :
  0 <= x < w -> 0 <= y < h -> Z.of_nat (length pix) = 4 * (w * h) ->
  pixel_at (RGBA_Set w h pix x y c) (y * w + x) = c.
Proof.
  intros Hx Hy Hlen. unfold RGBA_Set.
  rewrite (proj2 (in_rect_spec w h x y)), pix_offset by done.
  pose proof (index_bounds w h x y Hx Hy).
  apply pixel_at_write4_eq; lia.
Qed.

Lemma pixel_at_RGBA_Set_ne w h pix x y x' y' c :
  0 <= x < w -> 0 <= y < h -> 0 <= x' < w -> 0 <= y' < h -> (x, y) <> (x', y') ->
  pixel_at (RGBA_Set w h pix x y c) (y' * w + x') = pixel_at pix (y' * w + x').
Proof.
  intros Hx Hy Hx' Hy' Hne. unfold RGBA_Set.
  rewrite (proj2 (in_rect_spec w h x y)), pix_offset by done.
  apply pixel_at_write4_ne; [nia|nia|].
  intros Heq. apply index_inj in Heq as [-> ->]; [done|lia|lia].
Qed.

(** A loop that sets some of the pixels it visits to colours fixed in
    advance. *)
Lemma foldl_RGBA_Set w h (upd : Z * Z -> option RGBA) (l : list (Z * Z)) pix :
  NoDup l -> Forall (fun c => 0 <= c.1 < w /\ 0 <= c.2 < h) l ->
  Z.of_nat (length pix) = 4 * (w * h) ->
  let r := foldl (fun s c => match upd c with
                             | Some col => RGBA_Set w h s c.1 c.2 col
                             | None => s
                             end) pix l in
  Z.of_nat (length r) = 4 * (w * h) /\
  forall x y, 0 <= x < w -> 0 <= y < h ->
    pixel_at r (y * w + x) =
    if decide ((x, y) ∈ l) then default (pixel_at pix (y * w + x)) (upd (x, y))
    else pixel_at pix (y * w + x).
Proof.
  intros Hnd Hdom Hlen r. subst r.
  destruct (foldl_pointwise
    (fun (s : list Z) (c : Z * Z) => pixel_at s (c.2 * w + c.1))
    (fun s => Z.of_nat (length s) = 4 * (w * h))
    (fun c => 0 <= c.1 < w /\ 0 <= c.2 < h)
    (fun s c => match upd c with
                | Some col => RGBA_Set w h s c.1 c.2 col
                | None => s
                end)
    (fun c v => default v (upd c))) with (l := l) (s := pix) as [Hok Hget];
    try done.
  - intros s c Hs Hc. destruct (upd c); [|done]. by rewrite length_RGBA_Set.
  - intros s [x y] Hs [Hx Hy]. cbn [fst snd] in *.
    destruct (upd (x, y)); [|done]. by apply pixel_at_RGBA_Set_eq.
  - intros s [x y] [x' y'] Hs [Hx Hy] [Hx' Hy'] Hne. cbn [fst snd] in *.
    destruct (upd (x, y)); [|done]. by apply pixel_at_RGBA_Set_ne.
  - split; [done|]. intros x y Hx Hy. apply (Hget (x, y)). cbn. lia.
Qed.

(** ** The state on entry to the averaging loop *)

Lemma ia_init_spec input :
  let w := Dx input in
  let h := Dy input in
  0 <= w -> 0 <= h ->
  ia_wf w h (IA.init input) /\
  (forall x y, 0 <= x < w -> 0 <= y < h ->
     RGBA_At w h (IA.output (IA.init input)) x y = RGBAModel_Convert (At input x y)) /\
  IA.remaining (IA.init input) =
    sumZ (fun c : Z * Z =>
            if A (RGBA_At w h (IA.output (IA.init input)) c.1 c.2) =? 255 then 0 else 1)
         (coords_yx w h) /\
  IA.passes (IA.init input) = 0.
Proof.
  intros w h Hw Hh. unfold IA.init. fold w h.
  rewrite (for_range_nest_xy w h
    (fun x y pix => RGBA_Set w h pix x y (RGBAModel_Convert (At input x y)))).
  destruct (foldl_RGBA_Set w h (fun c => Some (RGBAModel_Convert (At input c.1 c.2)))
              (coords_xy w h) (NewRGBA w h)) as [Hlen Hpix].
  { apply NoDup_coords_xy. }
  { apply Forall_forall. intros c Hc. by apply elem_of_coords_xy. }
  { by apply length_NewRGBA. }
  cbv beta in *.
  set (rgba := foldl _ (NewRGBA w h) (coords_xy w h)) in *.
  rewrite (copy_NewRGBA w h rgba) by done.
  cbn [IA.output IA.rgba IA.remaining IA.passes].
  split; [done|]. split; [|split; [|done]].
  - intros x y Hx Hy. rewrite RGBA_At_pixel, Hpix by done.
    rewrite decide_True by (apply elem_of_coords_xy; cbn; lia). reflexivity.
  - rewrite (for_range_nest_xy w h (fun x y remaining =>
      if ca (RGBA_RGBA (RGBA_At w h rgba x y)) =? 65535 then remaining else remaining + 1)).
    rewrite (foldl_measure (fun r : Z => r) (fun c : Z * Z =>
      if A (RGBA_At w h rgba c.1 c.2) =? 255 then 0 else 1)).
    + rewrite Z.add_0_l. apply sumZ_perm, coords_perm.
    + intros r c _. cbn [RGBA_RGBA ca].
      destruct (Z.eqb_spec (A (RGBA_At w h rgba c.1 c.2) * 257) 65535);
        destruct (Z.eqb_spec (A (RGBA_At w h rgba c.1 c.2)) 255); lia.
Qed.

(** ** The pass loop, ring by ring *)

Lemma ia_init_inv input :
  0 <= Dx input -> 0 <= Dy input -> ia_inv (Dx input) (Dy input) (IA.init input).
Proof.
  intros Hw Hh. destruct (ia_init_spec input Hw Hh) as (Hwf & _ & Hrem & _).
  split; [done|]. exact Hrem.
Qed.

Lemma gathered_nonempty w h snap x y :
  IASpec.gathered w h snap x y <> [] <->
  exists n, In n IA.neighbours /\ in_rect w h (x + n.1) (y + n.2) = true /\
            A (RGBA_At w h snap (x + n.1) (y + n.2)) = 255.
Proof.
  unfold IASpec.gathered. split.
  - intros Hne.
    destruct (List.filter _ IA.neighbours) as [|n ns] eqn:Hf; [done|].
    assert (In n (List.filter
      (fun n : Z * Z => in_rect w h (x + n.1) (y + n.2)
                        && (A (RGBA_At w h snap (x + n.1) (y + n.2)) =? 255))
      IA.neighbours)) as Hin by (rewrite Hf; left; done).
    apply filter_In in Hin as [Hin Hp]. apply andb_true_iff in Hp as [Hr Ha].
    exists n. split; [done|]. split; [done|]. by apply Z.eqb_eq.
  - intros (n & Hin & Hr & Ha) Hnil.
    assert (In n (List.filter
      (fun n : Z * Z => in_rect w h (x + n.1) (y + n.2)
                        && (A (RGBA_At w h snap (x + n.1) (y + n.2)) =? 255))
      IA.neighbours)) as Hin'.
    { apply filter_In. split; [done|]. rewrite Hr, Ha. reflexivity. }
    destruct (List.filter _ IA.neighbours); [done|discriminate Hnil].
Qed.

Lemma filled_spec w h snap c :
  IASpec.filled w h snap c = true <->
  A (RGBA_At w h snap c.1 c.2) <> 255 /\ IASpec.gathered w h snap c.1 c.2 <> [].
Proof.
  unfold IASpec.filled. rewrite andb_true_iff, !negb_true_iff, Z.eqb_neq.
  destruct (IASpec.gathered w h snap c.1 c.2); cbn; split; intros [? ?]; done.
Qed.

(** A pixel is fully opaque after a pass exactly when it was before or
    one of its four neighbours in the raster was. *)
Lemma pass_opaque w h st x y :
  0 <= w -> 0 <= h -> ia_wf w h st -> 0 <= x < w -> 0 <= y < h ->
  A (RGBA_At w h (IA.output (IA.pass w h st)) x y) = 255 <->
  A (RGBA_At w h (IA.output st) x y) = 255 \/
  exists n, In n IA.neighbours /\ in_rect w h (x + n.1) (y + n.2) = true /\
            A (RGBA_At w h (IA.output st) (x + n.1) (y + n.2)) = 255.
Proof.
  intros Hw Hh Hwf Hx Hy.
  destruct (ia_pass_step w h st Hw Hh Hwf) as (Hpix & _).
  rewrite Hpix by done. unfold IASpec.step_pixel.
  rewrite <- gathered_nonempty.
  destruct (IASpec.filled w h (IA.output st) (x, y)) eqn:Hf.
  - apply filled_spec in Hf as [Ha Hg]. cbn [A fst snd] in *. tauto.
  - assert (~ (A (RGBA_At w h (IA.output st) x y) <> 255 /\
               IASpec.gathered w h (IA.output st) x y <> [])) as Hn.
    { intros Hc. apply (filled_spec w h (IA.output st) (x, y)) in Hc. congruence. }
    destruct (Z.eq_dec (A (RGBA_At w h (IA.output st) x y)) 255); tauto.
Qed.

Lemma pass_inv w h st :
  0 <= w -> 0 <= h -> ia_inv w h st -> ia_inv w h (IA.pass w h st).
Proof.
  intros Hw Hh [Hwf Hrem].
  destruct (ia_pass_step w h st Hw Hh Hwf) as (Hpix & Hrem' & _ & Hwf').
  split; [done|]. rewrite Hrem', Hrem.
  unfold transparent_count, IASpec.filled_count. rewrite <- sumZ_sub.
  apply sumZ_ext_in. intros [x y] Hc%elem_of_coords_yx. cbn [fst snd] in *.
  rewrite Hpix by lia. unfold IASpec.step_pixel.
  destruct (IASpec.filled w h (IA.output st) (x, y)) eqn:Hf.
  - apply filled_spec in Hf as [Ha _]. cbn [A fst snd] in *.
    rewrite (proj2 (Z.eqb_neq _ _) Ha). reflexivity.
  - lia.
Qed.

Lemma In_ia_opaque_pixels input c :
  In c (ia_opaque_pixels input) <->
  (0 <= c.1 < Dx input /\ 0 <= c.2 < Dy input) /\ ia_opaque input c = true.
Proof.
  unfold ia_opaque_pixels. rewrite filter_In, <- list_elem_of_In, elem_of_coords_yx. done.
Qed.

Lemma In_ia_transparent_pixels input c :
  In c (ia_transparent_pixels input) <->
  (0 <= c.1 < Dx input /\ 0 <= c.2 < Dy input) /\ ia_opaque input c = false.
Proof.
  unfold ia_transparent_pixels.
  rewrite filter_In, <- list_elem_of_In, elem_of_coords_yx, negb_true_iff. done.
Qed.

Lemma ia_within_mono input k k' c : k <= k' -> ia_within input k c -> ia_within input k' c.
Proof. intros Hk (s & Hs & Hd). exists s. split; [done|lia]. Qed.

(** The ball of radius [k + 1] is the ball of radius [k] grown by one
    step along the four directions, inside the raster. *)
Lemma ia_within_step input k x y :
  0 <= k -> 0 <= x < Dx input -> 0 <= y < Dy input ->
  ia_within input (k + 1) (x, y) <->
  ia_within input k (x, y) \/
  exists n, In n IA.neighbours /\ in_rect (Dx input) (Dy input) (x + n.1) (y + n.2) = true /\
            ia_within input k (x + n.1, y + n.2).
Proof.
  intros Hk Hx Hy. split.
  - intros ([sx sy] & Hs & Hd).
    pose proof (proj1 (In_ia_opaque_pixels input (sx, sy)) Hs) as [[Hsx Hsy] _].
    unfold manhattan in Hd. cbn [fst snd] in *.
    destruct (Z_le_gt_dec (Z.abs (x - sx) + Z.abs (y - sy)) k) as [Hle|Hgt].
    { left. exists (sx, sy). split; [done|]. unfold manhattan. cbn. lia. }
    right.
    assert (forall n : Z * Z, In n IA.neighbours ->
              0 <= x + n.1 < Dx input -> 0 <= y + n.2 < Dy input ->
              Z.abs (x + n.1 - sx) + Z.abs (y + n.2 - sy) <= k ->
              exists n, In n IA.neighbours /\
                in_rect (Dx input) (Dy input) (x + n.1) (y + n.2) = true /\
                ia_within input k (x + n.1, y + n.2)) as Hgo.
    { intros n Hn Hnx Hny Hnd. exists n. split; [done|].
      split; [by apply in_rect_spec|]. exists (sx, sy). split; [done|].
      unfold manhattan. cbn. lia. }
    destruct (Z.lt_trichotomy x sx) as [Hlt|[Heq|Hlt]].
    + apply (Hgo (1, 0)); cbn; [tauto|lia|lia|lia].
    + destruct (Z.lt_trichotomy y sy) as [Hlt|[Heq'|Hlt]].
      * apply (Hgo (0, 1)); cbn; [tauto|lia|lia|lia].
      * lia.
      * apply (Hgo (0, -1)); cbn; [tauto|lia|lia|lia].
    + apply (Hgo (-1, 0)); cbn; [tauto|lia|lia|lia].
  - intros [Hin|(n & Hn & _ & [s [Hs Hd]])].
    + apply (ia_within_mono input k); [lia|done].
    + exists s. split; [done|]. unfold manhattan in *. cbn [fst snd] in *.
      cbn in Hn. destruct Hn as [<-|[<-|[<-|[<-|[]]]]]; cbn [fst snd] in *; lia.
Qed.

Lemma ia_within_0 input c :
  ia_within input 0 c <-> In c (ia_opaque_pixels input).
Proof.
  split.
  - intros ([sx sy] & Hs & Hd). destruct c as [x y]. unfold manhattan in Hd.
    cbn [fst snd] in Hd. assert (x = sx /\ y = sy) as [-> ->] by lia. done.
  - intros Hc. exists c. split; [done|]. unfold manhattan. lia.
Qed.

Lemma ia_after_inv input n :
  0 <= Dx input -> 0 <= Dy input -> ia_inv (Dx input) (Dy input) (ia_after input n).
Proof.
  intros Hw Hh. induction n as [|n IH]; cbn.
  - by apply ia_init_inv.
  - by apply pass_inv.
Qed.

Lemma pass_passes w h st : IA.passes (IA.pass w h st) = IA.passes st + 1.
Proof. unfold IA.pass. destruct (for_range 0 h _ _). reflexivity. Qed.

Lemma ia_after_passes input n : IA.passes (ia_after input n) = Z.of_nat n.
Proof.
  induction n as [|n IH]; [reflexivity|].
  change (ia_after input (S n))
    with (IA.pass (Dx input) (Dy input) (ia_after input n)).
  rewrite pass_passes, IH. lia.
Qed.

(** After [n] passes exactly the pixels within distance [n] of an opaque
    input pixel are fully opaque: pass [n + 1] fills the ring at
    distance [n + 1]. *)
Lemma ia_after_opaque input n x y :
  0 <= x < Dx input -> 0 <= y < Dy input ->
  A (RGBA_At (Dx input) (Dy input) (IA.output (ia_after input n)) x y) = 255 <->
  ia_within input (Z.of_nat n) (x, y).
Proof.
  revert x y. induction n as [|n IH]; intros x y Hx Hy.
  - change (ia_after input 0) with (IA.init input).
    destruct (ia_init_spec input ltac:(lia) ltac:(lia)) as (_ & Hpix & _).
    rewrite Hpix by done. change (Z.of_nat 0) with 0.
    rewrite ia_within_0, In_ia_opaque_pixels. unfold ia_opaque. cbn [fst snd].
    rewrite Z.eqb_eq. tauto.
  - change (ia_after input (S n))
      with (IA.pass (Dx input) (Dy input) (ia_after input n)).
    destruct (ia_after_inv input n ltac:(lia) ltac:(lia)) as [Hwf _].
    rewrite pass_opaque by (done || lia).
    rewrite Nat2Z.inj_succ, <- Z.add_1_r, ia_within_step by (done || lia).
    rewrite IH by done. split.
    + intros [H|(m & Hm & Hr & Ha)]; [by left|right].
      exists m. split; [done|]. split; [done|].
      apply in_rect_spec in Hr as Hr'. apply IH; [lia|lia|done].
    + intros [H|(m & Hm & Hr & Ha)]; [by left|right].
      exists m. split; [done|]. split; [done|].
      apply in_rect_spec in Hr as Hr'. apply IH; [lia|lia|done].
Qed.

(** ** Running the pass loop *)

Lemma ia_loop_iter w h n fuel st :
  (forall j, (j < n)%nat -> 0 < IA.remaining (Nat.iter j (IA.pass w h) st)) ->
  IA.remaining (Nat.iter n (IA.pass w h) st) <= 0 ->
  (n <= fuel)%nat ->
  IA.loop fuel w h st = Some (Nat.iter n (IA.pass w h) st).
Proof.
  revert fuel st. induction n as [|n IH]; intros fuel st Hpos Hz Hfuel.
  - cbn in Hz. destruct fuel; cbn; rewrite (proj2 (Z.ltb_ge _ _) Hz); reflexivity.
  - destruct fuel as [|fuel]; [lia|]. cbn [IA.loop].
    pose proof (Hpos 0%nat ltac:(lia)) as H0. cbn [Nat.iter nat_rect] in H0.
    rewrite (proj2 (Z.ltb_lt _ _) H0).
    rewrite IH; [| | |lia].
    + rewrite <- Nat.iter_succ_r. reflexivity.
    + intros j Hj. rewrite <- Nat.iter_succ_r. apply Hpos. lia.
    + rewrite <- Nat.iter_succ_r. exact Hz.
Qed.

Lemma ia_loop_diverges w h fuel st :
  (forall j, 0 < IA.remaining (Nat.iter j (IA.pass w h) st)) ->
  IA.loop fuel w h st = None.
Proof.
  revert st. induction fuel as [|fuel IH]; intros st Hpos;
    pose proof (Hpos 0%nat) as H0; cbn [Nat.iter nat_rect] in H0.
  - cbn. rewrite (proj2 (Z.ltb_lt _ _) H0). reflexivity.
  - cbn [IA.loop]. rewrite (proj2 (Z.ltb_lt _ _) H0).
    apply IH. intros j. rewrite <- Nat.iter_succ_r. apply Hpos.
Qed.

(** ** Minimum and maximum of a list *)

Lemma foldr_min_le a l : foldr Z.min a l <= a /\ forall x, In x l -> foldr Z.min a l <= x.
Proof.
  induction l as [|b l [IHa IHl]]; cbn; [split; [lia|tauto]|].
  split; [lia|]. intros x [<-|Hx]; [lia|]. specialize (IHl x Hx). lia.
Qed.

Lemma foldr_min_In a l : foldr Z.min a l = a \/ In (foldr Z.min a l) l.
Proof.
  induction l as [|b l IH]; cbn; [by left|].
  destruct (Z.min_spec b (foldr Z.min a l)) as [[_ ->]|[_ ->]]; [right; by left|].
  destruct IH; [by left|right; by right].
Qed.

Lemma minimum_le l x : In x l -> minimum l <= x.
Proof.
  destruct l as [|a l]; [done|]. cbn [minimum].
  destruct (foldr_min_le a l) as [Ha Hl]. intros [<-|Hx]; [done|by apply Hl].
Qed.

Lemma minimum_In l : l <> [] -> In (minimum l) l.
Proof.
  destruct l as [|a l]; [done|]. intros _. cbn [minimum].
  destruct (foldr_min_In a l) as [->|H]; [by left|by right].
Qed.

Lemma maximum_ge l x : In x l -> x <= maximum l.
Proof.
  unfold maximum. induction l as [|a l IH]; [done|]. cbn.
  intros [<-|Hx]; [lia|]. specialize (IH Hx). lia.
Qed.

Lemma maximum_nonneg l : 0 <= maximum l.
Proof. unfold maximum. induction l as [|a l IH]; cbn; lia. Qed.

Lemma maximum_In l : 0 < maximum l -> In (maximum l) l.
Proof.
  unfold maximum. induction l as [|a l IH]; cbn; [lia|]. intros Hpos.
  destruct (Z.max_spec a (foldr Z.max 0 l)) as [[_ Hm]|[_ Hm]]; rewrite Hm in *.
  - right. by apply IH.
  - by left.
Qed.

(** ** C8: the number of averaging passes *)

Lemma dist_to_opaque_le input k c :
  ia_opaque_pixels input <> [] ->
  dist_to_opaque input c <= k <-> ia_within input k c.
Proof.
  intros Hne. unfold dist_to_opaque. split.
  - intros Hle.
    assert (map (manhattan c) (ia_opaque_pixels input) <> []) as Hne'.
    { destruct (ia_opaque_pixels input); [done|discriminate]. }
    apply minimum_In in Hne'. apply in_map_iff in Hne' as (s & Hs & Hin).
    exists s. split; [done|lia].
  - intros (s & Hs & Hd).
    pose proof (minimum_le (map (manhattan c) (ia_opaque_pixels input)) (manhattan c s)
                  (in_map _ _ _ Hs)). lia.
Qed.

Lemma ia_remaining_pos input n :
  0 <= Dx input -> 0 <= Dy input ->
  0 < IA.remaining (ia_after input n) <->
  exists x y, (0 <= x < Dx input /\ 0 <= y < Dy input) /\
              ~ ia_within input (Z.of_nat n) (x, y).
Proof.
  intros Hw Hh. destruct (ia_after_inv input n Hw Hh) as [_ ->].
  unfold transparent_count. rewrite sumZ_pos.
  - split.
    + intros ([x y] & Hc%elem_of_coords_yx & Hpos). cbn [fst snd] in *.
      exists x, y. split; [done|]. rewrite <- ia_after_opaque by lia.
      intros Ha. rewrite Ha in Hpos. cbn in Hpos. lia.
    + intros (x & y & Hc & Hn). exists (x, y).
      split; [apply elem_of_coords_yx; cbn; lia|]. cbn [fst snd].
      rewrite <- ia_after_opaque in Hn by lia.
      rewrite (proj2 (Z.eqb_neq _ _) Hn). lia.
  - intros c _. destruct (_ =? _); lia.
Qed.

(** C8 (as amended).  A pixel counts as opaque when its alpha, converted
    to 8 bits as the engine does on entry, is 255.  On a raster with at
    least one opaque pixel the pass loop stops
    after exactly [max_distance] passes, the largest distance from a
    transparent pixel to its nearest opaque pixel, whatever fuel at
    least that large it is given; the state it stops in is the one
    reached by that many passes, and after [n] passes the fully opaque
    pixels are exactly those at distance at most [n]. *)
Theorem ia_pass_count input fuel :
  ia_opaque_pixels input <> [] ->
  (Z.to_nat (max_distance input) <= fuel)%nat ->
  exists st,
    IA.process_gimp_alg fuel input = Some st /\
    IA.passes st = max_distance input /\
    st = ia_after input (Z.to_nat (max_distance input)) /\
    forall n x y, 0 <= x < Dx input -> 0 <= y < Dy input ->
      A (RGBA_At (Dx input) (Dy input) (IA.output (ia_after input n)) x y) = 255 <->
      dist_to_opaque input (x, y) <= Z.of_nat n.
Proof.
  intros Hne Hfuel.
  assert (0 <= Dx input /\ 0 <= Dy input) as [Hw Hh].
  { destruct (ia_opaque_pixels input) as [|c l] eqn:Hl; [done|].
    assert (In c (ia_opaque_pixels input)) as Hc by (rewrite Hl; by left).
    apply In_ia_opaque_pixels in Hc. lia. }
  pose proof (maximum_nonneg (map (dist_to_opaque input) (ia_transparent_pixels input)))
    as Hd0. fold (max_distance input) in Hd0.
  exists (ia_after input (Z.to_nat (max_distance input))).
  split; [|split; [rewrite ia_after_passes; lia|split; [done|]]].
  - unfold IA.process_gimp_alg. apply ia_loop_iter; [| |done].
    + intros j Hj. apply (ia_remaining_pos input j Hw Hh).
      assert (0 < max_distance input) as Hpos by lia.
      apply maximum_In in Hpos. fold (max_distance input) in Hpos.
      apply in_map_iff in Hpos as ([x y] & Hdist & Hc).
      apply In_ia_transparent_pixels in Hc as [Hc _]. cbn [fst snd] in Hc.
      exists x, y. split; [done|].
      rewrite <- dist_to_opaque_le by done. lia.
    + destruct (Z.lt_ge_cases 0
        (IA.remaining (Nat.iter (Z.to_nat (max_distance input))
           (IA.pass (Dx input) (Dy input)) (IA.init input)))) as [Hpos|Hle]; [|lia].
      apply (ia_remaining_pos input _ Hw Hh) in Hpos as (x & y & Hc & Hn).
      exfalso. apply Hn. apply dist_to_opaque_le; [done|].
      rewrite Z2Nat.id by done.
      destruct (ia_opaque input (x, y)) eqn:Hop.
      * assert (In (x, y) (ia_opaque_pixels input)) as Hin
          by (apply In_ia_opaque_pixels; done).
        apply (dist_to_opaque_le input); [done|].
        apply (ia_within_mono input 0); [done|]. by apply ia_within_0.
      * apply maximum_ge. apply in_map. apply In_ia_transparent_pixels. done.
  - intros n x y Hx Hy. rewrite ia_after_opaque by done.
    symmetry. by apply dist_to_opaque_le.
Qed.

(** On [lit_corner] the farthest transparent pixel is three steps from
    the corner, and the loop stops after three passes. *)
Lemma ia_pass_count_witness :
  ia_opaque_pixels lit_corner <> [] /\
  (Z.to_nat (max_distance lit_corner) <= 5)%nat /\
  exists st, IA.process_gimp_alg 5 lit_corner = Some st /\ IA.passes st = 3.
Proof.
  split; [discriminate|]. split; [vm_compute; lia|].
  destruct (ia_pass_count lit_corner 5) as (st & Hrun & Hpasses & _);
    [discriminate|vm_compute; lia|].
  exists st. split; [exact Hrun|]. rewrite Hpasses. reflexivity.
Defined.

(** On a raster with 8-bit channels the two notions of opacity are the
    same, and so are the distances. *)
Lemma spec_max_distance_8bit input :
  (forall x y, 0 <= x < Dx input -> 0 <= y < Dy input ->
     exists a, 0 <= a < 256 /\ ca (At input x y) = a * 257) ->
  spec_max_distance input = max_distance input.
Proof.
  intros H8.
  assert (forall c, In c (coords_yx (Dx input) (Dy input)) ->
            spec_opaque input c = ia_opaque input c) as Hsame.
  { intros [x y] Hc%list_elem_of_In%elem_of_coords_yx. cbn [fst snd] in Hc.
    destruct (H8 x y (proj1 Hc) (proj2 Hc)) as (a & Ha & Hca).
    unfold spec_opaque, ia_opaque, RGBAModel_Convert. cbn [fst snd A]. rewrite Hca.
    rewrite Z.shiftr_div_pow2 by lia. change (2 ^ 8) with 256.
    replace (a * 257 / 256) with a.
    2:{ replace (a * 257) with (a + a * 256) by lia.
        rewrite Z.div_add by lia. rewrite Z.div_small by lia. lia. }
    unfold uint8. rewrite Z.mod_small by lia.
    destruct (Z.eqb_spec a 255) as [->|Hne]; [reflexivity|].
    apply Z.eqb_neq. lia. }
  assert (spec_opaque_pixels input = ia_opaque_pixels input) as Hop.
  { by apply filter_ext_in. }
  assert (spec_transparent_pixels input = ia_transparent_pixels input) as Htr.
  { apply filter_ext_in. intros c Hc. by rewrite Hsame. }
  unfold spec_max_distance, max_distance. rewrite Htr. f_equal.
  apply map_ext. intros c. unfold spec_dist_to_opaque, dist_to_opaque. by rewrite Hop.
Qed.

(** C8 as the specification words it (opaque: the alpha of the input
    pixel is at its maximum) fails on a 16-bit raster: in
    [near_opaque_row] the second pixel has alpha 0xff80, so it is not
    opaque and lies at distance 1 from the opaque first pixel, but the
    loop runs no pass: the conversion to 8 bits on entry gives that
    pixel alpha 255. *)
Lemma ia_pass_count_counterexample :
  ~ (forall input fuel,
       spec_opaque_pixels input <> [] ->
       (Z.to_nat (spec_max_distance input) <= fuel)%nat ->
       exists st, IA.process_gimp_alg fuel input = Some st /\
                  IA.passes st = spec_max_distance input).
Proof.
  intros Hall.
  destruct (Hall near_opaque_row 1%nat) as (st & Hrun & Hpasses);
    [discriminate|vm_compute; lia|].
  vm_compute in Hrun. injection Hrun as <-. vm_compute in Hpasses. discriminate Hpasses.
Qed.

Example near_opaque_row_passes :
  spec_max_distance near_opaque_row = 1 /\ max_distance near_opaque_row = 0 /\
  IA.passes <$> IA.process_gimp_alg 1 near_opaque_row = Some 0 /\
  IA.output <$> IA.process_gimp_alg 1 near_opaque_row = Some [1; 2; 3; 255; 0; 0; 0; 255].
Proof. repeat split; reflexivity. Qed.

(** ** C1: rasters without an opaque pixel *)

(** The pass loop has no guard for a raster without seed colours: on a
    non-empty raster with no fully opaque pixel no amount of fuel lets
    it return. *)
Lemma ia_no_opaque_diverges input fuel :
  0 < Dx input -> 0 < Dy input -> ia_opaque_pixels input = [] ->
  IA.process_gimp_alg fuel input = None.
Proof.
  intros Hw Hh Hnone. unfold IA.process_gimp_alg. apply ia_loop_diverges.
  intros j. apply (ia_remaining_pos input j); [lia|lia|].
  exists 0, 0. split; [lia|]. intros (s & Hs & _). rewrite Hnone in Hs. done.
Qed.

(** C1 (violated by the code).  On the raster made of one transparent
    pixel [process_gimp_alg] never leaves its pass loop. *)
Theorem ia_clear_pixel_never_returns :
  forall fuel, IA.process_gimp_alg fuel clear_pixel = None.
Proof. intros fuel. apply ia_no_opaque_diverges; reflexivity. Qed.

(** ** Loops that can fail *)

Lemma foldM_app {S T} (f : T -> S -> option S) (l1 l2 : list T) (s : S) :
  JFP.foldM f (l1 ++ l2) s = JFP.foldM f l1 s ≫= JFP.foldM f l2.
Proof.
  revert s. induction l1 as [|a l1 IH]; intros s; cbn; [done|].
  destruct (f a s) as [s'|]; cbn; [apply IH|done].
Qed.

Lemma foldM_bind_list {S T U} (f : U -> S -> option S) (g : T -> list U)
    (l : list T) (s : S) :
  JFP.foldM f (l ≫= g) s = JFP.foldM (fun a => JFP.foldM f (g a)) l s.
Proof.
  revert s. induction l as [|a l IH]; intros s; [done|].
  rewrite bind_cons, foldM_app. cbn [JFP.foldM].
  destruct (JFP.foldM f (g a) s) as [s'|]; cbn; [apply IH|done].
Qed.

Lemma foldM_ext_in {S T} (f g : T -> S -> option S) (l : list T) (s : S) :
  (forall a s, a ∈ l -> f a s = g a s) -> JFP.foldM f l s = JFP.foldM g l s.
Proof.
  revert s. induction l as [|a l IH]; intros s Hfg; [done|].
  cbn [JFP.foldM]. rewrite Hfg by left.
  destruct (g a s) as [s'|]; cbn; [|done].
  apply IH. intros a' s'' Ha'. apply Hfg. by right.
Qed.

(** A loop whose body succeeds on every state satisfying an invariant it
    preserves is the plain fold of its body. *)
Lemma foldM_total {S T} (ok : S -> Prop) (f : T -> S -> option S) (l : list T) (s : S) :
  (forall a s, a ∈ l -> ok s -> is_Some (f a s) /\ ok (default s (f a s))) ->
  ok s ->
  JFP.foldM f l s = Some (foldl (fun s a => default s (f a s)) s l).
Proof.
  revert s. induction l as [|a l IH]; intros s Hf Hok; [done|].
  cbn [JFP.foldM foldl].
  destruct (Hf a s ltac:(left) Hok) as [[s' Hs'] Hok'].
  rewrite Hs' in *. cbn in *. apply IH; [|done].
  intros a' s'' Ha'. apply Hf. by right.
Qed.

(** A loop fails as soon as one of its iterations cannot succeed. *)
Lemma foldM_None {S T} (f : T -> S -> option S) (l1 l2 : list T) (a : T) (s : S) :
  (forall s, f a s = None) -> JFP.foldM f (l1 ++ a :: l2) s = None.
Proof.
  intros Ha. rewrite foldM_app.
  destruct (JFP.foldM f l1 s) as [s'|]; cbn; [|done]. by rewrite Ha.
Qed.

Lemma foldM_inv {S T} (I : S -> Prop) (f : T -> S -> option S) (l : list T) (s s' : S) :
  (forall a s s', a ∈ l -> I s -> f a s = Some s' -> I s') ->
  I s -> JFP.foldM f l s = Some s' -> I s'.
Proof.
  revert s. induction l as [|a l IH]; intros s Hf HI Hrun; cbn in Hrun.
  - by injection Hrun as <-.
  - destruct (f a s) as [s1|] eqn:Hs1; cbn in Hrun; [|done].
    apply (IH s1); [|eapply Hf; [left|done..]|done].
    intros a' t t' Ha'. apply Hf. by right.
Qed.

(** ** The row ranges of the workers *)

Lemma chunk_size_pos numCpu height :
  1 <= numCpu -> 0 <= height ->
  1 <= (if height / numCpu =? 0 then 1 else height / numCpu).
Proof.
  intros Hn Hh. destruct (Z.eqb_spec (height / numCpu) 0); [lia|].
  pose proof (Z.div_pos height numCpu Hh ltac:(lia)). lia.
Qed.

Lemma chunk_fits numCpu height :
  1 <= numCpu <= height + 1 ->
  (numCpu - 1) * (if height / numCpu =? 0 then 1 else height / numCpu) <= height.
Proof.
  intros Hn. destruct (Z.eqb_spec (height / numCpu) 0) as [Hz|Hz]; [lia|].
  pose proof (Z.mul_div_le height numCpu ltac:(lia)).
  pose proof (Z.div_pos height numCpu ltac:(lia) ltac:(lia)). nia.
Qed.

Lemma full_chunks_rows c k :
  0 <= c -> (seqZ 0 (Z.of_nat k) ≫= fun i => seqZ (i * c) ((i + 1) * c - i * c))
            = seqZ 0 (Z.of_nat k * c).
Proof.
  intros Hc. induction k as [|k IH]; [done|].
  rewrite seqZ_S, bind_app, IH. cbn [mbind list_bind]. rewrite app_nil_r.
  rewrite Z.add_0_l.
  replace ((Z.of_nat k + 1) * c - Z.of_nat k * c) with c by lia.
  replace (Z.of_nat (S k) * c) with (Z.of_nat k * c + c) by lia.
  rewrite (seqZ_app 0 (Z.of_nat k * c) c) by nia. reflexivity.
Qed.

(** With at most [height + 1] workers the ranges are consecutive and
    make up the rows [0 .. height - 1], each exactly once. *)
Lemma worker_rows_fit numCpu height :
  1 <= numCpu <= height + 1 -> worker_rows numCpu height = seqZ 0 height.
Proof.
  intros Hn. unfold worker_rows.
  pose proof (chunk_fits numCpu height Hn) as Hfit.
  pose proof (chunk_size_pos numCpu height ltac:(lia) ltac:(lia)) as Hpos.
  replace numCpu with (Z.of_nat (Z.to_nat (numCpu - 1)) + 1) at 1 by lia.
  rewrite (seqZ_app 0 (Z.of_nat (Z.to_nat (numCpu - 1))) 1) by lia.
  rewrite bind_app. rewrite Z.add_0_l.
  change (seqZ (Z.of_nat (Z.to_nat (numCpu - 1))) 1)
    with [Z.of_nat (Z.to_nat (numCpu - 1))].
  cbn [mbind list_bind]. rewrite app_nil_r.
  set (c := if height / numCpu =? 0 then 1 else height / numCpu) in *.
  assert ((seqZ 0 (Z.of_nat (Z.to_nat (numCpu - 1))) ≫= fun i =>
             seqZ (JFP.chunk numCpu height i).1
                  ((JFP.chunk numCpu height i).2 - (JFP.chunk numCpu height i).1))
          = (seqZ 0 (Z.of_nat (Z.to_nat (numCpu - 1))) ≫= fun i =>
             seqZ (i * c) ((i + 1) * c - i * c))) as ->.
  { apply Forall_bind_ext, Forall_forall. intros i Hi%elem_of_seqZ.
    unfold JFP.chunk. cbn [fst snd].
    rewrite (proj2 (Z.eqb_neq i (numCpu - 1))) by lia. reflexivity. }
  rewrite full_chunks_rows by lia.
  unfold JFP.chunk. cbn [fst snd]. rewrite Z2Nat.id by lia.
  rewrite Z.eqb_refl. fold c.
  replace (seqZ 0 height)
    with (seqZ 0 ((numCpu - 1) * c + (height - (numCpu - 1) * c))) by (f_equal; lia).
  rewrite (seqZ_app 0 ((numCpu - 1) * c) (height - (numCpu - 1) * c)) by nia.
  rewrite Z.add_0_l. reflexivity.
Qed.

(** A pass is the row loop run over the rows of the workers, in worker
    order. *)
Lemma pass_rows numCpu w h step g :
  JFP.pass numCpu w h step g = JFP.foldM (jf_row w h g step) (worker_rows numCpu h) g.
Proof.
  unfold JFP.pass, worker_rows.
  rewrite !copy_same_length by (by rewrite length_replicate).
  rewrite foldM_bind_list. apply foldM_ext_in. intros i s _.
  unfold JFP.chunk, JFP.processJumpFlood, jf_row. reflexivity.
Qed.

Lemma jf_row_out_of_range w h g0 step g :
  1 <= w -> 0 <= h -> jf_ok w h g0 -> jf_row w h g0 step h g = None.
Proof.
  intros Hw Hh [Hd _]. unfold jf_row. rewrite seqZ_cons by lia.
  cbn [JFP.foldM]. unfold JFP.pixel.
  rewrite zlookup_None by lia. reflexivity.
Qed.

(** With two more workers than rows, some worker is handed a row below
    the raster and its first read is out of range. *)
Lemma pass_overflow numCpu w h step g :
  h + 2 <= numCpu -> 1 <= w -> 0 <= h -> jf_ok w h g ->
  JFP.pass numCpu w h step g = None.
Proof.
  intros Hn Hw Hh Hok. rewrite pass_rows. unfold worker_rows.
  replace numCpu with (h + (1 + (numCpu - h - 1))) at 1 by lia.
  rewrite (seqZ_app 0 h), (seqZ_app (0 + h) 1) by lia.
  rewrite !bind_app. change (seqZ (0 + h) 1) with [0 + h].
  rewrite Z.add_0_l. cbn [mbind list_bind]. rewrite app_nil_r.
  assert (JFP.chunk numCpu h h = (h, h + 1)) as ->.
  { unfold JFP.chunk. rewrite Z.div_small by lia. cbn [Z.eqb].
    rewrite (proj2 (Z.eqb_neq h (numCpu - 1))) by lia. f_equal; lia. }
  cbn [fst snd]. replace (h + 1 - h) with 1 by lia. change (seqZ h 1) with [h].
  cbn [app]. apply foldM_None. intros s. by apply jf_row_out_of_range.
Qed.

(** ** One jump-flood pass, pixel by pixel *)

Lemma cell_zset_eq g idx d p :
  0 <= idx < Z.of_nat (length (JFP.distances g)) ->
  0 <= idx < Z.of_nat (length (JFP.nearest g)) ->
  JFPSpec.cell (JFP.mkGrids (zset (JFP.distances g) idx d) (zset (JFP.nearest g) idx p)) idx
  = (d, p).
Proof.
  intros Hd Hn. unfold JFPSpec.cell. cbn [JFP.distances JFP.nearest].
  by rewrite !zget_zset_eq.
Qed.

Lemma cell_zset_ne g idx j d p :
  0 <= idx -> 0 <= j -> idx <> j ->
  JFPSpec.cell (JFP.mkGrids (zset (JFP.distances g) idx d) (zset (JFP.nearest g) idx p)) j
  = JFPSpec.cell g j.
Proof.
  intros Hi Hj Hne. unfold JFPSpec.cell. cbn [JFP.distances JFP.nearest].
  by rewrite !zget_zset_ne.
Qed.

Lemma candidate_unfold w h nC x y idx n g best :
  JFP.candidate w h nC x y idx n (g, best) =
  if in_rect w h (x + n.1) (y + n.2) then
    p ← zlookup nC ((y + n.2) * w + (x + n.1));
    if JFP.resolved p then
      let distance := (x - JFP.px p) * (x - JFP.px p) + (y - JFP.py p) * (y - JFP.py p) in
      if distance <? best then
        d ← zstore (JFP.distances g) idx distance;
        n ← zstore (JFP.nearest g) idx p;
        Some (JFP.mkGrids d n, distance)
      else Some (g, best)
    else Some (g, best)
  else Some (g, best).
Proof. reflexivity. Qed.

Lemma candidate_fold w h nC x y idx l g best :
  jf_ok w h g -> Z.of_nat (length nC) = w * h -> 0 <= idx < w * h ->
  exists g',
    JFP.foldM (JFP.candidate w h nC x y idx) l (g, best)
      = Some (g', (foldl (JFPSpec.scan w h nC x y) (best, JFPSpec.cell g idx) l).1) /\
    jf_ok w h g' /\
    JFPSpec.cell g' idx = (foldl (JFPSpec.scan w h nC x y) (best, JFPSpec.cell g idx) l).2 /\
    forall j, 0 <= j -> j <> idx -> JFPSpec.cell g' j = JFPSpec.cell g j.
Proof.
  intros Hok HnC Hidx. revert g best Hok.
  induction l as [|n l IH]; intros g best Hok.
  { exists g. cbn. done. }
  cbn [JFP.foldM foldl]. rewrite candidate_unfold.
  remember (JFPSpec.scan w h nC x y (best, JFPSpec.cell g idx) n) as acc eqn:Hacc.
  unfold JFPSpec.scan in Hacc. cbn [fst snd] in Hacc.
  destruct (in_rect w h (x + n.1) (y + n.2)) eqn:Hin;
    [|subst acc; cbn [mbind option_bind]; by apply IH].
  apply in_rect_spec in Hin as [Hnx Hny].
  pose proof (index_bounds w h _ _ Hnx Hny) as Hnidx.
  rewrite zlookup_Some by lia. cbn [mbind option_bind].
  set (p := zget nC ((y + n.2) * w + (x + n.1))) in *.
  destruct (JFP.resolved p); [|subst acc; by apply IH].
  cbv zeta in *.
  set (d := (x - JFP.px p) * (x - JFP.px p) + (y - JFP.py p) * (y - JFP.py p)) in *.
  destruct (d <? best); [|subst acc; by apply IH].
  destruct Hok as [Hd Hn].
  rewrite !zstore_Some by lia. cbn [mbind option_bind].
  set (g1 := JFP.mkGrids (zset (JFP.distances g) idx d) (zset (JFP.nearest g) idx p)).
  destruct (IH g1 d) as (g' & Hrun & Hok' & Hcell & Hother).
  { split; cbn; by rewrite length_zset. }
  assert (JFPSpec.cell g1 idx = (d, p)) as Hg1 by (apply cell_zset_eq; lia).
  rewrite Hg1 in *. subst acc. exists g'. split; [done|]. split; [done|]. split; [done|].
  intros j Hj Hne. rewrite Hother by done. apply cell_zset_ne; lia.
Qed.

Lemma pixel_spec w h g0 step x y g :
  jf_ok w h g0 -> jf_ok w h g -> 0 <= x < w -> 0 <= y < h ->
  exists g',
    JFP.pixel w h (JFP.distances g0) (JFP.nearest g0) step y x g = Some g' /\
    jf_ok w h g' /\
    JFPSpec.cell g' (y * w + x) =
      (foldl (JFPSpec.scan w h (JFP.nearest g0) x y)
             (zget (JFP.distances g0) (y * w + x), JFPSpec.cell g (y * w + x))
             (JFP.neighbours step)).2 /\
    forall j, 0 <= j -> j <> y * w + x -> JFPSpec.cell g' j = JFPSpec.cell g j.
Proof.
  intros [Hd0 Hn0] Hok Hx Hy. pose proof (index_bounds w h x y Hx Hy) as Hidx.
  unfold JFP.pixel. rewrite zlookup_Some by lia. cbn [mbind option_bind].
  destruct (candidate_fold w h (JFP.nearest g0) x y (y * w + x) (JFP.neighbours step) g
              (zget (JFP.distances g0) (y * w + x)) Hok Hn0 Hidx)
    as (g' & -> & Hok' & Hcell & Hother).
  exists g'. cbn. done.
Qed.

Lemma jf_rows_coords w h g0 step g :
  JFP.foldM (jf_row w h g0 step) (seqZ 0 h) g =
  JFP.foldM (fun c : Z * Z =>
               JFP.pixel w h (JFP.distances g0) (JFP.nearest g0) step c.2 c.1)
            (coords_yx w h) g.
Proof.
  unfold coords_yx. rewrite foldM_bind_list. apply foldM_ext_in. intros y s _.
  rewrite foldM_bind_list. unfold jf_row. apply foldM_ext_in. intros x s' _.
  cbn. destruct (JFP.pixel _ _ _ _ _ _ _ _); reflexivity.
Qed.

(** Running the pixel bodies of a pass in any order that visits every
    pixel once succeeds on well-sized grids, and every pixel's entries
    are those the update rule gives from the grids [g0] copied when the
    pass started. *)
Lemma jf_pixels_spec w h step g0 (l : list (Z * Z)) :
  NoDup l -> (forall c, c ∈ l <-> c ∈ coords_yx w h) -> jf_ok w h g0 ->
  exists g',
    JFP.foldM (fun c : Z * Z =>
                 JFP.pixel w h (JFP.distances g0) (JFP.nearest g0) step c.2 c.1) l g0
      = Some g' /\
    jf_ok w h g' /\
    forall x y, 0 <= x < w -> 0 <= y < h ->
      JFPSpec.cell g' (y * w + x) = JFPSpec.new_cell w h g0 step x y.
Proof.
  intros Hnd Hl Hok.
  set (f := fun (c : Z * Z) =>
              JFP.pixel w h (JFP.distances g0) (JFP.nearest g0) step c.2 c.1).
  assert (forall c s, c ∈ coords_yx w h -> jf_ok w h s ->
            exists s', f c s = Some s' /\ jf_ok w h s' /\
              JFPSpec.cell s' (c.2 * w + c.1) =
                (foldl (JFPSpec.scan w h (JFP.nearest g0) c.1 c.2)
                   (zget (JFP.distances g0) (c.2 * w + c.1), JFPSpec.cell s (c.2 * w + c.1))
                   (JFP.neighbours step)).2 /\
              forall j, 0 <= j -> j <> c.2 * w + c.1 -> JFPSpec.cell s' j = JFPSpec.cell s j)
    as Hpix.
  { intros [x y] s Hc%elem_of_coords_yx Hs. cbn [fst snd] in *.
    apply pixel_spec; (done || lia). }
  rewrite (foldM_total (jf_ok w h) f).
  - destruct (foldl_pointwise
      (fun (s : JFP.grids) (c : Z * Z) => JFPSpec.cell s (c.2 * w + c.1))
      (jf_ok w h)
      (fun c => c ∈ coords_yx w h)
      (fun s c => default s (f c s))
      (fun c v => (foldl (JFPSpec.scan w h (JFP.nearest g0) c.1 c.2)
                     (zget (JFP.distances g0) (c.2 * w + c.1), v)
                     (JFP.neighbours step)).2))
      with (l := l) (s := g0) as [Hok' Hget].
    + intros s c Hs Hc. destruct (Hpix c s Hc Hs) as (s' & -> & Hs' & _). done.
    + intros s c Hs Hc. destruct (Hpix c s Hc Hs) as (s' & -> & _ & Hcell & _). done.
    + intros s [x y] [x' y'] Hs Hc Hc' Hne.
      destruct (Hpix (x, y) s Hc Hs) as (s' & -> & _ & _ & Hother).
      apply elem_of_coords_yx in Hc, Hc'. cbn [fst snd default] in *.
      apply Hother; [nia|].
      intros Heq. apply index_inj in Heq as [-> ->]; [done|lia|lia].
    + done.
    + apply Forall_forall. intros c Hc. by apply Hl.
    + done.
    + eexists. split; [reflexivity|]. split; [done|].
      intros x y Hx Hy.
      assert ((x, y) ∈ coords_yx w h) as Hc by (apply elem_of_coords_yx; cbn; lia).
      specialize (Hget (x, y) Hc). cbn [fst snd] in Hget.
      rewrite Hget, decide_True by (by apply Hl). reflexivity.
  - intros c s Hc%Hl Hs. destruct (Hpix c s Hc Hs) as (s' & -> & Hs' & _).
    split; [by eexists|done].
  - done.
Qed.

(** With at most [height + 1] workers a pass over well-sized grids
    succeeds, and every pixel's entries are those the update rule gives
    from the grids as they were when the pass started. *)
Lemma jf_pass_spec numCpu w h step g :
  1 <= numCpu <= h + 1 -> 0 <= w -> jf_ok w h g ->
  exists g',
    JFP.pass numCpu w h step g = Some g' /\
    jf_ok w h g' /\
    forall x y, 0 <= x < w -> 0 <= y < h ->
      JFPSpec.cell g' (y * w + x) = JFPSpec.new_cell w h g step x y.
Proof.
  intros Hn Hw Hok.
  rewrite pass_rows, worker_rows_fit, jf_rows_coords by done.
  apply jf_pixels_spec; [apply NoDup_coords_yx|done|done].
Qed.

Lemma grids_ext w h g1 g2 :
  0 <= w -> jf_ok w h g1 -> jf_ok w h g2 ->
  (forall x y, 0 <= x < w -> 0 <= y < h ->
     JFPSpec.cell g1 (y * w + x) = JFPSpec.cell g2 (y * w + x)) ->
  g1 = g2.
Proof.
  intros Hw [Hd1 Hn1] [Hd2 Hn2] Hcell.
  assert (forall i, (i < Z.to_nat (w * h))%nat ->
            exists x y, (0 <= x < w /\ 0 <= y < h) /\ Z.of_nat i = y * w + x) as Hidx.
  { intros i Hi. assert (0 < w) as Hw'.
    { destruct (Z.eq_dec w 0) as [->|]; [|lia]. rewrite Z.mul_0_l in Hi. cbn in Hi. lia. }
    assert (Z.of_nat i < w * h) as Hi' by lia.
    exists (Z.of_nat i mod w), (Z.of_nat i / w).
    pose proof (Z.mod_pos_bound (Z.of_nat i) w Hw').
    pose proof (Z.div_mod (Z.of_nat i) w ltac:(lia)).
    pose proof (Z.div_pos (Z.of_nat i) w ltac:(lia) Hw').
    split; [|lia]. split; [done|]. split; [done|].
    apply Z.div_lt_upper_bound; [done|]. nia. }
  destruct g1 as [d1 n1], g2 as [d2 n2]. cbn [JFP.distances JFP.nearest] in *.
  f_equal.
  - apply (list_eq_same_length _ _ (Z.to_nat (w * h))); [lia|lia|].
    intros i a b Hi Ha Hb. destruct (Hidx i Hi) as (x & y & [Hx Hy] & Hxy).
    specialize (Hcell x y Hx Hy). unfold JFPSpec.cell in Hcell. cbn in Hcell.
    injection Hcell as Hcd _. unfold zget in Hcd. rewrite <- Hxy, Nat2Z.id in Hcd.
    rewrite (list_lookup_total_correct _ _ _ Ha) in Hcd.
    by rewrite (list_lookup_total_correct _ _ _ Hb) in Hcd.
  - apply (list_eq_same_length _ _ (Z.to_nat (w * h))); [lia|lia|].
    intros i a b Hi Ha Hb. destruct (Hidx i Hi) as (x & y & [Hx Hy] & Hxy).
    specialize (Hcell x y Hx Hy). unfold JFPSpec.cell in Hcell. cbn in Hcell.
    injection Hcell as _ Hcn. unfold zget in Hcn. rewrite <- Hxy, Nat2Z.id in Hcn.
    rewrite (list_lookup_total_correct _ _ _ Ha) in Hcn.
    by rewrite (list_lookup_total_correct _ _ _ Hb) in Hcn.
Qed.

(** The order in which the pixel bodies of a pass run (which worker
    reaches which pixel first) does not matter: the bodies read only the
    copies and each writes only its own entries. *)
Lemma jf_schedule_irrelevant w h step g (l : list (Z * Z)) :
  0 <= w -> jf_ok w h g -> l ≡ₚ coords_yx w h ->
  JFP.foldM (fun c : Z * Z =>
               JFP.pixel w h (JFP.distances g) (JFP.nearest g) step c.2 c.1) l g
  = JFP.foldM (fun c : Z * Z =>
               JFP.pixel w h (JFP.distances g) (JFP.nearest g) step c.2 c.1)
      (coords_yx w h) g.
Proof.
  intros Hw Hok Hperm.
  destruct (jf_pixels_spec w h step g l) as (g1 & -> & Hok1 & Hc1); [| |done|].
  { rewrite Hperm. apply NoDup_coords_yx. }
  { intros c. by rewrite Hperm. }
  destruct (jf_pixels_spec w h step g (coords_yx w h)) as (g2 & -> & Hok2 & Hc2);
    [apply NoDup_coords_yx|done|done|].
  f_equal. apply (grids_ext w h); try done.
  intros x y Hx Hy. by rewrite Hc1, Hc2.
Qed.

(** ** Setting up and finishing the jump flood *)

Lemma foldl_pair {S1 S2 T} (f1 : S1 -> T -> S1) (f2 : S2 -> T -> S2) (l : list T) s1 s2 :
  foldl (fun (s : S1 * S2) c => (f1 s.1 c, f2 s.2 c)) (s1, s2) l
  = (foldl f1 s1 l, foldl f2 s2 l).
Proof.
  revert s1 s2. induction l as [|a l IH]; intros s1 s2; [done|]. cbn. apply IH.
Qed.

Lemma jf_init_spec w h mask :
  0 <= w -> 0 <= h ->
  jf_ok w h (jf_init_grids w h mask) /\
  forall x y, 0 <= x < w -> 0 <= y < h ->
    JFPSpec.cell (jf_init_grids w h mask) (y * w + x) =
    if zget mask (y * w + x) then (0, JFP.mkPoint x y)
    else (w * w + h * h, JFP.mkPoint (-1) (-1)).
Proof.
  intros Hw Hh. unfold jf_init_grids. rewrite for_range_nest_xy. cbv beta zeta.
  destruct (foldl_pointwise
    (fun (s : JFP.grids) (c : Z * Z) => JFPSpec.cell s (c.2 * w + c.1))
    (jf_ok w h)
    (fun c => 0 <= c.1 < w /\ 0 <= c.2 < h)
    (fun g (c : Z * Z) =>
       if zget mask (c.2 * w + c.1) then
         JFP.mkGrids (zset (JFP.distances g) (c.2 * w + c.1) 0)
                     (zset (JFP.nearest g) (c.2 * w + c.1) (JFP.mkPoint c.1 c.2))
       else
         JFP.mkGrids (zset (JFP.distances g) (c.2 * w + c.1) (w * w + h * h))
                     (zset (JFP.nearest g) (c.2 * w + c.1) (JFP.mkPoint (-1) (-1))))
    (fun c _ => if zget mask (c.2 * w + c.1) then (0, JFP.mkPoint c.1 c.2)
                else (w * w + h * h, JFP.mkPoint (-1) (-1))))
    with (l := coords_xy w h)
         (s := JFP.mkGrids (replicate (Z.to_nat (w * h)) 0)
                           (replicate (Z.to_nat (w * h)) (JFP.mkPoint 0 0)))
    as [Hok Hget].
  - intros s c [Hd Hn] Hc.
    destruct (zget mask _); split; cbn; by rewrite length_zset.
  - intros s [x y] [Hd Hn] [Hx Hy]. cbn [fst snd] in *.
    pose proof (index_bounds w h x y Hx Hy).
    destruct (zget mask _); apply cell_zset_eq; lia.
  - intros s [x y] [x' y'] Hs [Hx Hy] [Hx' Hy'] Hne. cbn [fst snd] in *.
    assert (y * w + x <> y' * w + x').
    { intros Heq. apply index_inj in Heq as [-> ->]; [done|lia|lia]. }
    destruct (zget mask _); apply cell_zset_ne; nia.
  - apply NoDup_coords_xy.
  - apply Forall_forall. intros c Hc. by apply elem_of_coords_xy.
  - split; cbn; rewrite length_replicate; nia.
  - split; [exact Hok|]. intros x y Hx Hy.
    specialize (Hget (x, y)). cbn [fst snd] in Hget. rewrite Hget by lia.
    rewrite decide_True by (apply elem_of_coords_xy; cbn; lia). reflexivity.
Qed.

(** A loop whose body never fails is the plain fold. *)
Lemma foldM_pure {S T} (f : T -> S -> option S) (f' : S -> T -> S) (l : list T) (s : S) :
  (forall a s, a ∈ l -> f a s = Some (f' s a)) ->
  JFP.foldM f l s = Some (foldl f' s l).
Proof.
  revert s. induction l as [|a l IH]; intros s Hf; [reflexivity|].
  cbn [JFP.foldM foldl]. rewrite Hf by left. cbn.
  apply IH. intros b s' Hb. apply Hf. by right.
Qed.

(** With a mask that has an entry for every pixel the initialisation
    returns the grids [jf_init_grids]. *)
Lemma init_Some w h mask :
  0 <= w -> 0 <= h -> w * h <= Z.of_nat (length mask) ->
  JFP.init w h mask = Some (jf_init_grids w h mask).
Proof.
  intros Hw Hh Hlen. unfold JFP.init, jf_init_grids, for_range. cbv zeta.
  rewrite !Z.sub_0_r.
  apply (foldM_pure _ (fun g x => foldl _ g (seqZ 0 h))).
  intros x g Hx%elem_of_seqZ.
  apply (foldM_pure _ (fun g y => _)).
  intros y g' Hy%elem_of_seqZ.
  rewrite zlookup_Some by nia. cbn. by destruct (zget mask (y * w + x)).
Qed.



(** The flood on the mask built by [prepare] starts from
    [jf_init_grids]. *)
Lemma jumpFlood_grids numCpu w h mask :
  0 <= w -> 0 <= h -> w * h <= Z.of_nat (length mask) ->
  JFP.jumpFlood numCpu w h mask =
  r ← JFP.run_passes numCpu w h (jf_init_grids w h mask); Some (JFP.nearest r.1).
Proof.
  intros Hw Hh Hlen. unfold JFP.jumpFlood. by rewrite init_Some.
Qed.

(** The raster and the mask handed to [jumpFlood]. *)
Lemma jf_prepare_spec input :
  let w := Dx input in
  let h := Dy input in
  0 <= w -> 0 <= h ->
  Z.of_nat (length (JFP.prepare input).1) = 4 * (w * h) /\
  Z.of_nat (length (JFP.prepare input).2) = w * h /\
  forall x y, 0 <= x < w -> 0 <= y < h ->
    zget (JFP.prepare input).2 (y * w + x) = (ca (At input x y) =? 65535) /\
    pixel_at (JFP.prepare input).1 (y * w + x) =
      if ca (At input x y) =? 65535 then
        mkRGBA (uint8 (cr (At input x y))) (uint8 (cg (At input x y)))
               (uint8 (cb (At input x y))) 255
      else RGBAModel_Convert (At input x y).
Proof.
  intros w h Hw Hh. unfold JFP.prepare. fold w h.
  rewrite (for_range_nest_yx w h
    (fun x y pix => RGBA_Set w h pix x y (RGBAModel_Convert (At input x y)))).
  destruct (foldl_RGBA_Set w h (fun c => Some (RGBAModel_Convert (At input c.1 c.2)))
              (coords_yx w h) (NewRGBA w h)) as [Hlen0 Hpix0].
  { apply NoDup_coords_yx. }
  { apply Forall_forall. intros c Hc. by apply elem_of_coords_yx. }
  { by apply length_NewRGBA. }
  cbv beta in *. set (out0 := foldl _ (NewRGBA w h) (coords_yx w h)) in *.
  rewrite (for_range_nest_xy w h (fun x y (st : list Z * list bool) =>
    if ca (At input x y) =? 65535 then
      (RGBA_Set w h st.1 x y
         (mkRGBA (uint8 (cr (At input x y))) (uint8 (cg (At input x y)))
                 (uint8 (cb (At input x y))) 255),
       zset st.2 (y * w + x) true)
    else st)).
  set (f1 := fun (pix : list Z) (c : Z * Z) =>
    match (if ca (At input c.1 c.2) =? 65535
           then Some (mkRGBA (uint8 (cr (At input c.1 c.2)))
                             (uint8 (cg (At input c.1 c.2)))
                             (uint8 (cb (At input c.1 c.2))) 255)
           else None) with
    | Some col => RGBA_Set w h pix c.1 c.2 col
    | None => pix
    end).
  set (f2 := fun (m : list bool) (c : Z * Z) =>
    if ca (At input c.1 c.2) =? 65535 then zset m (c.2 * w + c.1) true else m).
  rewrite (foldl_ext_in _ (fun (s : list Z * list bool) (c : Z * Z) =>
                             (f1 s.1 c, f2 s.2 c))).
  2:{ intros [pix m] c _. unfold f1, f2. cbn [fst snd]. destruct (_ =? _); reflexivity. }
  rewrite (foldl_pair f1 f2). cbn [fst snd]. subst f1 f2.
  destruct (foldl_RGBA_Set w h
    (fun c => if ca (At input c.1 c.2) =? 65535
              then Some (mkRGBA (uint8 (cr (At input c.1 c.2)))
                                (uint8 (cg (At input c.1 c.2)))
                                (uint8 (cb (At input c.1 c.2))) 255)
              else None)
    (coords_xy w h) out0) as [Hlen1 Hpix1].
  { apply NoDup_coords_xy. }
  { apply Forall_forall. intros c Hc. by apply elem_of_coords_xy. }
  { done. }
  cbv beta zeta in Hlen1, Hpix1.
  destruct (foldl_pointwise
    (fun (m : list bool) (c : Z * Z) => zget m (c.2 * w + c.1))
    (fun m => Z.of_nat (length m) = w * h)
    (fun c => 0 <= c.1 < w /\ 0 <= c.2 < h)
    (fun (m : list bool) (c : Z * Z) =>
       if ca (At input c.1 c.2) =? 65535 then zset m (c.2 * w + c.1) true else m)
    (fun c v => if ca (At input c.1 c.2) =? 65535 then true else v))
    with (l := coords_xy w h) (s := replicate (Z.to_nat (w * h)) false)
    as [Hlenm Hm].
  - intros m c Hm Hc. destruct (_ =? _); [by rewrite length_zset|done].
  - intros m [x y] Hm [Hx Hy]. cbn [fst snd] in *.
    pose proof (index_bounds w h x y Hx Hy).
    destruct (_ =? _); [apply zget_zset_eq; lia|done].
  - intros m [x y] [x' y'] Hm [Hx Hy] [Hx' Hy'] Hne. cbn [fst snd] in *.
    destruct (_ =? _); [|done]. apply zget_zset_ne; [nia|nia|].
    intros Heq. apply index_inj in Heq as [-> ->]; [done|lia|lia].
  - apply NoDup_coords_xy.
  - apply Forall_forall. intros c Hc. by apply elem_of_coords_xy.
  - rewrite length_replicate. nia.
  - split; [exact Hlen1|]. split; [exact Hlenm|]. intros x y Hx Hy.
    assert ((x, y) ∈ coords_xy w h) as Hc by (apply elem_of_coords_xy; cbn; lia).
    split.
    + specialize (Hm (x, y)). cbn [fst snd] in Hm. rewrite Hm by lia.
      rewrite decide_True by done.
      destruct (_ =? _); [done|].
      unfold zget. apply lookup_total_replicate_2.
      pose proof (index_bounds w h x y Hx Hy). lia.
    + rewrite Hpix1 by done. rewrite decide_True by done. cbn [fst snd].
      destruct (_ =? _); cbn [default]; [done|].
      rewrite Hpix0 by done.
      rewrite decide_True by (apply elem_of_coords_yx; cbn; lia). reflexivity.
Qed.

Lemma jumpFlood_prepare numCpu input :
  0 <= Dx input -> 0 <= Dy input ->
  JFP.jumpFlood numCpu (Dx input) (Dy input) (JFP.prepare input).2 =
  r ← JFP.run_passes numCpu (Dx input) (Dy input)
        (jf_init_grids (Dx input) (Dy input) (JFP.prepare input).2);
  Some (JFP.nearest r.1).
Proof.
  intros Hw Hh. apply jumpFlood_grids; [done|done|].
  destruct (jf_prepare_spec input Hw Hh) as (_ & Hlen & _). lia.
Qed.

Lemma jf_finalize_spec input nearest out :
  let w := Dx input in
  let h := Dy input in
  Z.of_nat (length out) = 4 * (w * h) ->
  Z.of_nat (length (JFP.finalize input nearest out)) = 4 * (w * h) /\
  forall x y, 0 <= x < w -> 0 <= y < h ->
    pixel_at (JFP.finalize input nearest out) (y * w + x) =
    if ca (At input x y) =? 65535 then pixel_at out (y * w + x)
    else if JFP.resolved (zget nearest (y * w + x))
         then fill_from input (zget nearest (y * w + x))
         else mkRGBA 0 0 0 0.
Proof.
  intros w h Hlen. unfold JFP.finalize. fold w h.
  rewrite for_range_nest_xy. cbv beta zeta.
  rewrite (foldl_ext_in _ (fun (pix : list Z) (c : Z * Z) =>
    match (if ca (At input c.1 c.2) =? 65535 then None
           else if JFP.resolved (zget nearest (c.2 * w + c.1))
                then Some (fill_from input (zget nearest (c.2 * w + c.1)))
                else Some (mkRGBA 0 0 0 0)) with
    | Some col => RGBA_Set w h pix c.1 c.2 col
    | None => pix
    end)).
  2:{ intros pix c _. destruct (_ =? _); [done|]. destruct (JFP.resolved _); done. }
  destruct (foldl_RGBA_Set w h
    (fun c => if ca (At input c.1 c.2) =? 65535 then None
              else if JFP.resolved (zget nearest (c.2 * w + c.1))
                   then Some (fill_from input (zget nearest (c.2 * w + c.1)))
                   else Some (mkRGBA 0 0 0 0))
    (coords_xy w h) out) as [Hlen' Hpix].
  { apply NoDup_coords_xy. }
  { apply Forall_forall. intros c Hc. by apply elem_of_coords_xy. }
  { done. }
  split; [exact Hlen'|]. intros x y Hx Hy.
  rewrite Hpix by done.
  rewrite decide_True by (apply elem_of_coords_xy; cbn; lia). cbn [fst snd].
  destruct (_ =? _); [done|]. destruct (JFP.resolved _); done.
Qed.

(** ** The pass loop of [jumpFlood] *)

Lemma run_passes_foldM numCpu w h (l : list Z) g k :
  JFP.foldM (fun step '(g, n) => g' ← JFP.pass numCpu w h step g; Some (g', n + 1))
            l (g, k)
  = g' ← JFP.foldM (JFP.pass numCpu w h) l g; Some (g', k + Z.of_nat (length l)).
Proof.
  revert g k. induction l as [|step l IH]; intros g k.
  - cbn. do 2 f_equal. lia.
  - cbn [JFP.foldM]. destruct (JFP.pass numCpu w h step g) as [g1|]; cbn; [|done].
    rewrite IH. destruct (JFP.foldM _ l g1); cbn; [|done]. do 2 f_equal. lia.
Qed.

(** The loop [for step := 1; step < maxSteps; step++] runs
    [maxSteps - 1] passes (none when [maxSteps] is 0). *)
Lemma run_passes_spec numCpu w h g :
  JFP.run_passes numCpu w h g =
  g' ← JFP.foldM (JFP.pass numCpu w h) (seqZ 1 (JFP.maxSteps w h - 1)) g;
  Some (g', Z.max 0 (JFP.maxSteps w h - 1)).
Proof.
  unfold JFP.run_passes. rewrite run_passes_foldM, length_seqZ.
  destruct (JFP.foldM _ _ g); cbn; [|done]. do 2 f_equal. lia.
Qed.

Lemma pass_count_spec numCpu w h mask k :
  JFP.pass_count numCpu w h mask = Some k ->
  k = Z.max 0 (2 * Z.log2_up (Z.max w h) - 1).
Proof.
  unfold JFP.pass_count. destruct (JFP.init w h mask) as [g0|]; cbn; [|done].
  rewrite run_passes_spec.
  destruct (JFP.foldM _ _ _); cbn; [|done]. intros [= <-].
  unfold JFP.maxSteps. lia.
Qed.

(** ** C10: sources are opaque pixels of the input *)

(** Scanning the neighbours either keeps the entries or takes a strictly
    closer source proposed by a neighbour inside the raster. *)
Lemma scan_fold_cases w h nC x y l acc :
  let r := foldl (JFPSpec.scan w h nC x y) acc l in
  r = acc \/
  exists n, In n l /\ in_rect w h (x + n.1) (y + n.2) = true /\
    let p := zget nC ((y + n.2) * w + (x + n.1)) in
    JFP.resolved p = true /\
    r = ((x - JFP.px p) * (x - JFP.px p) + (y - JFP.py p) * (y - JFP.py p),
         ((x - JFP.px p) * (x - JFP.px p) + (y - JFP.py p) * (y - JFP.py p), p)) /\
    r.1 < acc.1.
Proof.
  revert acc. induction l as [|n l IH]; intros acc; cbn [foldl]; [by left|].
  assert (JFPSpec.scan w h nC x y acc n = acc \/
          (in_rect w h (x + n.1) (y + n.2) = true /\
           let p := zget nC ((y + n.2) * w + (x + n.1)) in
           JFP.resolved p = true /\
           JFPSpec.scan w h nC x y acc n =
             ((x - JFP.px p) * (x - JFP.px p) + (y - JFP.py p) * (y - JFP.py p),
              ((x - JFP.px p) * (x - JFP.px p) + (y - JFP.py p) * (y - JFP.py p), p)) /\
           (JFPSpec.scan w h nC x y acc n).1 < acc.1)) as Hstep.
  { unfold JFPSpec.scan.
    destruct (in_rect w h (x + n.1) (y + n.2)); [|by left].
    cbv zeta. destruct (JFP.resolved _); [|by left].
    destruct (Z.ltb_spec
      ((x - JFP.px (zget nC ((y + n.2) * w + (x + n.1)))) *
       (x - JFP.px (zget nC ((y + n.2) * w + (x + n.1)))) +
       (y - JFP.py (zget nC ((y + n.2) * w + (x + n.1)))) *
       (y - JFP.py (zget nC ((y + n.2) * w + (x + n.1))))) acc.1); [|by left].
    right. cbn [fst]. done. }
  specialize (IH (JFPSpec.scan w h nC x y acc n)). cbv zeta in IH, Hstep.
  destruct IH as [IH|(m & Hm & Hin & Hres & Hr & Hlt)].
  - rewrite IH. destruct Hstep as [->|(Hin & Hres & Hr & Hlt)]; [by left|].
    right. exists n. split; [by left|]. done.
  - right. exists m. split; [by right|]. split; [done|]. split; [done|].
    split; [done|]. destruct Hstep as [Hs|(_ & _ & _ & Hlt')]; [|lia].
    rewrite Hs in Hlt |- *. exact Hlt.
Qed.

Lemma jf_init_inv input :
  0 <= Dx input -> 0 <= Dy input ->
  jf_inv input (jf_init_grids (Dx input) (Dy input) (JFP.prepare input).2).
Proof.
  intros Hw Hh.
  destruct (jf_init_spec (Dx input) (Dy input) (JFP.prepare input).2 Hw Hh) as [Hok Hcell].
  destruct (jf_prepare_spec input Hw Hh) as (_ & _ & Hmask).
  split; [done|]. intros x y Hx Hy. cbv zeta.
  rewrite Hcell by done. destruct (Hmask x y Hx Hy) as [-> _].
  destruct (Z.eqb_spec (ca (At input x y)) 65535) as [Ha|Ha].
  - split; [done|]. intros _. cbn. done.
  - split; [done|]. cbn. done.
Qed.

Lemma jf_pass_inv numCpu input step g g' :
  1 <= numCpu -> 1 <= Dx input -> 1 <= Dy input ->
  jf_inv input g -> JFP.pass numCpu (Dx input) (Dy input) step g = Some g' ->
  jf_inv input g'.
Proof.
  intros Hn Hw Hh [Hok Hinv] Hpass.
  destruct (Z_le_gt_dec numCpu (Dy input + 1)) as [Hfit|Hover].
  2:{ rewrite pass_overflow in Hpass by (done || lia). done. }
  destruct (jf_pass_spec numCpu (Dx input) (Dy input) step g) as (g'' & Hrun & Hok' & Hcell);
    [lia|lia|done|].
  rewrite Hrun in Hpass. injection Hpass as ->.
  split; [done|]. intros x y Hx Hy. cbv zeta.
  rewrite Hcell by done. unfold JFPSpec.new_cell.
  destruct (Hinv x y Hx Hy) as [Hopq Hres]. cbv zeta in Hopq, Hres.
  destruct (scan_fold_cases (Dx input) (Dy input) (JFP.nearest g) x y (JFP.neighbours step)
              (zget (JFP.distances g) (y * Dx input + x),
               JFPSpec.cell g (y * Dx input + x)))
    as [->|(n & _ & Hin & Hp & -> & Hlt)]; cbn [fst snd] in *; [done|].
  apply in_rect_spec in Hin as [Hnx Hny].
  destruct (Hinv _ _ Hnx Hny) as [_ Hnres]. cbv zeta in Hnres.
  unfold JFPSpec.cell in Hnres. cbn [snd] in Hnres.
  split; [|intros _; by apply Hnres].
  intros Ha. specialize (Hopq Ha). unfold JFPSpec.cell in Hopq.
  injection Hopq as Hd0 _. rewrite Hd0 in Hlt.
  match type of Hlt with
  | ?a * ?a + ?b * ?b < 0 =>
      pose proof (Z.square_nonneg a); pose proof (Z.square_nonneg b); lia
  end.
Qed.

Lemma jf_passes_inv numCpu input steps g g' :
  1 <= numCpu -> 1 <= Dx input -> 1 <= Dy input ->
  jf_inv input g ->
  JFP.foldM (JFP.pass numCpu (Dx input) (Dy input)) steps g = Some g' ->
  jf_inv input g'.
Proof.
  intros Hn Hw Hh Hinv Hrun.
  apply (foldM_inv (jf_inv input) (JFP.pass numCpu (Dx input) (Dy input)) steps g g');
    [|done|done].
  intros step s s' _ Hs Hpass. by apply (jf_pass_inv numCpu input step s s').
Qed.

(** C10.  On a non-empty raster, whatever the number of workers: the
    grids are built from the mask of [prepare], and after
    any sequence of passes that completes, an opaque pixel of the input
    is its own nearest source at distance 0 and every resolved entry of
    the nearest-source grid names an opaque pixel inside the raster; and
    in the image [process_paint_net_alg] returns, every pixel that was
    not opaque is either zero or the colour (high bytes, alpha 255) of an
    opaque pixel of the input. *)
Theorem jf_sources_opaque numCpu input :
  1 <= numCpu -> 1 <= Dx input -> 1 <= Dy input ->
  (exists g0,
     JFP.init (Dx input) (Dy input) (JFP.prepare input).2 = Some g0 /\
     forall steps g,
       JFP.foldM (JFP.pass numCpu (Dx input) (Dy input)) steps g0 = Some g ->
       jf_inv input g) /\
  (forall out, JFP.process_paint_net_alg numCpu input = Some out ->
     forall x y, 0 <= x < Dx input -> 0 <= y < Dy input ->
       ca (At input x y) <> 65535 ->
       RGBA_At (Dx input) (Dy input) out x y = mkRGBA 0 0 0 0 \/
       exists sx sy, (0 <= sx < Dx input /\ 0 <= sy < Dy input) /\
         ca (At input sx sy) = 65535 /\
         RGBA_At (Dx input) (Dy input) out x y = fill_from input (JFP.mkPoint sx sy)).
Proof.
  intros Hn Hw Hh. split.
  - exists (jf_init_grids (Dx input) (Dy input) (JFP.prepare input).2). split.
    + apply init_Some; [lia|lia|].
      destruct (jf_prepare_spec input ltac:(lia) ltac:(lia)) as (_ & Hlen & _). lia.
    + intros steps g Hrun.
      apply (jf_passes_inv numCpu input steps
               (jf_init_grids (Dx input) (Dy input) (JFP.prepare input).2) g); try done.
      apply jf_init_inv; lia.
  - intros out Hrun x y Hx Hy Ha. unfold JFP.process_paint_net_alg in Hrun.
    destruct (jf_prepare_spec input ltac:(lia) ltac:(lia)) as (Hlen & Hmask & _).
    destruct (JFP.prepare input) as [out0 mask] eqn:Hprep. cbn [fst snd] in *.
    rewrite jumpFlood_grids in Hrun by lia. rewrite run_passes_spec in Hrun.
    destruct (JFP.foldM _ _ _) as [g|] eqn:Hpasses; cbn in Hrun; [|done].
    injection Hrun as <-.
    assert (jf_inv input g) as [_ Hinv].
    { apply (jf_passes_inv numCpu input _ _ g Hn Hw Hh) in Hpasses; [done|].
      replace mask with (JFP.prepare input).2 by (by rewrite Hprep).
      apply jf_init_inv; lia. }
    destruct (jf_finalize_spec input (JFP.nearest g) out0 Hlen) as [_ Hpix].
    rewrite RGBA_At_pixel, Hpix by done.
    rewrite (proj2 (Z.eqb_neq _ _) Ha).
    destruct (JFP.resolved _) eqn:Hres; [right|by left].
    destruct (Hinv x y Hx Hy) as [_ Hsrc]. cbv zeta in Hsrc.
    unfold JFPSpec.cell in Hsrc. cbn [snd] in Hsrc.
    destruct (Hsrc Hres) as [Hb Hopq].
    destruct (zget (JFP.nearest g) (y * Dx input + x)) as [sx sy]. cbn in *.
    exists sx, sy. done.
Qed.

(** On [red_cross] with two workers the centre is filled from an opaque
    pixel. *)
Lemma jf_sources_opaque_witness :
  1 <= 2 /\ 1 <= Dx red_cross /\ 1 <= Dy red_cross /\
  JFP.process_paint_net_alg 2 red_cross
    = Some (default [] (JFP.process_paint_net_alg 2 red_cross)) /\
  (RGBA_At 3 3 (default [] (JFP.process_paint_net_alg 2 red_cross)) 1 1 = mkRGBA 0 0 0 0 \/
   exists sx sy, (0 <= sx < 3 /\ 0 <= sy < 3) /\
     ca (At red_cross sx sy) = 65535 /\
     RGBA_At 3 3 (default [] (JFP.process_paint_net_alg 2 red_cross)) 1 1
       = fill_from red_cross (JFP.mkPoint sx sy)).
Proof.
  split; [lia|]. split; [by compute|]. split; [by compute|].
  split; [vm_compute; reflexivity|].
  apply (proj2 (jf_sources_opaque 2 red_cross ltac:(lia) ltac:(by compute)
                  ltac:(by compute)));
    [vm_compute; reflexivity|by compute|by compute|by compute].
Defined.

(** ** Worker counts *)

Lemma chunk_in_range numCpu height i :
  1 <= numCpu <= height + 1 -> 0 <= i < numCpu ->
  0 <= (JFP.chunk numCpu height i).1 <= (JFP.chunk numCpu height i).2 /\
  (JFP.chunk numCpu height i).2 <= height.
Proof.
  intros Hn Hi. unfold JFP.chunk. cbn [fst snd].
  pose proof (chunk_fits numCpu height Hn) as Hfit.
  pose proof (chunk_size_pos numCpu height ltac:(lia) ltac:(lia)) as Hpos.
  set (c := if height / numCpu =? 0 then 1 else height / numCpu) in *.
  destruct (Z.eqb_spec i (numCpu - 1)) as [->|Hne]; nia.
Qed.

(** With at most [height + 1] workers a pass does not depend on the
    number of workers. *)
Lemma pass_workers_irrelevant numCpu w h step g :
  1 <= numCpu <= h + 1 -> JFP.pass numCpu w h step g = JFP.pass 1 w h step g.
Proof.
  intros Hn. rewrite !pass_rows, !worker_rows_fit by lia. reflexivity.
Qed.

Lemma process_workers_irrelevant numCpu input :
  1 <= numCpu <= Dy input + 1 ->
  JFP.process_paint_net_alg numCpu input = JFP.process_paint_net_alg 1 input.
Proof.
  intros Hn. unfold JFP.process_paint_net_alg, JFP.jumpFlood.
  destruct (JFP.prepare input) as [out mask].
  destruct (JFP.init (Dx input) (Dy input) mask) as [g0|]; [|reflexivity].
  cbn [mbind option_bind]. rewrite !run_passes_spec.
  rewrite (foldM_ext_in (JFP.pass numCpu (Dx input) (Dy input))
             (JFP.pass 1 (Dx input) (Dy input))); [reflexivity|].
  intros step g _. by apply pass_workers_irrelevant.
Qed.

(** [process_paint_net_alg] from the grids its mask gives. *)
Lemma process_unfold numCpu input :
  0 <= Dx input -> 0 <= Dy input ->
  JFP.process_paint_net_alg numCpu input =
  r ← JFP.run_passes numCpu (Dx input) (Dy input)
        (jf_init_grids (Dx input) (Dy input) (JFP.prepare input).2);
  Some (JFP.finalize input (JFP.nearest r.1) (JFP.prepare input).1).
Proof.
  intros Hw Hh. unfold JFP.process_paint_net_alg.
  pose proof (jumpFlood_prepare numCpu input Hw Hh) as Hjf.
  destruct (JFP.prepare input) as [out mask]. cbn [fst snd] in *.
  rewrite Hjf. by destruct (JFP.run_passes _ _ _ _).
Qed.

Lemma jf_passes_total numCpu w h steps g :
  1 <= numCpu <= h + 1 -> 0 <= w -> jf_ok w h g ->
  exists g', JFP.foldM (JFP.pass numCpu w h) steps g = Some g' /\ jf_ok w h g'.
Proof.
  intros Hn Hw. revert g. induction steps as [|step steps IH]; intros g Hok.
  - exists g. done.
  - cbn [JFP.foldM].
    destruct (jf_pass_spec numCpu w h step g Hn Hw Hok) as (g1 & -> & Hok1 & _).
    cbn. by apply IH.
Qed.

(** With at most [height + 1] workers [process_paint_net_alg] returns an
    image. *)
Lemma process_total numCpu input :
  1 <= numCpu <= Dy input + 1 -> 0 <= Dx input ->
  exists out, JFP.process_paint_net_alg numCpu input = Some out.
Proof.
  intros Hn Hw. rewrite process_unfold by lia.
  rewrite run_passes_spec.
  destruct (jf_passes_total numCpu (Dx input) (Dy input)
              (seqZ 1 (JFP.maxSteps (Dx input) (Dy input) - 1))
              (jf_init_grids (Dx input) (Dy input) (JFP.prepare input).2) Hn Hw)
    as (g & -> & _).
  { apply jf_init_spec; lia. }
  cbn. by eexists.
Qed.

(** With two more workers than rows, on a raster with a pixel and at
    least two pixels along one side, the first pass indexes past the end
    of the grids. *)
Lemma process_overflow numCpu input :
  Dy input + 2 <= numCpu -> 1 <= Dx input -> 1 <= Dy input ->
  2 <= Z.max (Dx input) (Dy input) ->
  JFP.process_paint_net_alg numCpu input = None.
Proof.
  intros Hn Hw Hh Hmax. rewrite process_unfold by lia.
  rewrite run_passes_spec.
  assert (1 <= Z.log2_up (Z.max (Dx input) (Dy input))) as Hlog.
  { change 1 with (Z.log2_up 2). by apply Z.log2_up_le_mono. }
  unfold JFP.maxSteps. rewrite seqZ_cons by lia. cbn [JFP.foldM].
  rewrite pass_overflow; [done|lia|lia|lia|].
  apply jf_init_spec; lia.
Qed.

(** ** C2, C3, C4, C6, C7, C9: inputs on which the code departs *)

(** C4 (violated by the code).  For a 2 by 1 raster and four workers the
    ranges handed out are [0,1), [1,2), [2,3) and [3,1): the second and
    third lie outside the raster, and the pass indexes the grids out of
    range. *)
Theorem jf_chunks_overrun :
  map (JFP.chunk 4 1) (seqZ 0 4) = [(0, 1); (1, 2); (2, 3); (3, 1)] /\
  JFP.processJumpFlood 2 1 [0; 5] [JFP.mkPoint 0 0; JFP.mkPoint (-1) (-1)]
    (JFP.mkGrids [0; 5] [JFP.mkPoint 0 0; JFP.mkPoint (-1) (-1)]) 1 1 2 = None /\
  JFP.jumpFlood 4 2 1 (JFP.prepare two_pixels).2 = None.
Proof. repeat split; reflexivity. Qed.

(** C6 (violated by the code).  On the 2 by 1 raster [two_pixels] one
    worker produces an image and four workers produce none. *)
Theorem jf_workers_change_outcome :
  JFP.process_paint_net_alg 1 two_pixels = Some [1; 2; 3; 255; 1; 2; 3; 255] /\
  JFP.process_paint_net_alg 4 two_pixels = None.
Proof. split; reflexivity. Qed.

(** C3 (violated by the code).  On a 2 by 2 raster the formula gives
    2 * ceil(log2 2) = 2 and the loop runs one pass. *)
Theorem jf_one_pass_on_2x2 :
  JFP.maxSteps 2 2 = 2 /\
  JFP.pass_count 1 2 2 (JFP.prepare small_square).2 = Some 1.
Proof. split; reflexivity. Qed.

(** C2 (violated by the code).  [far_row] has an opaque pixel, yet with
    one worker the entry of its last pixel is still the sentinel after
    the thirteen passes and the pixel is written with zero alpha. *)
Theorem jf_far_pixel_stays_transparent :
  ca (At far_row 0 0) = 65535 /\
  JFP.pass_count 1 93 1 (JFP.prepare far_row).2 = Some 13 /\
  exists nearest out,
    JFP.jumpFlood 1 93 1 (JFP.prepare far_row).2 = Some nearest /\
    zget nearest 92 = JFP.mkPoint (-1) (-1) /\
    JFP.process_paint_net_alg 1 far_row = Some out /\
    RGBA_At 93 1 out 92 0 = mkRGBA 0 0 0 0.
Proof.
  split; [reflexivity|]. split; [vm_compute; reflexivity|].
  exists (default [] (JFP.jumpFlood 1 93 1 (JFP.prepare far_row).2)),
         (default [] (JFP.process_paint_net_alg 1 far_row)).
  repeat split; vm_compute; reflexivity.
Qed.

(** C7 (violated by the code).  The opaque pixel of [deep_pixel] has red
    0x1200, which is 0x12 as an 8-bit colour (what the first loop stores
    and what the averaging engine returns); the jump-flood engine
    returns red 0x00 for it. *)
Theorem jf_opaque_pixel_changes :
  ca (At deep_pixel 0 0) = 65535 /\
  RGBAModel_Convert (At deep_pixel 0 0) = mkRGBA 18 0 0 255 /\
  IA.output <$> IA.process_gimp_alg 0 deep_pixel = Some [18; 0; 0; 255] /\
  JFP.process_paint_net_alg 1 deep_pixel = Some [0; 0; 0; 255].
Proof. repeat split; reflexivity. Qed.

(** [red_ring] is a raster of the kind C9 is about: its centre is the
    only pixel that is not opaque and the eight pixels around it are all
    pure red. *)
Example red_ring_single_hole : single_hole red_ring 1 1 (mkRGBA 255 0 0 255).
Proof.
  assert (forall x y, 0 <= x < 3 -> 0 <= y < 3 ->
            (x = 0 \/ x = 1 \/ x = 2) /\ (y = 0 \/ y = 1 \/ y = 2)) as Hxy by lia.
  split; [cbn; lia|]. split; [cbn; lia|]. split; [vm_compute; discriminate|]. split.
  - intros x y Hx Hy Hne.
    destruct (Hxy x y Hx Hy) as [[-> | [-> | ->]] [-> | [-> | ->]]];
      first [reflexivity | exfalso; apply Hne; reflexivity].
  - intros x y Hx Hy (_ & _ & Hne).
    destruct (Hxy x y Hx Hy) as [[-> | [-> | ->]] [-> | [-> | ->]]];
      first [reflexivity | exfalso; apply Hne; reflexivity].
Qed.

(** C9 (violated by the code).  On [red_ring], a single transparent
    pixel surrounded by eight pure red opaque pixels, the averaging
    engine fills the centre with (255, 0, 0, 255); so does the
    jump-flood engine with one worker, but with five workers it stops on
    an out-of-range index and produces no fill colour at all. *)
Theorem jf_no_fill_with_five_workers :
  single_hole red_ring 1 1 (mkRGBA 255 0 0 255) /\
  (fun st => RGBA_At 3 3 (IA.output st) 1 1) <$> IA.process_gimp_alg 1 red_ring
    = Some (mkRGBA 255 0 0 255) /\
  (fun out => RGBA_At 3 3 out 1 1) <$> JFP.process_paint_net_alg 1 red_ring
    = Some (mkRGBA 255 0 0 255) /\
  JFP.process_paint_net_alg 5 red_ring = None.
Proof. split; [exact red_ring_single_hole|]. repeat split; reflexivity. Qed.

(** ** What the jump-flood engine returns *)

(** Every pixel of the returned image: an opaque input pixel carries the
    low bytes of its channels, any other pixel the colour of its resolved
    source or zero. *)
Lemma process_paint_net_alg_pixels numCpu input out :
  0 <= Dx input -> 0 <= Dy input ->
  JFP.process_paint_net_alg numCpu input = Some out ->
  exists nearest,
    JFP.jumpFlood numCpu (Dx input) (Dy input) (JFP.prepare input).2 = Some nearest /\
    forall x y, 0 <= x < Dx input -> 0 <= y < Dy input ->
      RGBA_At (Dx input) (Dy input) out x y =
      if ca (At input x y) =? 65535 then
        mkRGBA (uint8 (cr (At input x y))) (uint8 (cg (At input x y)))
               (uint8 (cb (At input x y))) 255
      else if JFP.resolved (zget nearest (y * Dx input + x))
           then fill_from input (zget nearest (y * Dx input + x))
           else mkRGBA 0 0 0 0.
Proof.
  intros Hw Hh Hrun. unfold JFP.process_paint_net_alg in Hrun.
  destruct (jf_prepare_spec input Hw Hh) as (Hlen & _ & Hprep).
  destruct (JFP.prepare input) as [out0 mask]. cbn [fst snd] in *.
  destruct (JFP.jumpFlood _ _ _ _) as [nearest|]; cbn in Hrun; [|done].
  injection Hrun as <-. exists nearest. split; [done|]. intros x y Hx Hy.
  destruct (jf_finalize_spec input nearest out0 Hlen) as [_ Hpix].
  rewrite RGBA_At_pixel, Hpix by done.
  destruct (Hprep x y Hx Hy) as [_ ->]. destruct (_ =? _); reflexivity.
Qed.

Lemma uint8_widened v : 0 <= v < 256 -> uint8 (v * 257) = uint8 (Z.shiftr (v * 257) 8).
Proof.
  intros Hv. unfold uint8. rewrite Z.shiftr_div_pow2 by lia. change (2 ^ 8) with 256.
  replace (v * 257) with (v + v * 256) by lia.
  rewrite Z.div_add, Z.mod_add by lia. rewrite Z.div_small by lia. reflexivity.
Qed.

(** For an image with 8-bit channels (each [RGBA()] value is a byte
    times 0x101) the opaque pixels keep their colour. *)
Lemma process_paint_net_alg_keeps_8bit numCpu input out x y r g b :
  0 <= Dx input -> 0 <= Dy input ->
  JFP.process_paint_net_alg numCpu input = Some out ->
  0 <= x < Dx input -> 0 <= y < Dy input ->
  0 <= r < 256 -> 0 <= g < 256 -> 0 <= b < 256 ->
  At input x y = mkColor (r * 257) (g * 257) (b * 257) 65535 ->
  RGBA_At (Dx input) (Dy input) out x y = RGBAModel_Convert (At input x y).
Proof.
  intros Hw Hh Hrun Hx Hy Hr Hg Hb Hat.
  destruct (process_paint_net_alg_pixels numCpu input out Hw Hh Hrun) as (nearest & _ & Hpix).
  rewrite Hpix, Hat by done. cbn [ca cr cg cb Z.eqb Pos.eqb].
  unfold RGBAModel_Convert. cbn [ca cr cg cb].
  rewrite !uint8_widened by done. reflexivity.
Qed.

(** On a raster without an opaque pixel nothing is ever resolved: with
    at most [height + 1] workers the engine returns the all-zero image. *)
Lemma process_paint_net_alg_no_opaque numCpu input :
  1 <= numCpu <= Dy input + 1 -> 0 <= Dx input ->
  (forall x y, 0 <= x < Dx input -> 0 <= y < Dy input -> ca (At input x y) <> 65535) ->
  exists out, JFP.process_paint_net_alg numCpu input = Some out /\
    forall x y, 0 <= x < Dx input -> 0 <= y < Dy input ->
      RGBA_At (Dx input) (Dy input) out x y = mkRGBA 0 0 0 0.
Proof.
  intros Hn Hw Hclear.
  destruct (process_total numCpu input Hn Hw) as [out Hrun].
  exists out. split; [done|]. intros x y Hx Hy.
  destruct (process_paint_net_alg_pixels numCpu input out Hw ltac:(lia) Hrun)
    as (nearest & Hjf & Hpix).
  rewrite Hpix by done. rewrite (proj2 (Z.eqb_neq _ _) (Hclear x y Hx Hy)).
  destruct (JFP.resolved _) eqn:Hres; [|done]. exfalso.
  rewrite jumpFlood_prepare in Hjf by lia. rewrite run_passes_spec in Hjf.
  destruct (JFP.foldM _ _ _) as [g|] eqn:Hpasses; cbn in Hjf; [|done].
  injection Hjf as <-.
  destruct (Z_le_gt_dec 1 (Dx input)) as [Hw1|]; [|lia].
  apply (jf_passes_inv numCpu input _ _ g ltac:(lia) Hw1 ltac:(lia)) in Hpasses as [_ Hinv];
    [|apply jf_init_inv; lia].
  destruct (Hinv x y Hx Hy) as [_ Hsrc]. cbv zeta in Hsrc.
  unfold JFPSpec.cell in Hsrc. cbn [snd] in Hsrc.
  destruct (Hsrc Hres) as [[Hsx Hsy] Hopq]. by apply (Hclear _ _ Hsx Hsy).
Qed.

(** ** What the averaging engine keeps *)

Lemma ia_opaque_kept input n x y :
  0 <= x < Dx input -> 0 <= y < Dy input ->
  A (RGBAModel_Convert (At input x y)) = 255 ->
  RGBA_At (Dx input) (Dy input) (IA.output (ia_after input n)) x y
  = RGBAModel_Convert (At input x y).
Proof.
  intros Hx Hy Ha. induction n as [|n IH].
  - change (ia_after input 0) with (IA.init input).
    destruct (ia_init_spec input ltac:(lia) ltac:(lia)) as (_ & Hpix & _). by apply Hpix.
  - change (ia_after input (S n))
      with (IA.pass (Dx input) (Dy input) (ia_after input n)).
    destruct (ia_after_inv input n ltac:(lia) ltac:(lia)) as [Hwf _].
    destruct (ia_pass_step (Dx input) (Dy input) (ia_after input n)
                ltac:(lia) ltac:(lia) Hwf) as (Hpix & _).
    rewrite Hpix by done. unfold IASpec.step_pixel, IASpec.filled. cbn [fst snd].
    rewrite IH, Ha. reflexivity.
Qed.

(** Whenever the averaging engine returns, every pixel that was fully
    opaque on entry has kept its colour and every pixel is fully opaque. *)
Lemma process_gimp_alg_result input fuel st :
  ia_opaque_pixels input <> [] ->
  IA.process_gimp_alg fuel input = Some st ->
  forall x y, 0 <= x < Dx input -> 0 <= y < Dy input ->
    A (RGBA_At (Dx input) (Dy input) (IA.output st) x y) = 255 /\
    (A (RGBAModel_Convert (At input x y)) = 255 ->
     RGBA_At (Dx input) (Dy input) (IA.output st) x y = RGBAModel_Convert (At input x y)).
Proof.
  intros Hne Hrun x y Hx Hy.
  assert (exists n, st = ia_after input n /\ IA.remaining st <= 0) as (n & -> & Hrem).
  { unfold IA.process_gimp_alg in Hrun. unfold ia_after.
    generalize dependent (IA.init input). clear. intros s.
    revert s. induction fuel as [|fuel IH]; intros s Hrun; cbn in Hrun.
    - destruct (Z.ltb_spec 0 (IA.remaining s)); [done|]. injection Hrun as <-.
      exists 0%nat. done.
    - destruct (Z.ltb_spec 0 (IA.remaining s)).
      + destruct (IH _ Hrun) as (n & -> & Hrem). exists (S n).
        rewrite Nat.iter_succ_r. done.
      + injection Hrun as <-. exists 0%nat. done. }
  split; [|by apply ia_opaque_kept].
  destruct (Z.eq_dec (A (RGBA_At (Dx input) (Dy input) (IA.output (ia_after input n)) x y)) 255)
    as [|Hna]; [done|]. exfalso.
  assert (0 < IA.remaining (ia_after input n)); [|lia].
  apply ia_remaining_pos; [lia|lia|]. exists x, y. split; [done|].
  by rewrite <- ia_after_opaque.
Qed.

(** ** Rasters with a single hole: the two engines agree *)

Lemma convert_opaque c : ca c = 65535 -> A (RGBAModel_Convert c) = 255.
Proof. intros Ha. unfold RGBAModel_Convert. cbn [A]. rewrite Ha. reflexivity. Qed.

Lemma convert_fill input p :
  ca (At input (JFP.px p) (JFP.py p)) = 65535 ->
  fill_from input p = RGBAModel_Convert (At input (JFP.px p) (JFP.py p)).
Proof.
  intros Ha. unfold fill_from, RGBAModel_Convert. cbv zeta. rewrite Ha. reflexivity.
Qed.

(** A pixel next to the hole along a row or a column, inside the
    raster. *)
Lemma single_hole_neighbour input hx hy col :
  single_hole input hx hy col ->
  exists n, In n IA.neighbours /\
    0 <= hx + n.1 < Dx input /\ 0 <= hy + n.2 < Dy input.
Proof.
  intros ([Hx Hy] & Hmax & _).
  destruct (Z_le_gt_dec 2 (Dx input)) as [Hw|Hw].
  - destruct (Z.eq_dec hx 0) as [->|].
    + exists (1, 0). cbn. split; [tauto|lia].
    + exists (-1, 0). cbn. split; [tauto|lia].
  - assert (2 <= Dy input) as Hh by lia.
    destruct (Z.eq_dec hy 0) as [->|].
    + exists (0, 1). cbn. split; [tauto|lia].
    + exists (0, -1). cbn. split; [tauto|lia].
Qed.

Lemma sumZ_const (v : Z) (vals : list Z) :
  Forall (fun x => x = v) vals ->
  sumZ (fun x => x * 257) vals = Z.of_nat (length vals) * (v * 257).
Proof.
  induction 1 as [|x vals -> _ IH]; cbn [sumZ foldr length]; [lia|].
  fold (sumZ (fun x => x * 257) vals). lia.
Qed.

Lemma mean16_hi_const (v : Z) (vals : list Z) :
  vals <> [] -> Forall (fun x => x = v) vals -> 0 <= v < 256 ->
  IASpec.mean16_hi vals = v.
Proof.
  intros Hne Hall Hv. unfold IASpec.mean16_hi. rewrite (sumZ_const v) by done.
  assert (0 < Z.of_nat (length vals)) by (destruct vals; [done|cbn; lia]).
  rewrite Z.mul_comm, Z.div_mul by lia.
  rewrite Z.shiftr_div_pow2 by lia. change (2 ^ 8) with 256.
  replace (v * 257) with (v + v * 256) by lia.
  rewrite Z.div_add by lia. rewrite Z.div_small by lia. lia.
Qed.

Lemma uint8_byte v : 0 <= v < 256 -> uint8 v = v.
Proof. intros Hv. unfold uint8. by apply Z.mod_small. Qed.

Lemma convert_bytes c :
  (0 <= R (RGBAModel_Convert c) < 256 /\ 0 <= G (RGBAModel_Convert c) < 256) /\
  0 <= B (RGBAModel_Convert c) < 256.
Proof.
  unfold RGBAModel_Convert, uint8. cbn [R G B].
  repeat split; apply Z.mod_pos_bound; lia.
Qed.

(** The averaging engine on a single hole: one pass, and the hole takes
    the colour of its neighbours. *)
Lemma ia_single_hole input hx hy col fuel :
  single_hole input hx hy col -> (1 <= fuel)%nat ->
  exists st, IA.process_gimp_alg fuel input = Some st /\
    IA.passes st = 1 /\
    RGBA_At (Dx input) (Dy input) (IA.output st) hx hy = col.
Proof.
  intros Hhole Hfuel.
  destruct (single_hole_neighbour input hx hy col Hhole) as (n0 & Hn0 & Hn0x & Hn0y).
  destruct Hhole as ([Hx Hy] & Hmax & Hclear & Hothers & Hcol).
  assert (forall x y, 0 <= x < Dx input -> 0 <= y < Dy input -> (x, y) <> (hx, hy) ->
            In (x, y) (ia_opaque_pixels input)) as Hop.
  { intros x y Hx' Hy' Hne. apply In_ia_opaque_pixels. split; [done|].
    unfold ia_opaque. cbn [fst snd]. apply Z.eqb_eq, convert_opaque. by apply Hothers. }
  assert ((hx + n0.1, hy + n0.2) <> (hx, hy)) as Hn0ne.
  { cbn in Hn0. destruct Hn0 as [<-|[<-|[<-|[<-|[]]]]]; cbn; intros [=]; lia. }
  exists (ia_after input 1). split; [|split; [apply (ia_after_passes input 1)|]].
  - unfold IA.process_gimp_alg. apply (ia_loop_iter _ _ 1); [| |lia].
    + intros j Hj. assert (j = 0%nat) as -> by lia.
      apply (ia_remaining_pos input 0); [lia|lia|]. exists hx, hy. split; [done|].
      rewrite ia_within_0, In_ia_opaque_pixels. unfold ia_opaque. cbn [fst snd].
      rewrite Z.eqb_eq. tauto.
    + destruct (Z.lt_ge_cases 0 (IA.remaining (ia_after input 1))) as [Hpos|]; [|done].
      apply (ia_remaining_pos input 1) in Hpos as (x & y & [Hx' Hy'] & Hn); [|lia|lia].
      exfalso. apply Hn. destruct (decide ((x, y) = (hx, hy))) as [[= -> ->]|Hne].
      * exists (hx + n0.1, hy + n0.2). split; [by apply Hop|].
        unfold manhattan. cbn [fst snd].
        cbn in Hn0. destruct Hn0 as [<-|[<-|[<-|[<-|[]]]]]; cbn; lia.
      * apply (ia_within_mono input 0); [lia|]. apply ia_within_0. by apply Hop.
  - change (ia_after input 1) with (IA.pass (Dx input) (Dy input) (IA.init input)).
    destruct (ia_init_spec input ltac:(lia) ltac:(lia)) as (Hwf & Hinit & _).
    destruct (ia_pass_step (Dx input) (Dy input) (IA.init input) ltac:(lia) ltac:(lia) Hwf)
      as (Hpix & _).
    rewrite Hpix by done. unfold IASpec.step_pixel.
    assert (Forall (fun c => c = col)
              (IASpec.gathered (Dx input) (Dy input) (IA.output (IA.init input)) hx hy))
      as Hall.
    { unfold IASpec.gathered. apply Forall_forall. intros c Hc%list_elem_of_In.
      apply in_map_iff in Hc as (n & <- & Hn). apply filter_In in Hn as [Hn Hin].
      apply andb_true_iff in Hin as [Hin%in_rect_spec _].
      rewrite Hinit by lia. apply Hcol; [lia|lia|].
      cbn in Hn. destruct Hn as [<-|[<-|[<-|[<-|[]]]]]; cbn;
        (split; [lia|split; [lia|intros [=]; lia]]). }
    assert (IASpec.gathered (Dx input) (Dy input) (IA.output (IA.init input)) hx hy <> [])
      as Hne.
    { apply gathered_nonempty. exists n0. split; [done|].
      split; [by apply in_rect_spec|]. rewrite Hinit by done.
      apply convert_opaque. by apply Hothers. }
    rewrite (proj2 (filled_spec _ _ _ (hx, hy))).
    2:{ cbn [fst snd]. split; [|done]. by rewrite Hinit. }
    assert (A col = 255 /\ (0 <= R col < 256 /\ 0 <= G col < 256) /\ 0 <= B col < 256)
      as (HA & [HR HG] & HB).
    { rewrite <- (Hcol (hx + n0.1) (hy + n0.2) Hn0x Hn0y).
      - split; [apply convert_opaque; by apply Hothers|apply convert_bytes].
      - cbn in Hn0. destruct Hn0 as [<-|[<-|[<-|[<-|[]]]]]; cbn;
          (split; [lia|split; [lia|intros [=]; lia]]). }
    cbv zeta.
    rewrite (mean16_hi_const (R col)), (mean16_hi_const (G col)), (mean16_hi_const (B col));
      try done.
    + rewrite !uint8_byte by done. destruct col; cbn in *. by subst.
    + intros Hnil. apply Hne. by destruct (IASpec.gathered _ _ _ _ _).
    + apply Forall_forall. intros v Hv%list_elem_of_In.
      apply in_map_iff in Hv as (c & <- & Hc%list_elem_of_In).
      rewrite Forall_forall in Hall. by rewrite (Hall c Hc).
    + intros Hnil. apply Hne. by destruct (IASpec.gathered _ _ _ _ _).
    + apply Forall_forall. intros v Hv%list_elem_of_In.
      apply in_map_iff in Hv as (c & <- & Hc%list_elem_of_In).
      rewrite Forall_forall in Hall. by rewrite (Hall c Hc).
    + intros Hnil. apply Hne. by destruct (IASpec.gathered _ _ _ _ _).
    + apply Forall_forall. intros v Hv%list_elem_of_In.
      apply in_map_iff in Hv as (c & <- & Hc%list_elem_of_In).
      rewrite Forall_forall in Hall. by rewrite (Hall c Hc).
Qed.

Lemma scan_fold_le w h nC x y l acc :
  (foldl (JFPSpec.scan w h nC x y) acc l).1 <= acc.1.
Proof.
  destruct (scan_fold_cases w h nC x y l acc) as [->|(n & _ & _ & _ & _ & Hlt)]; lia.
Qed.

(** The best distance after the scan is at most the distance of every
    source proposed by a neighbour. *)
Lemma scan_fold_best w h nC x y l acc n :
  In n l -> in_rect w h (x + n.1) (y + n.2) = true ->
  JFP.resolved (zget nC ((y + n.2) * w + (x + n.1))) = true ->
  (foldl (JFPSpec.scan w h nC x y) acc l).1 <=
  (x - JFP.px (zget nC ((y + n.2) * w + (x + n.1)))) *
  (x - JFP.px (zget nC ((y + n.2) * w + (x + n.1)))) +
  (y - JFP.py (zget nC ((y + n.2) * w + (x + n.1)))) *
  (y - JFP.py (zget nC ((y + n.2) * w + (x + n.1)))).
Proof.
  intros Hn Hin Hres. revert acc. induction l as [|m l IH]; intros acc; [done|].
  cbn [foldl]. destruct Hn as [->|Hn]; [|by apply IH].
  pose proof (scan_fold_le w h nC x y l (JFPSpec.scan w h nC x y acc n)) as Hle.
  assert ((JFPSpec.scan w h nC x y acc n).1 <=
          (x - JFP.px (zget nC ((y + n.2) * w + (x + n.1)))) *
          (x - JFP.px (zget nC ((y + n.2) * w + (x + n.1)))) +
          (y - JFP.py (zget nC ((y + n.2) * w + (x + n.1)))) *
          (y - JFP.py (zget nC ((y + n.2) * w + (x + n.1))))); [|lia].
  unfold JFPSpec.scan. rewrite Hin. cbv zeta. rewrite Hres.
  destruct (Z.ltb_spec
    ((x - JFP.px (zget nC ((y + n.2) * w + (x + n.1)))) *
     (x - JFP.px (zget nC ((y + n.2) * w + (x + n.1)))) +
     (y - JFP.py (zget nC ((y + n.2) * w + (x + n.1)))) *
     (y - JFP.py (zget nC ((y + n.2) * w + (x + n.1))))) acc.1); cbn [fst]; lia.
Qed.

Lemma In_neighbours step n :
  In n (JFP.neighbours step) ->
  (n.1 = - step \/ n.1 = 0 \/ n.1 = step) /\
  (n.2 = - step \/ n.2 = 0 \/ n.2 = step) /\
  (n.1 <> 0 \/ n.2 <> 0 \/ step = 0).
Proof.
  cbn. intros [<-|[<-|[<-|[<-|[<-|[<-|[<-|[<-|[]]]]]]]]]; cbn; lia.
Qed.

Lemma IA_neighbours_JFP n : In n IA.neighbours -> In n (JFP.neighbours 1).
Proof. cbn. intros [<-|[<-|[<-|[<-|[]]]]]; tauto. Qed.

(** A pass with a positive offset keeps the hole resolved to a pixel
    around it; the pass with offset 1 resolves it when its best distance
    is still above 1. *)
Lemma jf_hole_pass numCpu input hx hy col step g g' :
  single_hole input hx hy col -> 1 <= numCpu <= Dy input + 1 ->
  jf_inv input g -> 1 <= step ->
  hole_resolved input hx hy g \/
    (step = 1 /\ 1 < (JFPSpec.cell g (hy * Dx input + hx)).1) ->
  JFP.pass numCpu (Dx input) (Dy input) step g = Some g' ->
  hole_resolved input hx hy g'.
Proof.
  intros Hhole Hn [Hok Hinv] Hstep Hstart Hpass.
  destruct (single_hole_neighbour input hx hy col Hhole) as (n0 & Hn0 & Hn0x & Hn0y).
  destruct Hhole as ([Hx Hy] & Hmax & Hclear & Hothers & Hcol).
  destruct (jf_pass_spec numCpu (Dx input) (Dy input) step g) as (g'' & Hrun & Hok' & Hcell);
    [lia|lia|done|].
  rewrite Hrun in Hpass. injection Hpass as ->.
  assert (forall n, In n (JFP.neighbours step) ->
            in_rect (Dx input) (Dy input) (hx + n.1) (hy + n.2) = true ->
            zget (JFP.nearest g) ((hy + n.2) * Dx input + (hx + n.1))
              = JFP.mkPoint (hx + n.1) (hy + n.2)) as Hsrc.
  { intros n Hin%In_neighbours [Hnx Hny]%in_rect_spec.
    destruct (Hinv _ _ Hnx Hny) as [Hopq _]. cbv zeta in Hopq.
    unfold JFPSpec.cell in Hopq.
    assert (ca (At input (hx + n.1) (hy + n.2)) = 65535) as Ha.
    { apply Hothers; [done|done|]. intros [=]. lia. }
    specialize (Hopq Ha). by injection Hopq. }
  unfold hole_resolved. rewrite Hcell by done. unfold JFPSpec.new_cell.
  destruct (scan_fold_cases (Dx input) (Dy input) (JFP.nearest g) hx hy (JFP.neighbours step)
              (zget (JFP.distances g) (hy * Dx input + hx),
               JFPSpec.cell g (hy * Dx input + hx)))
    as [Hkeep|(n & Hnin & Hin & Hp & Hr & Hlt)].
  - rewrite Hkeep. cbn [snd]. destruct Hstart as [Hres|[-> Hfar]]; [exact Hres|].
    exfalso.
    pose proof (scan_fold_best (Dx input) (Dy input) (JFP.nearest g) hx hy
      (JFP.neighbours 1)
      (zget (JFP.distances g) (hy * Dx input + hx), JFPSpec.cell g (hy * Dx input + hx))
      n0 (IA_neighbours_JFP n0 Hn0)) as Hbest.
    rewrite Hsrc in Hbest by (by apply IA_neighbours_JFP || by apply in_rect_spec).
    specialize (Hbest ltac:(by apply in_rect_spec)
                      ltac:(unfold JFP.resolved; cbn;
                            rewrite !(proj2 (Z.eqb_neq _ _)) by lia; done)).
    rewrite Hkeep in Hbest. cbn [fst JFP.px JFP.py] in Hbest.
    unfold JFPSpec.cell in Hfar. cbn [fst] in Hfar.
    cbn in Hn0. destruct Hn0 as [<-|[<-|[<-|[<-|[]]]]]; cbn [fst snd] in Hbest; lia.
  - cbv zeta in Hp, Hr, Hlt. rewrite Hsrc in Hr, Hp by done.
    rewrite Hr. cbn [snd JFP.px JFP.py] in *.
    apply in_rect_spec in Hin as [Hnx Hny].
    apply In_neighbours in Hnin as (H1 & H2 & Hnz).
    exists (JFP.mkPoint (hx + n.1) (hy + n.2)). cbn [JFP.px JFP.py].
    split; [done|]. split; [done|].
    assert (forall a, (hx - (hx + a)) * (hx - (hx + a)) = a * a) as Hsq1 by (intros; lia).
    assert (forall a, (hy - (hy + a)) * (hy - (hy + a)) = a * a) as Hsq2 by (intros; lia).
    rewrite Hr in Hlt. cbn [fst] in Hlt. rewrite Hsq1, Hsq2 in Hlt.
    assert (n.1 * n.1 + n.2 * n.2 < 3) as Hsmall.
    { destruct Hstart as [(p & Hpc & _ & Hadj)|[-> _]].
      - unfold JFPSpec.cell in Hpc. injection Hpc as Hd _. rewrite Hd in Hlt.
        destruct Hadj as (Ha1 & Ha2 & _).
        assert ((hx - JFP.px p) * (hx - JFP.px p) <= 1) by nia.
        assert ((hy - JFP.py p) * (hy - JFP.py p) <= 1) by nia. lia.
      - destruct H1 as [H1 | [H1 | H1]], H2 as [H2 | [H2 | H2]]; rewrite H1, H2; lia. }
    unfold adjacent.
    assert (Z.abs n.1 <= 1 /\ Z.abs n.2 <= 1) as [Hb1 Hb2] by nia.
    split; [lia|]. split; [lia|]. intros [=]. lia.
Qed.

(** The jump-flood engine on a single hole: with at most [height + 1]
    workers the hole takes the colour of the pixels around it. *)
Lemma jf_single_hole input hx hy col numCpu :
  single_hole input hx hy col -> 1 <= numCpu <= Dy input + 1 ->
  exists out, JFP.process_paint_net_alg numCpu input = Some out /\
    RGBA_At (Dx input) (Dy input) out hx hy = col.
Proof.
  intros Hhole Hn.
  pose proof Hhole as ([Hx Hy] & Hmax & Hclear & Hothers & Hcol).
  destruct (process_total numCpu input Hn ltac:(lia)) as [out Hrun].
  exists out. split; [done|].
  destruct (process_paint_net_alg_pixels numCpu input out ltac:(lia) ltac:(lia) Hrun)
    as (nearest & Hjf & Hpix).
  rewrite Hpix by done.
  assert (ca (At input hx hy) <> 65535) as Hca.
  { intros Ha. by apply Hclear, convert_opaque. }
  rewrite (proj2 (Z.eqb_neq _ _) Hca).
  rewrite jumpFlood_prepare in Hjf by lia. rewrite run_passes_spec in Hjf.
  destruct (JFP.foldM _ _ _) as [g|] eqn:Hpasses; cbn in Hjf; [|done].
  injection Hjf as <-.
  assert (1 <= Z.log2_up (Z.max (Dx input) (Dy input))) as Hlog.
  { change 1 with (Z.log2_up 2). by apply Z.log2_up_le_mono. }
  unfold JFP.maxSteps in Hpasses. rewrite seqZ_cons in Hpasses by lia.
  cbn [JFP.foldM] in Hpasses.
  pose proof (jf_init_inv input ltac:(lia) ltac:(lia)) as Hinv0.
  destruct (JFP.pass numCpu (Dx input) (Dy input) 1 _) as [g1|] eqn:Hpass1;
    cbn in Hpasses; [|done].
  assert (jf_inv input g1 /\ hole_resolved input hx hy g1) as Hg1.
  { split.
    - apply (jf_pass_inv numCpu input 1 _ g1 ltac:(lia) ltac:(lia) ltac:(lia) Hinv0 Hpass1).
    - apply (jf_hole_pass numCpu input hx hy col 1 _ g1 Hhole Hn Hinv0 ltac:(lia));
        [|done].
      right. split; [done|].
      destruct (jf_init_spec (Dx input) (Dy input) (JFP.prepare input).2
                  ltac:(lia) ltac:(lia)) as [_ Hcell0].
      destruct (jf_prepare_spec input ltac:(lia) ltac:(lia)) as (_ & _ & Hmask).
      rewrite Hcell0 by done. destruct (Hmask hx hy Hx Hy) as [-> _].
      rewrite (proj2 (Z.eqb_neq _ _) Hca). cbn [fst]. nia. }
  assert (jf_inv input g /\ hole_resolved input hx hy g) as [_ (p & Hp & Hpin & Hadj)].
  { apply (foldM_inv (fun g => jf_inv input g /\ hole_resolved input hx hy g)
             (JFP.pass numCpu (Dx input) (Dy input))
             (seqZ (Z.succ 1) (Z.pred (Z.log2_up (Z.max (Dx input) (Dy input)) * 2 - 1)))
             g1 g); [|done|done].
    intros step s s' Hs%elem_of_seqZ [Hinv Hres] Hpass. split.
    - apply (jf_pass_inv numCpu input step s s' ltac:(lia) ltac:(lia) ltac:(lia) Hinv Hpass).
    - apply (jf_hole_pass numCpu input hx hy col step s s' Hhole Hn Hinv ltac:(lia));
        [by left|done]. }
  unfold JFPSpec.cell in Hp. injection Hp as _ Hnear. rewrite Hnear.
  assert (JFP.resolved p = true) as ->.
  { unfold JFP.resolved. rewrite !(proj2 (Z.eqb_neq _ _)) by lia. done. }
  assert (ca (At input (JFP.px p) (JFP.py p)) = 65535) as Hpa.
  { apply Hothers; [lia|lia|]. by destruct Hadj as (_ & _ & ?). }
  rewrite convert_fill by done. apply Hcol; [lia|lia|done].
Qed.

(** The two engines agree on a raster with a single hole surrounded by
    one colour, as long as the workers fit the raster. *)
Lemma engines_agree_on_single_hole input hx hy col numCpu fuel :
  single_hole input hx hy col -> 1 <= numCpu <= Dy input + 1 -> (1 <= fuel)%nat ->
  exists st out,
    IA.process_gimp_alg fuel input = Some st /\
    JFP.process_paint_net_alg numCpu input = Some out /\
    RGBA_At (Dx input) (Dy input) (IA.output st) hx hy = col /\
    RGBA_At (Dx input) (Dy input) out hx hy = col.
Proof.
  intros Hhole Hn Hfuel.
  destruct (ia_single_hole input hx hy col fuel Hhole Hfuel) as (st & Hia & _ & Hst).
  destruct (jf_single_hole input hx hy col numCpu Hhole Hn) as (out & Hjf & Hout).
  exists st, out. done.
Qed.

Example two_pixels_single_hole : single_hole two_pixels 1 0 (mkRGBA 1 2 3 255).
Proof.
  assert (forall x y, 0 <= x < 2 -> 0 <= y < 1 -> (x, y) <> (1, 0) -> x = 0 /\ y = 0) as Hxy.
  { intros x y Hx Hy Hne. assert (y = 0) as -> by lia.
    destruct (Z.eq_dec x 1) as [->|]; [done|lia]. }
  split; [by compute|]. split; [by compute|]. split; [by compute|]. split.
  - intros x y Hx Hy Hne. destruct (Hxy x y Hx Hy Hne) as [-> ->]. reflexivity.
  - intros x y Hx Hy (_ & _ & Hne). destruct (Hxy x y Hx Hy Hne) as [-> ->]. reflexivity.
Qed.

Example two_pixels_agree :
  exists st out,
    IA.process_gimp_alg 1 two_pixels = Some st /\
    JFP.process_paint_net_alg 2 two_pixels = Some out /\
    RGBA_At 2 1 (IA.output st) 1 0 = mkRGBA 1 2 3 255 /\
    RGBA_At 2 1 out 1 0 = mkRGBA 1 2 3 255.
Proof.
  apply (engines_agree_on_single_hole two_pixels 1 0 (mkRGBA 1 2 3 255) 2 1);
    [apply two_pixels_single_hole|by compute|lia].
Qed.

(** With at most [height + 1] workers and a mask with an entry for every
    pixel the pass loop runs to its end and has run
    [max 0 (2 * ceil(log2(max(w, h))) - 1)] passes. *)
Lemma pass_count_fits numCpu w h mask :
  1 <= numCpu <= h + 1 -> 0 <= w -> w * h <= Z.of_nat (length mask) ->
  JFP.pass_count numCpu w h mask = Some (Z.max 0 (2 * Z.log2_up (Z.max w h) - 1)).
Proof.
  intros Hn Hw Hlen. unfold JFP.pass_count. rewrite init_Some by lia.
  cbn [mbind option_bind]. rewrite run_passes_spec.
  destruct (jf_passes_total numCpu w h (seqZ 1 (JFP.maxSteps w h - 1))
              (jf_init_grids w h mask) Hn Hw) as (g & -> & _).
  { apply jf_init_spec; lia. }
  cbn. unfold JFP.maxSteps. do 2 f_equal. lia.
Qed.

(** ** The reach of the jump flood *)

Lemma jf_within_pass numCpu input step r g g' :
  1 <= numCpu -> 1 <= Dx input -> 1 <= Dy input -> 0 <= step ->
  jf_ok (Dx input) (Dy input) g -> jf_within input r g ->
  JFP.pass numCpu (Dx input) (Dy input) step g = Some g' ->
  jf_ok (Dx input) (Dy input) g' /\ jf_within input (r + step) g'.
Proof.
  intros Hn Hw Hh Hstep Hok Hin Hpass.
  destruct (Z_le_gt_dec numCpu (Dy input + 1)) as [Hfit|Hover].
  2:{ rewrite pass_overflow in Hpass by (done || lia). done. }
  destruct (jf_pass_spec numCpu (Dx input) (Dy input) step g) as (g'' & Hrun & Hok' & Hcell);
    [lia|lia|done|].
  rewrite Hrun in Hpass. injection Hpass as ->. split; [done|].
  intros x y Hx Hy. rewrite Hcell by done. unfold JFPSpec.new_cell.
  destruct (scan_fold_cases (Dx input) (Dy input) (JFP.nearest g) x y (JFP.neighbours step)
              (zget (JFP.distances g) (y * Dx input + x),
               JFPSpec.cell g (y * Dx input + x)))
    as [->|(n & Hnin & Hnrect & Hp & -> & _)]; cbn [fst snd].
  - intros Hres. destruct (Hin x y Hx Hy Hres) as (sx & sy & Hs & Ha & Hd).
    exists sx, sy. split; [done|]. split; [done|lia].
  - intros _. apply in_rect_spec in Hnrect as [Hnx Hny].
    destruct (Hin _ _ Hnx Hny Hp) as (sx & sy & Hs & Ha & Hd).
    exists sx, sy. split; [done|]. split; [done|].
    apply In_neighbours in Hnin as (H1 & H2 & _).
    unfold chebyshev in *. cbn [fst snd] in *. lia.
Qed.

Lemma jf_within_passes numCpu input steps r g g' :
  1 <= numCpu -> 1 <= Dx input -> 1 <= Dy input ->
  Forall (fun s => 0 <= s) steps ->
  jf_ok (Dx input) (Dy input) g -> jf_within input r g ->
  JFP.foldM (JFP.pass numCpu (Dx input) (Dy input)) steps g = Some g' ->
  jf_within input (r + sumZ (fun s => s) steps) g'.
Proof.
  intros Hn Hw Hh Hsteps. revert r g.
  induction Hsteps as [|step steps Hstep _ IH]; intros r g Hok Hin Hrun; cbn in Hrun.
  - injection Hrun as <-. cbn. by rewrite Z.add_0_r.
  - destruct (JFP.pass _ _ _ step g) as [g1|] eqn:Hpass; cbn in Hrun; [|done].
    destruct (jf_within_pass numCpu input step r g g1 Hn Hw Hh Hstep Hok Hin Hpass)
      as [Hok1 Hin1].
    specialize (IH (r + step) g1 Hok1 Hin1 Hrun).
    cbn [sumZ foldr]. fold (sumZ (fun s => s) steps).
    by rewrite Z.add_assoc.
Qed.

(** A transparent pixel with no opaque pixel within the reach of the
    passes is returned with zero alpha, whatever else the raster holds. *)
Lemma process_paint_net_alg_out_of_reach numCpu input out x y :
  1 <= numCpu -> 0 <= x < Dx input -> 0 <= y < Dy input ->
  JFP.process_paint_net_alg numCpu input = Some out ->
  ca (At input x y) <> 65535 ->
  (forall sx sy, 0 <= sx < Dx input -> 0 <= sy < Dy input ->
     ca (At input sx sy) = 65535 ->
     jf_reach (Dx input) (Dy input) < chebyshev (x, y) (sx, sy)) ->
  RGBA_At (Dx input) (Dy input) out x y = mkRGBA 0 0 0 0.
Proof.
  intros Hn Hx Hy Hrun Hca Hfar.
  destruct (process_paint_net_alg_pixels numCpu input out ltac:(lia) ltac:(lia) Hrun)
    as (nearest & Hjf & Hpix).
  rewrite Hpix by done. rewrite (proj2 (Z.eqb_neq _ _) Hca).
  destruct (JFP.resolved _) eqn:Hres; [|done]. exfalso.
  rewrite jumpFlood_prepare in Hjf by lia. rewrite run_passes_spec in Hjf.
  destruct (JFP.foldM _ _ _) as [g|] eqn:Hpasses; cbn in Hjf; [|done].
  injection Hjf as <-.
  apply (jf_within_passes numCpu input _ 0) in Hpasses; try lia.
  - destruct (Hpasses x y Hx Hy Hres) as (sx & sy & [Hsx Hsy] & Ha & Hd).
    specialize (Hfar sx sy Hsx Hsy Ha). unfold jf_reach in Hfar. lia.
  - apply Forall_forall. intros s Hs%elem_of_seqZ. lia.
  - apply jf_init_spec; lia.
  - intros x' y' Hx' Hy' Hres'.
    destruct (jf_init_inv input ltac:(lia) ltac:(lia)) as [_ Hinv].
    destruct (Hinv x' y' Hx' Hy') as [_ Hsrc]. cbv zeta in Hsrc.
    destruct (Hsrc Hres') as [Hb Hopq].
    destruct (jf_init_spec (Dx input) (Dy input) (JFP.prepare input).2
                ltac:(lia) ltac:(lia)) as [_ Hcell].
    destruct (jf_prepare_spec input ltac:(lia) ltac:(lia)) as (_ & _ & Hmask).
    rewrite Hcell in Hres' by done. destruct (Hmask x' y' Hx' Hy') as [Hm _].
    rewrite Hm in Hres'.
    destruct (Z.eqb_spec (ca (At input x' y')) 65535) as [Ha|Ha]; [|done].
    exists x', y'. split; [done|]. split; [done|]. unfold chebyshev. cbn. lia.
Qed.

Example far_row_reach : jf_reach 93 1 = 91.
Proof. reflexivity. Qed.

(** ** The default output path *)

Lemma ext_scan_found (a b tail : list ascii) :
  Forall (fun c => c <> "."%char /\ c <> "/"%char) a ->
  Cli.ext_scan (a ++ "."%char :: b) tail = "."%char :: rev a ++ tail.
Proof.
  revert tail. induction a as [|c a IH]; intros tail Ha; [reflexivity|].
  apply Forall_cons in Ha as [[Hdot Hslash] Ha]. cbn [app Cli.ext_scan].
  rewrite (proj2 (Ascii.eqb_neq _ _) Hslash), (proj2 (Ascii.eqb_neq _ _) Hdot).
  rewrite IH by done. cbn [rev]. by rewrite <- app_assoc.
Qed.

Lemma ext_scan_not_found (a b tail : list ascii) :
  Forall (fun c => c <> "."%char /\ c <> "/"%char) a ->
  b = [] \/ (exists b', b = "/"%char :: b') ->
  Cli.ext_scan (a ++ b) tail = [].
Proof.
  revert tail. induction a as [|c a IH]; intros tail Ha Hb.
  - destruct Hb as [->|[b' ->]]; reflexivity.
  - apply Forall_cons in Ha as [[Hdot Hslash] Ha]. cbn [app Cli.ext_scan].
    rewrite (proj2 (Ascii.eqb_neq _ _) Hslash), (proj2 (Ascii.eqb_neq _ _) Hdot).
    by apply IH.
Qed.

(** Every byte string splits at its first dot or slash. *)
Lemma ext_scan_split (l : list ascii) :
  exists a b, l = a ++ b /\
    Forall (fun c => c <> "."%char /\ c <> "/"%char) a /\
    (b = [] \/ (exists b', b = "/"%char :: b') \/ (exists b', b = "."%char :: b')).
Proof.
  induction l as [|c l (a & b & -> & Ha & Hb)].
  - exists [], []. split; [done|]. split; [constructor|by left].
  - destruct (Ascii.eqb_spec c "/"%char) as [->|Hslash].
    { exists [], ("/"%char :: a ++ b). split; [done|]. split; [constructor|].
      right. left. by eexists. }
    destruct (Ascii.eqb_spec c "."%char) as [->|Hdot].
    { exists [], ("."%char :: a ++ b). split; [done|]. split; [constructor|].
      right. right. by eexists. }
    exists (c :: a), b. split; [done|]. split; [by constructor|done].
Qed.

(** The shape of [path.Ext]: the path is a stem followed by the
    extension, and the extension is empty, with no dot in the last
    element of the path, or a dot followed by bytes that are neither a
    dot nor a slash. *)
Lemma path_Ext_shape (path : list ascii) :
  exists stem,
    path = stem ++ Cli.path_Ext path /\
    ((Cli.path_Ext path = [] /\
      exists d name, path = d ++ name /\
        Forall (fun c => c <> "."%char /\ c <> "/"%char) name /\
        (d = [] \/ exists d', d = d' ++ ["/"%char])) \/
     (exists e, Cli.path_Ext path = "."%char :: e /\
        Forall (fun c => c <> "."%char /\ c <> "/"%char) e)).
Proof.
  unfold Cli.path_Ext.
  destruct (ext_scan_split (rev path)) as (a & b & Hrev & Ha & Hb).
  assert (path = rev b ++ rev a) as Hpath.
  { rewrite <- rev_app_distr, <- Hrev. by rewrite rev_involutive. }
  assert (Forall (fun c => c <> "."%char /\ c <> "/"%char) (rev a)) as Hra.
  { by apply Forall_rev. }
  rewrite Hrev. destruct Hb as [Hb|[[b' ->]|[b' ->]]].
  - rewrite ext_scan_not_found by (done || by left). exists path.
    split; [by rewrite app_nil_r|]. left. split; [done|].
    exists (rev b), (rev a). split; [done|]. split; [done|]. left. by subst.
  - rewrite ext_scan_not_found by (done || (right; by eexists)). exists path.
    split; [by rewrite app_nil_r|]. left. split; [done|].
    exists (rev ("/"%char :: b')), (rev a). split; [done|]. split; [done|].
    right. exists (rev b'). reflexivity.
  - rewrite ext_scan_found by done. rewrite app_nil_r.
    exists (rev b'). split.
    + rewrite Hpath. cbn [rev]. by rewrite <- app_assoc.
    + right. exists (rev a). done.
Qed.

Lemma strings_TrimSuffix_app (stem suffix : list ascii) :
  Cli.strings_TrimSuffix (stem ++ suffix) suffix = stem.
Proof.
  unfold Cli.strings_TrimSuffix, Cli.strings_HasSuffix.
  rewrite length_app.
  replace (length stem + length suffix - length suffix)%nat with (length stem) by lia.
  rewrite drop_app_length, take_app_length.
  rewrite (proj2 (Nat.leb_le _ _)) by lia.
  by rewrite bool_decide_eq_true_2.
Qed.

Lemma default_output_stem (stem : list ascii) (path : list ascii) :
  path = stem ++ Cli.path_Ext path ->
  Cli.default_output path = stem ++ Cli.lit "_padded" ++ Cli.path_Ext path.
Proof.
  intros Hpath. unfold Cli.default_output. cbv zeta.
  rewrite Hpath at 1. by rewrite strings_TrimSuffix_app.
Qed.

Lemma padded_clean :
  Forall (fun c => c <> "."%char /\ c <> "/"%char) (Cli.lit "_padded").
Proof. repeat constructor; discriminate. Qed.

Lemma path_Ext_default_output (path : list ascii) :
  Cli.path_Ext (Cli.default_output path) = Cli.path_Ext path.
Proof.
  destruct (path_Ext_shape path) as (stem & Hpath & Hshape).
  rewrite (default_output_stem stem path Hpath).
  destruct Hshape as [[Hnil (d & name & Hdn & Hname & Hd)]|(e & He & Hclean)].
  - rewrite Hnil in *. rewrite app_nil_r in *. subst stem.
    unfold Cli.path_Ext. rewrite Hdn at 1.
    replace (rev ((d ++ name) ++ Cli.lit "_padded"))
      with ((rev (Cli.lit "_padded") ++ rev name) ++ rev d)
      by (by rewrite !rev_app_distr, app_assoc).
    apply ext_scan_not_found.
    + apply Forall_app. split; apply Forall_rev; [apply padded_clean|done].
    + destruct Hd as [->|[d' ->]]; [by left|right].
      rewrite rev_app_distr. cbn. by eexists.
  - rewrite He. unfold Cli.path_Ext at 1.
    rewrite app_assoc, rev_app_distr. cbn [rev]. rewrite <- app_assoc. cbn [app].
    rewrite ext_scan_found by (by apply Forall_rev).
    by rewrite rev_involutive, app_nil_r.
Qed.

(** X1.  The default output path is the input path with [_padded]
    inserted in front of its extension: the input is a stem followed by
    [path.Ext] of it, the output is that stem, [_padded] and the same
    extension, and the extension is empty or a dot followed by bytes
    that are neither dots nor slashes. *)
Theorem default_output_inserts_padded (input : list ascii) :
  exists stem ext,
    ext = Cli.path_Ext input /\
    input = stem ++ ext /\
    Cli.default_output input = stem ++ Cli.lit "_padded" ++ ext /\
    (ext = [] \/
     exists e, ext = "."%char :: e /\
       Forall (fun c => c <> "."%char /\ c <> "/"%char) e).
Proof.
  destruct (path_Ext_shape input) as (stem & Hpath & Hshape).
  exists stem, (Cli.path_Ext input). split; [done|]. split; [done|].
  split; [by apply default_output_stem|].
  destruct Hshape as [[Hnil _]|He]; [by left|by right].
Qed.

(** X2.  The default output path has the extension of the input path. *)
Theorem default_output_keeps_ext (input : list ascii) :
  Cli.path_Ext (Cli.default_output input) = Cli.path_Ext input.
Proof. apply path_Ext_default_output. Qed.

(** X3.  Called with one positional argument and no [--output] flag, the
    command runs on an output path that is seven bytes longer than the
    input path, hence never the input file itself; with any other number
    of arguments it only prints its usage line. *)
Theorem Action_default_never_overwrites (args : list (list ascii)) (slower : bool) :
  match Cli.Action args [] slower with
  | Cli.Run input output slower' =>
      args = [input] /\ slower' = slower /\
      length output = (length input + 7)%nat /\ output <> input
  | Cli.Usage => length args <> 1%nat
  end.
Proof.
  destruct args as [|input [|second args]]; cbn; [done| |done].
  destruct (path_Ext_shape input) as (stem & Hpath & _).
  assert (length (Cli.default_output input) = (length input + 7)%nat) as Hlen.
  { rewrite (default_output_stem stem input Hpath). rewrite Hpath at 2.
    rewrite !length_app. cbn. lia. }
  repeat split; [done|]. intros Heq. rewrite Heq in Hlen. lia.
Qed.

(** X4.  Different input paths have different default output paths. *)
Theorem default_output_injective (p q : list ascii) :
  Cli.default_output p = Cli.default_output q -> p = q.
Proof.
  intros Heq.
  pose proof (path_Ext_default_output p) as Hp.
  pose proof (path_Ext_default_output q) as Hq.
  rewrite Heq, Hq in Hp.
  destruct (path_Ext_shape p) as (sp & Hsp & _).
  destruct (path_Ext_shape q) as (sq & Hsq & _).
  rewrite (default_output_stem sp p Hsp), (default_output_stem sq q Hsq) in Heq.
  rewrite <- Hp in Heq. rewrite !app_assoc in Heq.
  apply app_inv_tail in Heq. apply app_inv_tail in Heq.
  rewrite Hsp, Hsq, Heq, Hp. reflexivity.
Qed.

Lemma default_output_injective_witness :
  Cli.default_output (Cli.lit "a/tex.png") = Cli.default_output (Cli.lit "a/tex.png") /\
  Cli.lit "a/tex.png" = Cli.lit "a/tex.png".
Proof.
  split; [reflexivity|].
  apply (default_output_injective (Cli.lit "a/tex.png") (Cli.lit "a/tex.png")).
  reflexivity.
Defined.

(** X5.  The default output path lies in the directory of the input
    path: what precedes the last slash is kept, and what follows it
    still holds no slash. *)
Theorem default_output_same_dir (dir name : list ascii) :
  "/"%char ∉ name ->
  exists name',
    Cli.default_output (dir ++ "/"%char :: name) = dir ++ "/"%char :: name' /\
    "/"%char ∉ name'.
Proof.
  intros Hname. set (input := dir ++ "/"%char :: name).
  destruct (path_Ext_shape input) as (stem & Hpath & Hshape).
  assert ("/"%char ∉ Cli.path_Ext input) as Hext.
  { destruct Hshape as [[-> _]|(e & -> & He)]; [apply not_elem_of_nil|].
    rewrite elem_of_cons. intros [?|Hin]; [done|].
    rewrite Forall_forall in He. by destruct (He _ Hin). }
  assert (exists n1, stem = dir ++ "/"%char :: n1 /\ name = n1 ++ Cli.path_Ext input)
    as (n1 & Hstem & Hn).
  { unfold input in Hpath at 1.
    replace (dir ++ "/"%char :: name) with ((dir ++ ["/"%char]) ++ name) in Hpath
      by (by rewrite <- app_assoc).
    apply app_eq_inv in Hpath as [(k & Hk1 & Hk2)|(k & Hk1 & Hk2)].
    - destruct k as [|c k _] using rev_ind.
      + exists []. rewrite app_nil_r in Hk1. cbn in Hk2.
        split; [by rewrite <- Hk1|by rewrite Hk2].
      + exfalso. rewrite app_assoc in Hk1. apply app_inj_tail in Hk1 as [_ <-].
        apply Hext. rewrite Hk2. rewrite !elem_of_app, elem_of_cons. tauto.
    - exists k. split; [by rewrite Hk1, <- app_assoc|done]. }
  exists (n1 ++ Cli.lit "_padded" ++ Cli.path_Ext input). split.
  - rewrite (default_output_stem stem input Hpath), Hstem.
    by rewrite <- app_assoc.
  - rewrite Hn in Hname. rewrite !not_elem_of_app in *.
    split; [tauto|]. split; [|done].
    intros Hin. pose proof padded_clean as Hc. rewrite Forall_forall in Hc.
    by destruct (Hc _ Hin).
Qed.

Lemma default_output_same_dir_witness :
  ("/"%char ∉ Cli.lit "tex.png") /\
  exists name',
    Cli.default_output (Cli.lit "maps" ++ "/"%char :: Cli.lit "tex.png")
      = Cli.lit "maps" ++ "/"%char :: name' /\
    "/"%char ∉ name'.
Proof.
  assert ("/"%char ∉ Cli.lit "tex.png") as Hname.
  { cbn. rewrite !elem_of_cons. intros H.
    repeat (destruct H as [H|H]; [discriminate H|]). by apply not_elem_of_nil in H. }
  split; [exact Hname|].
  exact (default_output_same_dir (Cli.lit "maps") (Cli.lit "tex.png") Hname).
Defined.

Example default_output_samples :
  Cli.default_output (Cli.lit "maps/tex.png") = Cli.lit "maps/tex_padded.png" /\
  Cli.default_output (Cli.lit "a.b/tex") = Cli.lit "a.b/tex_padded" /\
  Cli.default_output (Cli.lit ".png") = Cli.lit "_padded.png" /\
  Cli.default_output (Cli.lit "x.tar.png") = Cli.lit "x.tar_padded.png".
Proof. repeat split; reflexivity. Qed.

(** ** More on the averaging engine *)

Lemma uint8_range v : 0 <= uint8 v < 256.
Proof. unfold uint8. apply Z.mod_pos_bound. lia. Qed.

Lemma convert_byte_channels c : byte_channels (RGBAModel_Convert c).
Proof. unfold byte_channels, RGBAModel_Convert. cbn. repeat split; apply uint8_range. Qed.

Lemma step_pixel_byte_channels mean w h snap x y :
  byte_channels (RGBA_At w h snap x y) ->
  byte_channels (IASpec.step_pixel mean w h snap x y).
Proof.
  intros Hb. unfold IASpec.step_pixel. destruct (IASpec.filled _ _ _ _); [|done].
  unfold byte_channels. cbn. repeat split; (apply uint8_range || lia).
Qed.

(** Every pixel of the working raster holds four bytes, pass after
    pass. *)
Lemma ia_after_byte_channels input n x y :
  0 <= x < Dx input -> 0 <= y < Dy input ->
  byte_channels (RGBA_At (Dx input) (Dy input) (IA.output (ia_after input n)) x y).
Proof.
  intros Hx Hy. induction n as [|n IH].
  - change (ia_after input 0) with (IA.init input).
    destruct (ia_init_spec input ltac:(lia) ltac:(lia)) as (_ & Hpix & _).
    rewrite Hpix by done. apply convert_byte_channels.
  - change (ia_after input (S n))
      with (IA.pass (Dx input) (Dy input) (ia_after input n)).
    destruct (ia_after_inv input n ltac:(lia) ltac:(lia)) as [Hwf _].
    destruct (ia_pass_step (Dx input) (Dy input) (ia_after input n)
                ltac:(lia) ltac:(lia) Hwf) as (Hpix & _).
    rewrite Hpix by done. by apply step_pixel_byte_channels.
Qed.

(** What is gathered around a pixel: fully opaque pixels of the snapshot
    inside the raster, at most four of them. *)
Lemma gathered_Forall w h snap x y :
  Forall (fun c => exists nx ny, (0 <= nx < w /\ 0 <= ny < h) /\
                     c = RGBA_At w h snap nx ny /\ A c = 255)
         (IASpec.gathered w h snap x y) /\
  (length (IASpec.gathered w h snap x y) <= 4)%nat.
Proof.
  unfold IASpec.gathered. split.
  - apply Forall_forall. intros c Hc%list_elem_of_In.
    apply in_map_iff in Hc as (n & <- & Hn). apply filter_In in Hn as [_ Hn].
    apply andb_true_iff in Hn as [Hin%in_rect_spec Ha%Z.eqb_eq].
    exists (x + n.1), (y + n.2). done.
  - rewrite length_map. etransitivity; [apply filter_length_le|]. reflexivity.
Qed.

Lemma sumZ_Forall_bounds {T} (f : T -> Z) lo hi (l : list T) :
  Forall (fun c => lo <= f c <= hi) l ->
  Z.of_nat (length l) * lo <= sumZ f l <= Z.of_nat (length l) * hi.
Proof.
  induction 1 as [|c l Hc _ IH]; cbn [sumZ foldr length]; [lia|].
  fold (sumZ f l). lia.
Qed.

Lemma mean16_hi_range (vals : list Z) lo hi :
  vals <> [] -> Forall (fun v => lo <= v <= hi) vals -> 0 <= lo -> hi <= 255 ->
  lo <= IASpec.mean16_hi vals <= hi.
Proof.
  intros Hne Hall Hlo Hhi. unfold IASpec.mean16_hi.
  rewrite (sumZ_scale (fun v => v)), Z.shiftr_div_pow2 by lia. change (2 ^ 8) with 256.
  pose proof (sumZ_Forall_bounds (fun v => v) lo hi vals Hall) as Hs.
  set (s := sumZ (fun v => v) vals) in *.
  assert (0 < Z.of_nat (length vals)) as Hn by (destruct vals; [done|cbn; lia]).
  set (n := Z.of_nat (length vals)) in *.
  rewrite Z.div_div by lia. split.
  - apply Z.div_le_lower_bound; nia.
  - apply Z.lt_succ_r. apply Z.div_lt_upper_bound; nia.
Qed.

(** The state the loop returns is one reached by some number of passes,
    with nothing remaining. *)
Lemma ia_returned_state input fuel st :
  IA.process_gimp_alg fuel input = Some st ->
  exists n, st = ia_after input n /\ IA.remaining st <= 0.
Proof.
  unfold IA.process_gimp_alg, ia_after. generalize (IA.init input). intros s.
  revert s. induction fuel as [|fuel IH]; intros s Hrun; cbn in Hrun.
  - destruct (Z.ltb_spec 0 (IA.remaining s)); [done|]. injection Hrun as <-.
    by exists 0%nat.
  - destruct (Z.ltb_spec 0 (IA.remaining s)).
    + destruct (IH _ Hrun) as (n & -> & Hrem). exists (S n).
      by rewrite Nat.iter_succ_r.
    + injection Hrun as <-. by exists 0%nat.
Qed.

(** With an opaque pixel in the raster and fuel for [max_distance]
    passes the loop returns. *)
Lemma ia_loop_returns input fuel :
  ia_opaque_pixels input <> [] ->
  (Z.to_nat (max_distance input) <= fuel)%nat ->
  IA.process_gimp_alg fuel input = Some (ia_after input (Z.to_nat (max_distance input))).
Proof.
  intros Hne Hfuel.
  assert (0 <= Dx input /\ 0 <= Dy input) as [Hw Hh].
  { destruct (ia_opaque_pixels input) as [|c l] eqn:Hl; [done|].
    assert (In c (ia_opaque_pixels input)) as Hc by (rewrite Hl; by left).
    apply In_ia_opaque_pixels in Hc. lia. }
  pose proof (maximum_nonneg (map (dist_to_opaque input) (ia_transparent_pixels input)))
    as Hd0. fold (max_distance input) in Hd0.
  unfold IA.process_gimp_alg. apply ia_loop_iter; [| |done].
  - intros j Hj. apply (ia_remaining_pos input j Hw Hh).
    assert (0 < max_distance input) as Hpos by lia.
    apply maximum_In in Hpos. fold (max_distance input) in Hpos.
    apply in_map_iff in Hpos as ([x y] & Hdist & Hc).
    apply In_ia_transparent_pixels in Hc as [Hc _]. cbn [fst snd] in Hc.
    exists x, y. split; [done|]. rewrite <- dist_to_opaque_le by done. lia.
  - destruct (Z.lt_ge_cases 0
      (IA.remaining (Nat.iter (Z.to_nat (max_distance input))
         (IA.pass (Dx input) (Dy input)) (IA.init input)))) as [Hpos|Hle]; [|lia].
    apply (ia_remaining_pos input _ Hw Hh) in Hpos as (x & y & Hc & Hn).
    exfalso. apply Hn. apply dist_to_opaque_le; [done|].
    rewrite Z2Nat.id by done.
    destruct (ia_opaque input (x, y)) eqn:Hop.
    + assert (In (x, y) (ia_opaque_pixels input)) as Hin
        by (by apply In_ia_opaque_pixels).
      apply (dist_to_opaque_le input); [done|].
      apply (ia_within_mono input 0); [done|]. by apply ia_within_0.
    + apply maximum_ge. apply in_map. by apply In_ia_transparent_pixels.
Qed.

Lemma length_coords_yx w h : 0 <= w -> 0 <= h ->
  Z.of_nat (length (coords_yx w h)) = w * h.
Proof.
  intros Hw Hh. unfold coords_yx.
  assert (forall l : list Z,
    Z.of_nat (length (l ≫= fun y => seqZ 0 w ≫= fun x => [(x, y)]))
    = Z.of_nat (length l) * w) as Hl.
  { induction l as [|a l IH]; [done|]. cbn [mbind list_bind length].
    change (list_bind _ _ (fun y => seqZ 0 w ≫= fun x => [(x, y)]) l)
      with (l ≫= fun y => seqZ 0 w ≫= fun x => [(x, y)]).
    rewrite length_app, Nat2Z.inj_add, IH.
    assert (forall (l' : list Z), length (l' ≫= fun x => [(x, a)]) = length l') as Hin.
    { induction l' as [|b l' IH']; [done|]. cbn. f_equal. exact IH'. }
    change (list_bind _ _ (fun x => [(x, a)]) (seqZ 0 w))
      with (seqZ 0 w ≫= fun x => [(x, a)]).
    rewrite Hin, length_seqZ. lia. }
  rewrite Hl, length_seqZ. lia.
Qed.

(** On return every pixel of the raster is fully opaque. *)
Lemma ia_after_done_opaque input n x y :
  IA.remaining (ia_after input n) <= 0 ->
  0 <= x < Dx input -> 0 <= y < Dy input ->
  A (RGBA_At (Dx input) (Dy input) (IA.output (ia_after input n)) x y) = 255.
Proof.
  intros Hrem Hx Hy.
  assert (~ 0 < IA.remaining (ia_after input n)) as Hn by lia.
  rewrite (ia_remaining_pos input n) in Hn by lia.
  destruct (ia_after_opaque input n x y Hx Hy) as [_ Hback].
  destruct (Z.eq_dec (A (RGBA_At (Dx input) (Dy input)
              (IA.output (ia_after input n)) x y)) 255) as [He|Hne']; [done|].
  exfalso. apply Hn. exists x, y. split; [done|]. intros Hin. apply Hne'. by apply Hback.
Qed.

(** X6.  The result contract of the averaging engine.  On a raster with
    at least one fully opaque pixel, given fuel for [max_distance]
    passes, [process_gimp_alg] returns; the raster it returns has the
    size of the input, nothing remains to fill, every pixel holds four
    byte values and is fully opaque, and every pixel that was fully
    opaque in the input holds the input's colour. *)
Theorem process_gimp_alg_contract input fuel :
  ia_opaque_pixels input <> [] ->
  (Z.to_nat (max_distance input) <= fuel)%nat ->
  exists st,
    IA.process_gimp_alg fuel input = Some st /\
    Z.of_nat (length (IA.output st)) = 4 * (Dx input * Dy input) /\
    IA.remaining st = 0 /\
    forall x y, 0 <= x < Dx input -> 0 <= y < Dy input ->
      let p := RGBA_At (Dx input) (Dy input) (IA.output st) x y in
      A p = 255 /\ byte_channels p /\
      (A (RGBAModel_Convert (At input x y)) = 255 ->
       p = RGBAModel_Convert (At input x y)).
Proof.
  intros Hne Hfuel.
  pose proof (ia_loop_returns input fuel Hne Hfuel) as Hrun.
  destruct (ia_returned_state input fuel _ Hrun) as (n & Hst & Hrem).
  exists (ia_after input (Z.to_nat (max_distance input))).
  split; [done|].
  assert (0 <= Dx input /\ 0 <= Dy input) as [Hw Hh].
  { destruct (ia_opaque_pixels input) as [|c l] eqn:Hl; [done|].
    assert (In c (ia_opaque_pixels input)) as Hc by (rewrite Hl; by left).
    apply In_ia_opaque_pixels in Hc. lia. }
  destruct (ia_after_inv input (Z.to_nat (max_distance input)) Hw Hh)
    as [[Hlen _] Hcount].
  split; [done|]. split.
  - apply Z.le_antisymm; [done|]. rewrite Hcount. unfold transparent_count.
    apply sumZ_nonneg. intros c _. destruct (_ =? _); lia.
  - intros x y Hx Hy. cbv zeta. split; [by apply ia_after_done_opaque|].
    split; [by apply ia_after_byte_channels|]. by apply ia_opaque_kept.
Qed.

(** On [lit_corner] the engine returns a fully opaque raster of 24
    bytes that keeps the corner's colour. *)
Lemma process_gimp_alg_contract_witness :
  ia_opaque_pixels lit_corner <> [] /\
  (Z.to_nat (max_distance lit_corner) <= 3)%nat /\
  exists st, IA.process_gimp_alg 3 lit_corner = Some st /\
    Z.of_nat (length (IA.output st)) = 24 /\
    A (RGBA_At 3 2 (IA.output st) 2 1) = 255.
Proof.
  split; [discriminate|]. split; [vm_compute; lia|].
  destruct (process_gimp_alg_contract lit_corner 3) as (st & Hrun & Hlen & _ & Hpix);
    [discriminate|vm_compute; lia|].
  exists st. split; [exact Hrun|]. split; [exact Hlen|].
  apply (Hpix 2 1); cbn; lia.
Defined.

(** X7.  The counter [remaining] of the pass loop.  After any number of
    passes it equals the number of pixels of the working raster that are
    not fully opaque, it lies between 0 and the number of pixels, and a
    further pass never increases it. *)
Theorem ia_remaining_invariant input n :
  0 <= Dx input -> 0 <= Dy input ->
  IA.remaining (ia_after input n)
    = transparent_count (Dx input) (Dy input) (IA.output (ia_after input n)) /\
  0 <= IA.remaining (ia_after input n) <= Dx input * Dy input /\
  IA.remaining (ia_after input (S n)) <= IA.remaining (ia_after input n).
Proof.
  intros Hw Hh. destruct (ia_after_inv input n Hw Hh) as [Hwf Hcount].
  split; [done|]. split.
  - rewrite Hcount. unfold transparent_count.
    rewrite <- (length_coords_yx (Dx input) (Dy input)) by done.
    pose proof (sumZ_Forall_bounds
      (fun c : Z * Z =>
         if A (RGBA_At (Dx input) (Dy input) (IA.output (ia_after input n)) c.1 c.2)
            =? 255 then 0 else 1) 0 1 (coords_yx (Dx input) (Dy input))) as Hb.
    cbv beta in Hb. lapply Hb; [lia|].
    apply Forall_forall. intros c _. destruct (_ =? _); lia.
  - change (ia_after input (S n))
      with (IA.pass (Dx input) (Dy input) (ia_after input n)).
    destruct (ia_pass_step (Dx input) (Dy input) (ia_after input n) Hw Hh Hwf)
      as (_ & -> & _).
    assert (0 <= IASpec.filled_count (Dx input) (Dy input) (IA.output (ia_after input n)));
      [|lia].
    unfold IASpec.filled_count. apply sumZ_nonneg. intros c _. destruct (IASpec.filled _ _ _ _); lia.
Qed.

(** On [lit_corner] five of the six pixels remain at the start. *)
Lemma ia_remaining_invariant_witness :
  0 <= Dx lit_corner /\ 0 <= Dy lit_corner /\
  0 <= IA.remaining (ia_after lit_corner 0) <= 6.
Proof.
  split; [by compute|]. split; [by compute|].
  exact (proj1 (proj2 (ia_remaining_invariant lit_corner 0
                         ltac:(by compute) ltac:(by compute)))).
Defined.

Lemma In_channels (ch : RGBA -> Z) c :
  In ch [R; G; B] -> byte_channels c -> 0 <= ch c <= 255.
Proof.
  intros Hch [[Hr Hg] [Hb _]].
  destruct Hch as [<- | [<- | [<- | []]]]; lia.
Qed.

Lemma step_pixel_channel (ch : RGBA -> Z) mean w h snap x y :
  In ch [R; G; B] ->
  IASpec.filled w h snap (x, y) = true ->
  ch (IASpec.step_pixel mean w h snap x y)
  = uint8 (mean (map ch (IASpec.gathered w h snap x y))).
Proof.
  intros Hch Hf. unfold IASpec.step_pixel. rewrite Hf.
  destruct Hch as [<- | [<- | [<- | []]]]; reflexivity.
Qed.

Lemma step_pixel_kept mean w h snap x y :
  IASpec.filled w h snap (x, y) = false ->
  IASpec.step_pixel mean w h snap x y = RGBA_At w h snap x y.
Proof. intros Hf. unfold IASpec.step_pixel. by rewrite Hf. Qed.

(** Channel by channel, a fully opaque pixel of the working raster lies
    in any range that holds the fully opaque pixels of the input. *)
Lemma ia_after_in_range input (ch : RGBA -> Z) lo hi n x y :
  In ch [R; G; B] ->
  (forall sx sy, 0 <= sx < Dx input -> 0 <= sy < Dy input ->
     A (RGBAModel_Convert (At input sx sy)) = 255 ->
     lo <= ch (RGBAModel_Convert (At input sx sy)) <= hi) ->
  0 <= x < Dx input -> 0 <= y < Dy input ->
  A (RGBA_At (Dx input) (Dy input) (IA.output (ia_after input n)) x y) = 255 ->
  lo <= ch (RGBA_At (Dx input) (Dy input) (IA.output (ia_after input n)) x y) <= hi.
Proof.
  intros Hch Hsrc. revert x y. induction n as [|n IH]; intros x y Hx Hy Ha.
  - change (ia_after input 0) with (IA.init input) in *.
    destruct (ia_init_spec input ltac:(lia) ltac:(lia)) as (_ & Hpix & _).
    rewrite Hpix in * by done. by apply Hsrc.
  - change (ia_after input (S n))
      with (IA.pass (Dx input) (Dy input) (ia_after input n)) in *.
    destruct (ia_after_inv input n ltac:(lia) ltac:(lia)) as [Hwf _].
    destruct (ia_pass_step (Dx input) (Dy input) (ia_after input n)
                ltac:(lia) ltac:(lia) Hwf) as (Hpix & _).
    rewrite Hpix in * by done.
    destruct (IASpec.filled (Dx input) (Dy input) (IA.output (ia_after input n)) (x, y))
      eqn:Hf.
    + rewrite step_pixel_channel by done.
      set (ns := IASpec.gathered _ _ _ x y).
      assert (ns <> []) as Hne by (apply filled_spec in Hf as [_ Hf]; exact Hf).
      assert (Forall (fun v => Z.max lo 0 <= v <= Z.min hi 255) (map ch ns)) as Hall.
      { apply Forall_map.
        destruct (gathered_Forall (Dx input) (Dy input)
                    (IA.output (ia_after input n)) x y) as [Hg _].
        eapply Forall_impl; [exact Hg|]. cbv beta.
        intros c (nx & ny & [Hnx Hny] & -> & Hac).
        pose proof (IH nx ny Hnx Hny Hac).
        pose proof (In_channels ch _ Hch (ia_after_byte_channels input n nx ny Hnx Hny)).
        lia. }
      assert (Z.max lo 0 <= Z.min hi 255) as Hord.
      { destruct (map ch ns) as [|v vs] eqn:Hm.
        - destruct ns; [done|discriminate].
        - apply Forall_cons in Hall as [Hv _]. lia. }
      pose proof (mean16_hi_range (map ch ns) (Z.max lo 0) (Z.min hi 255)) as Hm.
      lapply Hm; [clear Hm; intros Hm|by destruct ns].
      specialize (Hm Hall ltac:(lia) ltac:(lia)).
      rewrite uint8_byte by lia. lia.
    + rewrite step_pixel_kept in * by done. by apply IH.
Qed.

(** X8.  The engine invents no colour outside the range of its seeds.
    Colours and alpha are taken as the engine sees them, converted to 8
    bits on entry: if, for one of the colour channels, every pixel of
    the input with alpha 255 has its value between [lo] and [hi], then
    so has every pixel of the raster the engine returns. *)
Theorem process_gimp_alg_in_range input fuel st (ch : RGBA -> Z) lo hi :
  In ch [R; G; B] ->
  (forall sx sy, 0 <= sx < Dx input -> 0 <= sy < Dy input ->
     A (RGBAModel_Convert (At input sx sy)) = 255 ->
     lo <= ch (RGBAModel_Convert (At input sx sy)) <= hi) ->
  IA.process_gimp_alg fuel input = Some st ->
  forall x y, 0 <= x < Dx input -> 0 <= y < Dy input ->
    lo <= ch (RGBA_At (Dx input) (Dy input) (IA.output st) x y) <= hi.
Proof.
  intros Hch Hsrc Hrun x y Hx Hy.
  destruct (ia_returned_state input fuel st Hrun) as (n & -> & Hrem).
  apply ia_after_in_range; [done..|]. by apply ia_after_done_opaque.
Qed.

(** On [uneven_cross], whose seeds have red between 0 and 65, the filled
    centre has red between 0 and 65. *)
Lemma process_gimp_alg_in_range_witness :
  In R [R; G; B] /\
  IA.process_gimp_alg 1 uneven_cross
    = Some (default (IA.init uneven_cross) (IA.process_gimp_alg 1 uneven_cross)) /\
  0 <= R (RGBA_At 3 3
            (IA.output (default (IA.init uneven_cross)
                          (IA.process_gimp_alg 1 uneven_cross))) 1 1) <= 65.
Proof.
  split; [by left|]. split; [vm_compute; reflexivity|].
  apply (process_gimp_alg_in_range uneven_cross 1 _ R 0 65);
    [by left| |vm_compute; reflexivity|by compute|by compute].
  intros sx sy Hx Hy _. change (Dx uneven_cross) with 3 in Hx.
  change (Dy uneven_cross) with 3 in Hy.
  assert (In sx [0; 1; 2] /\ In sy [0; 1; 2]) as [Hsx Hsy] by (cbn; lia).
  cbn in Hsx, Hsy.
  destruct Hsx as [<- | [<- | [<- | []]]]; destruct Hsy as [<- | [<- | [<- | []]]];
    vm_compute; split; discriminate.
Defined.

Lemma convert_widen c : byte_channels c -> RGBAModel_Convert (RGBA_RGBA c) = c.
Proof.
  intros [[Hr Hg] [Hb Ha]]. destruct c as [r g b a]. cbn [R G B A] in *.
  unfold RGBAModel_Convert, RGBA_RGBA. cbn [cr cg cb ca].
  assert (forall v, 0 <= v < 256 -> uint8 (Z.shiftr (v * 257) 8) = v) as Hv.
  { intros v Hv. rewrite <- uint8_widened by done. unfold uint8.
    replace (v * 257) with (v + v * 256) by lia.
    rewrite Z.mod_add by lia. by apply Z.mod_small. }
  by rewrite !Hv.
Qed.

(** X9.  Running the averaging engine on its own result changes nothing:
    whatever raster [process_gimp_alg] returned, a second run on that
    raster returns it again, without a single pass and for any fuel. *)
Theorem process_gimp_alg_idempotent input fuel st fuel' :
  0 <= Dx input -> 0 <= Dy input ->
  IA.process_gimp_alg fuel input = Some st ->
  IA.process_gimp_alg fuel' (image_of_RGBA (Dx input) (Dy input) (IA.output st))
  = Some (IA.mkState (IA.output st) (IA.output st) 0 0).
Proof.
  intros Hw Hh Hrun.
  destruct (ia_returned_state input fuel st Hrun) as (n & -> & Hrem).
  set (w := Dx input) in *. set (h := Dy input) in *.
  set (out := IA.output (ia_after input n)).
  set (img := image_of_RGBA w h out).
  destruct (ia_after_inv input n Hw Hh) as [[Hlen _] _]. fold w h out in Hlen.
  destruct (ia_init_spec img Hw Hh) as ([Hlen' Hrgba] & Hpix & Hcount & Hpasses).
  change (Dx img) with w in *. change (Dy img) with h in *.
  assert (IA.output (IA.init img) = out) as Hout.
  { apply (pix_ext w h); [done..|]. intros x y Hx Hy.
    rewrite <- !(RGBA_At_pixel w h) by done. rewrite Hpix by done.
    apply convert_widen. by apply ia_after_byte_channels. }
  assert (IA.remaining (IA.init img) = 0) as Hzero.
  { rewrite Hcount, Hout. apply Z.le_antisymm.
    - assert (~ 0 < sumZ (fun c : Z * Z =>
                  if A (RGBA_At w h out c.1 c.2) =? 255 then 0 else 1)
                (coords_yx w h)) as Hn; [|lia].
      rewrite sumZ_pos by (intros c _; destruct (_ =? _); lia).
      intros ([x y] & Hc%elem_of_coords_yx & Hpos). cbn [fst snd] in *.
      pose proof (ia_after_done_opaque input n x y Hrem (proj1 Hc) (proj2 Hc)) as Hop.
      fold w h out in Hop. rewrite Hop in Hpos. cbn in Hpos. lia.
    - apply sumZ_nonneg. intros c _. destruct (_ =? _); lia. }
  unfold IA.process_gimp_alg. change (Dx img) with w. change (Dy img) with h.
  clear Hcount Hpix Hlen'.
  destruct (IA.init img) as [o r rem p]. cbn [IA.output IA.rgba IA.remaining IA.passes] in *.
  rewrite Hrgba, Hout, Hzero, Hpasses.
  destruct fuel'; reflexivity.
Qed.

(** The result on [two_pixels] is returned again by a second run. *)
Lemma process_gimp_alg_idempotent_witness :
  0 <= Dx two_pixels /\ 0 <= Dy two_pixels /\
  IA.process_gimp_alg 1 two_pixels
    = Some (default (IA.init two_pixels) (IA.process_gimp_alg 1 two_pixels)) /\
  IA.process_gimp_alg 0
    (image_of_RGBA 2 1
       (IA.output (default (IA.init two_pixels) (IA.process_gimp_alg 1 two_pixels))))
  = Some (IA.mkState [1; 2; 3; 255; 1; 2; 3; 255] [1; 2; 3; 255; 1; 2; 3; 255] 0 0).
Proof.
  split; [cbn; lia|]. split; [cbn; lia|]. split; [vm_compute; reflexivity|].
  exact (process_gimp_alg_idempotent two_pixels 1
           (default (IA.init two_pixels) (IA.process_gimp_alg 1 two_pixels)) 0
           ltac:(cbn; lia) ltac:(cbn; lia) ltac:(vm_compute; reflexivity)).
Defined.

(** X10.  The [uint32] accumulators of a pixel never wrap.  In any pass,
    at any pixel, the sums [r], [g], [b] gathered from the neighbours
    are at most [count] times 0xffff and [count] is at most 4, so each
    sum stays below 2^32. *)
Theorem ia_gather_no_overflow input n x y r g b count :
  0 <= Dx input -> 0 <= Dy input ->
  foldl (IA.gather (Dx input) (Dy input) (IA.rgba (ia_after input n)) x y)
        (0, 0, 0, 0) IA.neighbours = (r, g, b, count) ->
  0 <= count <= 4 /\
  (0 <= r <= count * 65535 /\ 0 <= g <= count * 65535 /\ 0 <= b <= count * 65535) /\
  r < 2 ^ 32 /\ g < 2 ^ 32 /\ b < 2 ^ 32.
Proof.
  intros Hw Hh. destruct (ia_after_inv input n Hw Hh) as [[_ ->] _].
  rewrite gather_neighbours. cbv zeta.
  destruct (gathered_Forall (Dx input) (Dy input) (IA.output (ia_after input n)) x y)
    as [Hg Hlen].
  set (ns := IASpec.gathered _ _ _ x y) in *.
  assert (forall ch : RGBA -> Z, In ch [R; G; B] ->
    0 <= sumZ (fun v => v * 257) (map ch ns) <= Z.of_nat (length ns) * 65535) as Hsum.
  { intros ch Hch.
    pose proof (sumZ_Forall_bounds (fun v => v * 257) 0 65535 (map ch ns)) as Hb.
    rewrite length_map in Hb. lapply Hb; [lia|].
    apply Forall_map. eapply Forall_impl; [exact Hg|]. cbv beta.
    intros c (nx & ny & [Hnx Hny] & -> & _).
    pose proof (In_channels ch _ Hch (ia_after_byte_channels input n nx ny Hnx Hny)).
    lia. }
  intros [= <- <- <- <-].
  pose proof (Hsum R ltac:(by left)).
  pose proof (Hsum G ltac:(right; by left)).
  pose proof (Hsum B ltac:(right; right; by left)).
  change (2 ^ 32) with 4294967296. lia.
Qed.

(** At the centre of [red_cross] the four red neighbours add up to
    4 * 0xffff. *)
Lemma ia_gather_no_overflow_witness :
  0 <= Dx red_cross /\ 0 <= Dy red_cross /\
  foldl (IA.gather (Dx red_cross) (Dy red_cross) (IA.rgba (ia_after red_cross 0)) 1 1)
        (0, 0, 0, 0) IA.neighbours = (262140, 0, 0, 4) /\
  262140 < 2 ^ 32.
Proof.
  split; [cbn; lia|]. split; [cbn; lia|]. split; [vm_compute; reflexivity|].
  exact (proj1 (proj2 (proj2 (ia_gather_no_overflow red_cross 0 1 1 262140 0 0 4
                  ltac:(cbn; lia) ltac:(cbn; lia) ltac:(vm_compute; reflexivity))))).
Defined.

(** X11.  What a pass stores against the plain mean.  For a pixel that
    a pass rewrites (not fully opaque, with at least one fully opaque
    neighbour in the raster), each colour channel stored is the
    truncating mean of the neighbours' 8-bit values or that mean plus
    one, and never anything else. *)
Theorem ia_fill_rounding input n x y (ch : RGBA -> Z) :
  In ch [R; G; B] ->
  0 <= x < Dx input -> 0 <= y < Dy input ->
  A (RGBA_At (Dx input) (Dy input) (IA.output (ia_after input n)) x y) <> 255 ->
  IASpec.gathered (Dx input) (Dy input) (IA.output (ia_after input n)) x y <> [] ->
  let ns := IASpec.gathered (Dx input) (Dy input) (IA.output (ia_after input n)) x y in
  let v := ch (RGBA_At (Dx input) (Dy input) (IA.output (ia_after input (S n))) x y) in
  v = IASpec.mean8 (map ch ns) \/ v = IASpec.mean8 (map ch ns) + 1.
Proof.
  intros Hch Hx Hy Ha Hne ns v. subst v.
  change (ia_after input (S n))
    with (IA.pass (Dx input) (Dy input) (ia_after input n)).
  destruct (ia_after_inv input n ltac:(lia) ltac:(lia)) as [Hwf _].
  destruct (ia_pass_step (Dx input) (Dy input) (ia_after input n)
              ltac:(lia) ltac:(lia) Hwf) as (Hpix & _).
  rewrite Hpix by done.
  rewrite step_pixel_channel;
    [|done|by apply (filled_spec _ _ _ (x, y))].
  fold ns.
  assert (Forall (fun v => 0 <= v <= 255) (map ch ns)) as Hall.
  { apply Forall_map.
    destruct (gathered_Forall (Dx input) (Dy input)
                (IA.output (ia_after input n)) x y) as [Hg _].
    eapply Forall_impl; [exact Hg|]. cbv beta.
    intros c (nx & ny & [Hnx Hny] & -> & _).
    apply (In_channels ch _ Hch (ia_after_byte_channels input n nx ny Hnx Hny)). }
  assert (map ch ns <> []) as Hne' by (subst ns; destruct (IASpec.gathered _ _ _ _ _); done).
  pose proof (mean16_hi_range (map ch ns) 0 255 Hne' Hall ltac:(lia) ltac:(lia)).
  rewrite uint8_byte by lia.
  pose proof (mean16_hi_bounds (map ch ns) Hne' Hall). lia.
Qed.

(** At the centre of [uneven_cross] the stored red is 65, the mean 64
    plus one. *)
Lemma ia_fill_rounding_witness :
  In R [R; G; B] /\ (0 <= 1 < Dx uneven_cross /\ 0 <= 1 < Dy uneven_cross) /\
  A (RGBA_At 3 3 (IA.output (ia_after uneven_cross 0)) 1 1) <> 255 /\
  IASpec.gathered 3 3 (IA.output (ia_after uneven_cross 0)) 1 1 <> [] /\
  (R (RGBA_At 3 3 (IA.output (ia_after uneven_cross 1)) 1 1) = 64 \/
   R (RGBA_At 3 3 (IA.output (ia_after uneven_cross 1)) 1 1) = 64 + 1).
Proof.
  split; [by left|]. split; [cbn; lia|].
  split; [vm_compute; discriminate|]. split; [vm_compute; discriminate|].
  exact (ia_fill_rounding uneven_cross 0 1 1 R ltac:(by left)
           ltac:(cbn; lia) ltac:(cbn; lia)
           ltac:(vm_compute; discriminate) ltac:(vm_compute; discriminate)).
Defined.

(** ** More on the jump-flood engine *)

(** On a single pixel no pass runs, and the workers play no part. *)
Lemma process_tiny numCpu input :
  Dx input = 1 -> Dy input = 1 ->
  JFP.process_paint_net_alg numCpu input = JFP.process_paint_net_alg 1 input.
Proof.
  intros Hw Hh. rewrite !process_unfold by lia.
  rewrite !run_passes_spec, Hw, Hh. reflexivity.
Qed.

(** Whenever the engine returns, it returns what a single worker
    does. *)
Lemma process_single_worker numCpu input out :
  1 <= numCpu -> 1 <= Dx input -> 1 <= Dy input ->
  JFP.process_paint_net_alg numCpu input = Some out ->
  JFP.process_paint_net_alg 1 input = Some out.
Proof.
  intros Hn Hw Hh Hrun.
  destruct (Z_le_gt_dec numCpu (Dy input + 1)) as [Hfit|Hover].
  - rewrite <- Hrun. symmetry. apply process_workers_irrelevant. lia.
  - destruct (Z_le_gt_dec 2 (Z.max (Dx input) (Dy input))) as [Hbig|Hsmall].
    + rewrite process_overflow in Hrun by lia. discriminate.
    + rewrite <- Hrun. symmetry. apply process_tiny; lia.
Qed.

(** X12.  When the jump-flood engine returns.  On a raster with at
    least one pixel and with at least one worker, [process_paint_net_alg]
    returns a raster exactly when the number of workers is at most the
    height plus one or the raster is a single pixel; in every other case
    a worker indexes past the grids and the program panics. *)
Theorem process_paint_net_alg_returns_iff numCpu input :
  1 <= numCpu -> 1 <= Dx input -> 1 <= Dy input ->
  is_Some (JFP.process_paint_net_alg numCpu input) <->
  numCpu <= Dy input + 1 \/ (Dx input = 1 /\ Dy input = 1).
Proof.
  intros Hn Hw Hh. split.
  - intros [out Hrun].
    destruct (Z_le_gt_dec numCpu (Dy input + 1)) as [Hfit|Hover]; [by left|right].
    destruct (Z_le_gt_dec 2 (Z.max (Dx input) (Dy input))) as [Hbig|Hsmall]; [|lia].
    rewrite process_overflow in Hrun by lia. discriminate.
  - intros [Hfit|[Hw1 Hh1]].
    + destruct (process_total numCpu input ltac:(lia) ltac:(lia)) as [out ->]. by eexists.
    + rewrite (process_tiny numCpu input Hw1 Hh1).
      destruct (process_total 1 input ltac:(lia) ltac:(lia)) as [out ->]. by eexists.
Qed.

(** On [red_cross], three rows high, four workers fit and five do
    not. *)
Lemma process_paint_net_alg_returns_iff_witness :
  (1 <= 4 /\ 1 <= 5) /\ 1 <= Dx red_cross /\ 1 <= Dy red_cross /\
  is_Some (JFP.process_paint_net_alg 4 red_cross) /\
  ~ is_Some (JFP.process_paint_net_alg 5 red_cross).
Proof.
  split; [lia|]. split; [cbn; lia|]. split; [cbn; lia|]. split.
  - apply (proj2 (process_paint_net_alg_returns_iff 4 red_cross
                    ltac:(lia) ltac:(cbn; lia) ltac:(cbn; lia))).
    left. cbn. lia.
  - intros Hsome.
    apply (proj1 (process_paint_net_alg_returns_iff 5 red_cross
                    ltac:(lia) ltac:(cbn; lia) ltac:(cbn; lia))) in Hsome.
    cbn in Hsome. lia.
Defined.

(** X13.  The number of workers never changes a pixel: on a raster with
    at least one pixel, whatever [process_paint_net_alg] returns with
    some number of workers is what it returns with any other number of
    workers for which it returns. *)
Theorem process_paint_net_alg_workers numCpu numCpu' input out out' :
  1 <= numCpu -> 1 <= numCpu' -> 1 <= Dx input -> 1 <= Dy input ->
  JFP.process_paint_net_alg numCpu input = Some out ->
  JFP.process_paint_net_alg numCpu' input = Some out' ->
  out = out'.
Proof.
  intros Hn Hn' Hw Hh Hrun Hrun'.
  apply process_single_worker in Hrun; [|done..].
  apply process_single_worker in Hrun'; [|done..].
  congruence.
Qed.

(** One worker and two workers on [two_pixels]. *)
Lemma process_paint_net_alg_workers_witness :
  (1 <= 1 /\ 1 <= 2) /\ 1 <= Dx two_pixels /\ 1 <= Dy two_pixels /\
  JFP.process_paint_net_alg 1 two_pixels = Some [1; 2; 3; 255; 1; 2; 3; 255] /\
  JFP.process_paint_net_alg 2 two_pixels = Some [1; 2; 3; 255; 1; 2; 3; 255] /\
  [1; 2; 3; 255; 1; 2; 3; 255] = [1; 2; 3; 255; 1; 2; 3; 255].
Proof.
  split; [lia|]. split; [cbn; lia|]. split; [cbn; lia|].
  split; [vm_compute; reflexivity|]. split; [vm_compute; reflexivity|].
  exact (process_paint_net_alg_workers 1 2 two_pixels _ _
           ltac:(lia) ltac:(lia) ltac:(cbn; lia) ltac:(cbn; lia)
           ltac:(vm_compute; reflexivity) ltac:(vm_compute; reflexivity)).
Defined.

Lemma fill_from_shape input p :
  byte_channels (fill_from input p) /\ A (fill_from input p) = 255.
Proof.
  unfold fill_from, byte_channels. cbn.
  repeat split; (apply uint8_range || lia).
Qed.

Lemma length_process numCpu input out :
  0 <= Dx input -> 0 <= Dy input ->
  JFP.process_paint_net_alg numCpu input = Some out ->
  Z.of_nat (length out) = 4 * (Dx input * Dy input).
Proof.
  intros Hw Hh Hrun. unfold JFP.process_paint_net_alg in Hrun.
  destruct (jf_prepare_spec input Hw Hh) as (Hlen & _).
  destruct (JFP.prepare input) as [o mask]. cbn [fst] in Hlen.
  destruct (JFP.jumpFlood _ _ _ _) as [nearest|]; cbn in Hrun; [|discriminate].
  injection Hrun as <-. by apply jf_finalize_spec.
Qed.

(** X14.  The shape of the jump-flood result.  The raster returned has
    four bytes per pixel of the input; every pixel of it is either fully
    opaque or exactly (0, 0, 0, 0), and a fully opaque pixel of the
    input is fully opaque in the result.  No partial transparency of the
    input survives. *)
Theorem process_paint_net_alg_shape numCpu input out :
  0 <= Dx input -> 0 <= Dy input ->
  JFP.process_paint_net_alg numCpu input = Some out ->
  Z.of_nat (length out) = 4 * (Dx input * Dy input) /\
  forall x y, 0 <= x < Dx input -> 0 <= y < Dy input ->
    let p := RGBA_At (Dx input) (Dy input) out x y in
    byte_channels p /\
    (A p = 255 \/ p = mkRGBA 0 0 0 0) /\
    (ca (At input x y) = 65535 -> A p = 255).
Proof.
  intros Hw Hh Hrun. split; [by apply (length_process numCpu)|].
  intros x y Hx Hy. cbv zeta.
  destruct (process_paint_net_alg_pixels numCpu input out Hw Hh Hrun)
    as (nearest & _ & Hpix).
  rewrite Hpix by done.
  destruct (Z.eqb_spec (ca (At input x y)) 65535) as [Ha|Ha].
  - split; [|split; [by left|done]].
    unfold byte_channels. cbn. repeat split; (apply uint8_range || lia).
  - destruct (JFP.resolved _).
    + destruct (fill_from_shape input (zget nearest (y * Dx input + x))) as [Hb H255].
      split; [done|]. split; [by left|done].
    + split; [|split; [by right|done]]. unfold byte_channels. cbn. lia.
Qed.

(** On [far_row] the result has 372 bytes. *)
Lemma process_paint_net_alg_shape_witness :
  0 <= Dx far_row /\ 0 <= Dy far_row /\
  JFP.process_paint_net_alg 1 far_row
    = Some (default [] (JFP.process_paint_net_alg 1 far_row)) /\
  Z.of_nat (length (default [] (JFP.process_paint_net_alg 1 far_row))) = 372.
Proof.
  split; [cbn; lia|]. split; [cbn; lia|]. split; [vm_compute; reflexivity|].
  exact (proj1 (process_paint_net_alg_shape 1 far_row _
                  ltac:(cbn; lia) ltac:(cbn; lia) ltac:(vm_compute; reflexivity))).
Defined.

Lemma sumZ_seqZ (n : nat) (m : Z) :
  2 * sumZ (fun s => s) (seqZ m (Z.of_nat n)) = Z.of_nat n * (2 * m + Z.of_nat n - 1).
Proof.
  revert m. induction n as [|n IH]; intros m; [reflexivity|].
  rewrite seqZ_cons by lia. cbn [sumZ foldr]. fold (sumZ (fun s => s)).
  replace (Z.pred (Z.of_nat (S n))) with (Z.of_nat n) by lia.
  fold (sumZ (fun s : Z => s) (seqZ (Z.succ m) (Z.of_nat n))).
  specialize (IH (Z.succ m)). nia.
Qed.

(** The offsets 1, 2, ..., 2 L - 1 of the passes add up to
    L (2 L - 1), where L is the rounded-up binary logarithm of the
    larger side. *)
Lemma jf_reach_closed w h :
  jf_reach w h
  = Z.log2_up (Z.max w h) * (2 * Z.log2_up (Z.max w h) - 1).
Proof.
  unfold jf_reach, JFP.maxSteps.
  pose proof (Z.log2_up_nonneg (Z.max w h)) as HL.
  set (L := Z.log2_up (Z.max w h)) in *.
  destruct (Z.eq_dec L 0) as [->|Hne]; [reflexivity|].
  pose proof (sumZ_seqZ (Z.to_nat (L * 2 - 1)) 1) as Hsum.
  rewrite Z2Nat.id in Hsum by lia. nia.
Qed.

(** X15.  How far a colour travels.  With L the rounded-up binary
    logarithm of the larger side of the raster, a pixel that is not
    opaque and lies more than L (2 L - 1) king moves away from every
    opaque pixel is written as (0, 0, 0, 0): the passes use the offsets
    1, 2, ..., 2 L - 1, which add up to that bound. *)
Theorem process_paint_net_alg_reach numCpu input out x y :
  1 <= numCpu -> 0 <= x < Dx input -> 0 <= y < Dy input ->
  JFP.process_paint_net_alg numCpu input = Some out ->
  ca (At input x y) <> 65535 ->
  (forall sx sy, 0 <= sx < Dx input -> 0 <= sy < Dy input ->
     ca (At input sx sy) = 65535 ->
     Z.log2_up (Z.max (Dx input) (Dy input))
       * (2 * Z.log2_up (Z.max (Dx input) (Dy input)) - 1)
     < chebyshev (x, y) (sx, sy)) ->
  RGBA_At (Dx input) (Dy input) out x y = mkRGBA 0 0 0 0.
Proof.
  intros Hn Hx Hy Hrun Hca Hfar.
  apply (process_paint_net_alg_out_of_reach numCpu input out x y); [done..|].
  intros sx sy Hsx Hsy Ha. rewrite jf_reach_closed. by apply Hfar.
Qed.

(** On [far_row], 93 pixels wide, L is 7 and the bound is 91: the last
    pixel, 92 moves from the only opaque one, stays empty. *)
Lemma process_paint_net_alg_reach_witness :
  1 <= 1 /\ (0 <= 92 < Dx far_row /\ 0 <= 0 < Dy far_row) /\
  JFP.process_paint_net_alg 1 far_row
    = Some (default [] (JFP.process_paint_net_alg 1 far_row)) /\
  ca (At far_row 92 0) <> 65535 /\
  RGBA_At 93 1 (default [] (JFP.process_paint_net_alg 1 far_row)) 92 0 = mkRGBA 0 0 0 0.
Proof.
  split; [lia|]. split; [cbn; lia|]. split; [vm_compute; reflexivity|].
  split; [vm_compute; discriminate|].
  apply (process_paint_net_alg_reach 1 far_row _ 92 0);
    [lia|cbn; lia|cbn; lia|vm_compute; reflexivity|vm_compute; discriminate|].
  intros sx sy Hsx Hsy Ha.
  change (Z.log2_up (Z.max (Dx far_row) (Dy far_row))) with 7.
  change (Dx far_row) with 93 in Hsx. change (Dy far_row) with 1 in Hsy.
  assert (sy = 0) as -> by lia.
  destruct (Z.eq_dec sx 0) as [->|Hne]; [unfold chebyshev; cbn; lia|].
  exfalso.
  assert (forallb (fun sx => negb (ca (At far_row sx 0) =? 65535)) (seqZ 1 92) = true)
    as Hall by (vm_compute; reflexivity).
  rewrite forallb_forall in Hall.
  specialize (Hall sx ltac:(apply list_elem_of_In, elem_of_seqZ; lia)).
  rewrite Ha in Hall. discriminate.
Defined.



(** A pass keeps every entry exact, never raises a distance and never
    loses a source. *)
Lemma jf_pass_cells numCpu w h step g g' :
  1 <= numCpu -> 1 <= w -> 1 <= h -> jf_ok w h g ->
  JFP.pass numCpu w h step g = Some g' ->
  jf_ok w h g' /\
  (jf_consistent w h g -> jf_consistent w h g') /\
  forall x y, 0 <= x < w -> 0 <= y < h ->
    (JFPSpec.cell g' (y * w + x)).1 <= (JFPSpec.cell g (y * w + x)).1 /\
    (JFP.resolved (JFPSpec.cell g (y * w + x)).2 = true ->
     JFP.resolved (JFPSpec.cell g' (y * w + x)).2 = true).
Proof.
  intros Hn Hw Hh Hok Hpass.
  destruct (Z_le_gt_dec numCpu (h + 1)) as [Hfit|Hover].
  2:{ rewrite pass_overflow in Hpass by (done || lia). done. }
  destruct (jf_pass_spec numCpu w h step g) as (g'' & Hrun & Hok' & Hcell);
    [lia|lia|done|].
  rewrite Hrun in Hpass. injection Hpass as ->.
  split; [done|]. split.
  - intros Hcons x y Hx Hy. rewrite Hcell by done. unfold JFPSpec.new_cell.
    destruct (scan_fold_cases w h (JFP.nearest g) x y (JFP.neighbours step)
                (zget (JFP.distances g) (y * w + x), JFPSpec.cell g (y * w + x)))
      as [->|(n & _ & Hin & Hp & -> & _)]; cbn [fst snd]; [by apply Hcons|].
    right. split; [done|]. split; [|reflexivity].
    apply in_rect_spec in Hin as [Hnx Hny].
    destruct (Hcons _ _ Hnx Hny) as [Hsent|(_ & Hb & _)].
    + unfold JFPSpec.cell in Hsent. injection Hsent as _ Hsent.
      rewrite Hsent in Hp. discriminate.
    + exact Hb.
  - intros x y Hx Hy. rewrite Hcell by done. unfold JFPSpec.new_cell.
    destruct (scan_fold_cases w h (JFP.nearest g) x y (JFP.neighbours step)
                (zget (JFP.distances g) (y * w + x), JFPSpec.cell g (y * w + x)))
      as [->|(n & _ & _ & Hp & -> & Hlt)]; cbn [fst snd] in *; [done|].
    split; [unfold JFPSpec.cell; cbn [fst]; lia|done].
Qed.



(** X17.  A pass only improves.  When a pass completes, no pixel's
    stored distance is larger than before, and a pixel that had a source
    still has one. *)
Theorem jf_pass_monotone numCpu w h step g g' x y :
  1 <= numCpu -> 1 <= w -> 1 <= h -> jf_ok w h g ->
  JFP.pass numCpu w h step g = Some g' ->
  0 <= x < w -> 0 <= y < h ->
  (JFPSpec.cell g' (y * w + x)).1 <= (JFPSpec.cell g (y * w + x)).1 /\
  (JFP.resolved (JFPSpec.cell g (y * w + x)).2 = true ->
   JFP.resolved (JFPSpec.cell g' (y * w + x)).2 = true).
Proof.
  intros Hn Hw Hh Hok Hpass Hx Hy.
  destruct (jf_pass_cells numCpu w h step g g' Hn Hw Hh Hok Hpass) as (_ & _ & Hmono).
  by apply Hmono.
Qed.

(** The first pass on [two_pixels] lowers the distance of the second
    pixel from 5 to 1. *)
Lemma jf_pass_monotone_witness :
  1 <= 1 /\ 1 <= 2 /\ jf_ok 2 1 (JFP.mkGrids [0; 5] [JFP.mkPoint 0 0; JFP.mkPoint (-1) (-1)]) /\
  JFP.pass 1 2 1 1 (JFP.mkGrids [0; 5] [JFP.mkPoint 0 0; JFP.mkPoint (-1) (-1)])
    = Some (JFP.mkGrids [0; 1] [JFP.mkPoint 0 0; JFP.mkPoint 0 0]) /\
  (0 <= 1 < 2 /\ 0 <= 0 < 1) /\
  (JFPSpec.cell (JFP.mkGrids [0; 1] [JFP.mkPoint 0 0; JFP.mkPoint 0 0]) (0 * 2 + 1)).1
  <= (JFPSpec.cell (JFP.mkGrids [0; 5] [JFP.mkPoint 0 0; JFP.mkPoint (-1) (-1)]) (0 * 2 + 1)).1.
Proof.
  split; [lia|]. split; [lia|]. split; [split; reflexivity|].
  split; [vm_compute; reflexivity|]. split; [lia|].
  exact (proj1 (jf_pass_monotone 1 2 1 1 (JFP.mkGrids [0; 5] [JFP.mkPoint 0 0; JFP.mkPoint (-1) (-1)]) _ 1 0
                  ltac:(lia) ltac:(lia) ltac:(lia) ltac:(split; reflexivity)
                  ltac:(vm_compute; reflexivity) ltac:(lia) ltac:(lia))).
Defined.







(** X19.  A fully opaque 8-bit image passes through both engines
    unchanged.  If every pixel of the input is fully opaque with 8-bit
    channels, the averaging engine (for any fuel) and the jump-flood
    engine (for a number of workers that fits) return the same raster,
    which holds the input's pixels. *)
Theorem engines_agree_on_opaque input numCpu fuel :
  1 <= numCpu <= Dy input + 1 -> 0 <= Dx input ->
  (forall x y, 0 <= x < Dx input -> 0 <= y < Dy input ->
     exists r g b, (0 <= r < 256 /\ 0 <= g < 256 /\ 0 <= b < 256) /\
       At input x y = mkColor (r * 257) (g * 257) (b * 257) 65535) ->
  exists out,
    IA.output <$> IA.process_gimp_alg fuel input = Some out /\
    JFP.process_paint_net_alg numCpu input = Some out /\
    forall x y, 0 <= x < Dx input -> 0 <= y < Dy input ->
      RGBA_At (Dx input) (Dy input) out x y = RGBAModel_Convert (At input x y).
Proof.
  intros Hn Hw Hopq.
  assert (0 <= Dy input) as Hh by lia.
  destruct (process_total numCpu input Hn Hw) as [out Hrun].
  assert (forall x y, 0 <= x < Dx input -> 0 <= y < Dy input ->
            RGBA_At (Dx input) (Dy input) out x y = RGBAModel_Convert (At input x y))
    as Hout.
  { intros x y Hx Hy. destruct (Hopq x y Hx Hy) as (r & g & b & (Hr & Hg & Hb) & Hc).
    by apply (process_paint_net_alg_keeps_8bit numCpu input out x y r g b). }
  exists out. split; [|split; [exact Hrun|exact Hout]].
  destruct (ia_init_spec input Hw Hh) as ([Hlen _] & Hpix & Hcount & _).
  cbv zeta in Hpix, Hcount, Hlen.
  assert (IA.remaining (IA.init input) = 0) as Hzero.
  { rewrite Hcount. apply Z.le_antisymm.
    - assert (~ 0 < sumZ (fun c : Z * Z =>
                  if A (RGBA_At (Dx input) (Dy input) (IA.output (IA.init input)) c.1 c.2)
                     =? 255 then 0 else 1)
                (coords_yx (Dx input) (Dy input))) as Hnot; [|lia].
      rewrite sumZ_pos by (intros c _; destruct (_ =? _); lia).
      intros ([x y] & Hc%elem_of_coords_yx & Hpos). cbn [fst snd] in *.
      rewrite Hpix in Hpos by tauto.
      destruct (Hopq x y (proj1 Hc) (proj2 Hc)) as (r & g & b & _ & Hcol).
      rewrite convert_opaque in Hpos by (rewrite Hcol; reflexivity).
      cbn in Hpos. lia.
    - apply sumZ_nonneg. intros c _. destruct (_ =? _); lia. }
  assert (IA.process_gimp_alg fuel input = Some (IA.init input)) as ->.
  { unfold IA.process_gimp_alg. destruct fuel; cbn [IA.loop]; rewrite Hzero; reflexivity. }
  cbn [fmap option_fmap option_map]. f_equal.
  apply (pix_ext (Dx input) (Dy input)); [done|done|by apply (length_process numCpu)|].
  intros x y Hx Hy. rewrite <- !(RGBA_At_pixel (Dx input) (Dy input)) by done.
  rewrite Hpix, Hout by done. reflexivity.
Qed.

(** A single opaque pixel of an 8-bit image. *)
Lemma engines_agree_on_opaque_witness :
  1 <= 1 <= Dy (image_of_rows 1 1 [[opaque8 7 8 9]]) + 1 /\
  IA.output <$> IA.process_gimp_alg 0 (image_of_rows 1 1 [[opaque8 7 8 9]])
    = Some [7; 8; 9; 255] /\
  JFP.process_paint_net_alg 1 (image_of_rows 1 1 [[opaque8 7 8 9]]) = Some [7; 8; 9; 255].
Proof.
  split; [cbn; lia|].
  destruct (engines_agree_on_opaque (image_of_rows 1 1 [[opaque8 7 8 9]]) 1 0)
    as (out & Hia & Hjf & _); [cbn; lia|cbn; lia| |].
  - intros x y Hx Hy. cbn in Hx, Hy. assert (x = 0) as -> by lia.
    assert (y = 0) as -> by lia. exists 7, 8, 9. split; [lia|reflexivity].
  - assert (out = [7; 8; 9; 255]) as ->; [|by split].
    assert (Some out = Some [7; 8; 9; 255]) as [= ->]; [|reflexivity].
    rewrite <- Hjf. vm_compute. reflexivity.
Defined.



(** X21.  The interleaving of the workers does not matter.  When the
    number of workers fits the height, running the pixel body of a pass
    over the pixels in any order whatever, each pixel once, gives the
    grids that [pass] gives with its workers run one after another: the
    bodies read only the copies taken before the pass and each writes
    only its own entry. *)
Theorem jf_pass_any_order numCpu w h step g (l : list (Z * Z)) :
  1 <= numCpu <= h + 1 -> 0 <= w -> jf_ok w h g -> l ≡ₚ coords_yx w h ->
  JFP.foldM (fun c : Z * Z =>
               JFP.pixel w h (JFP.distances g) (JFP.nearest g) step c.2 c.1) l g
  = JFP.pass numCpu w h step g.
Proof.
  intros Hn Hw Hok Hperm.
  rewrite (jf_schedule_irrelevant w h step g l Hw Hok Hperm).
  rewrite pass_rows, worker_rows_fit by done.
  symmetry. apply jf_rows_coords.
Qed.

(** The two pixels of a 2 by 1 raster visited right to left. *)
Lemma jf_pass_any_order_witness :
  1 <= 2 <= 1 + 1 /\ jf_ok 2 1 (JFP.mkGrids [0; 5] [JFP.mkPoint 0 0; JFP.mkPoint (-1) (-1)]) /\
  [(1, 0); (0, 0)] ≡ₚ coords_yx 2 1 /\
  JFP.foldM (fun c : Z * Z =>
               JFP.pixel 2 1 (JFP.distances (JFP.mkGrids [0; 5] [JFP.mkPoint 0 0; JFP.mkPoint (-1) (-1)]))
                 (JFP.nearest (JFP.mkGrids [0; 5] [JFP.mkPoint 0 0; JFP.mkPoint (-1) (-1)])) 1 c.2 c.1)
            [(1, 0); (0, 0)] (JFP.mkGrids [0; 5] [JFP.mkPoint 0 0; JFP.mkPoint (-1) (-1)])
  = JFP.pass 2 2 1 1 (JFP.mkGrids [0; 5] [JFP.mkPoint 0 0; JFP.mkPoint (-1) (-1)]).
Proof.
  split; [lia|]. split; [split; reflexivity|].
  split; [change (coords_yx 2 1) with [(0, 0); (1, 0)]; apply perm_swap|].
  apply jf_pass_any_order; [lia|lia|split; reflexivity|].
  change (coords_yx 2 1) with [(0, 0); (1, 0)]. apply perm_swap.
Defined.

(** X22.  The rows handed to the workers.  With at most height + 1
    workers the workers' row ranges, taken in worker order, list every
    row of the raster exactly once and nothing else; with more workers
    than that, some worker is handed the row [height], which does not
    exist. *)
Theorem worker_rows_cover numCpu height :
  1 <= numCpu -> 0 <= height ->
  (numCpu <= height + 1 -> worker_rows numCpu height = seqZ 0 height) /\
  (height + 2 <= numCpu -> height ∈ worker_rows numCpu height).
Proof.
  intros Hn Hh. split.
  - intros Hfit. apply worker_rows_fit. lia.
  - intros Hover. unfold worker_rows. apply list_elem_of_bind.
    exists height. split; [|apply elem_of_seqZ; lia].
    unfold JFP.chunk. cbn [fst snd].
    rewrite Z.div_small by lia. cbn [Z.eqb].
    rewrite (proj2 (Z.eqb_neq height (numCpu - 1))) by lia.
    apply elem_of_seqZ. lia.
Qed.

(** Two workers on three rows; five workers on three rows. *)
Lemma worker_rows_cover_witness :
  (1 <= 2 /\ 1 <= 5) /\ 0 <= 3 /\
  worker_rows 2 3 = [0; 1; 2] /\ 3 ∈ worker_rows 5 3.
Proof.
  split; [lia|]. split; [lia|]. split.
  - exact (proj1 (worker_rows_cover 2 3 ltac:(lia) ltac:(lia)) ltac:(lia)).
  - exact (proj2 (worker_rows_cover 5 3 ltac:(lia) ltac:(lia)) ltac:(lia)).
Defined.

(** X23.  How many passes run.  With L the rounded-up binary logarithm
    of the larger side, a number of workers that fits and a mask with an
    entry for every pixel, [jumpFlood] builds its grids, runs 2 L - 1
    passes when the larger side has at least two pixels (L at least 1)
    and none otherwise, and returns; the passes use the offsets
    1, 2, ..., 2 L - 1 in this order. *)
Theorem jf_pass_schedule numCpu w h mask :
  1 <= numCpu <= h + 1 -> 0 <= w -> w * h <= Z.of_nat (length mask) ->
  exists g0 g,
    JFP.init w h mask = Some g0 /\
    JFP.foldM (JFP.pass numCpu w h) (seqZ 1 (2 * Z.log2_up (Z.max w h) - 1)) g0
      = Some g /\
    JFP.run_passes numCpu w h g0
      = Some (g, Z.max 0 (2 * Z.log2_up (Z.max w h) - 1)) /\
    JFP.jumpFlood numCpu w h mask = Some (JFP.nearest g) /\
    JFP.pass_count numCpu w h mask = Some (Z.max 0 (2 * Z.log2_up (Z.max w h) - 1)).
Proof.
  intros Hn Hw Hlen.
  destruct (jf_passes_total numCpu w h (seqZ 1 (JFP.maxSteps w h - 1))
              (jf_init_grids w h mask) Hn Hw) as (g & Hrun & _).
  { apply jf_init_spec; lia. }
  exists (jf_init_grids w h mask), g.
  unfold JFP.jumpFlood, JFP.pass_count. rewrite init_Some by lia.
  cbn [mbind option_bind]. rewrite run_passes_spec, Hrun.
  unfold JFP.maxSteps in *.
  replace (2 * Z.log2_up (Z.max w h) - 1) with (Z.log2_up (Z.max w h) * 2 - 1) by lia.
  done.
Qed.

(** A 93 by 1 raster: L is 7 and 13 passes run. *)
Lemma jf_pass_schedule_witness :
  1 <= 1 <= 1 + 1 /\ 0 <= 93 /\
  93 * 1 <= Z.of_nat (length (JFP.prepare far_row).2) /\
  JFP.pass_count 1 93 1 (JFP.prepare far_row).2 = Some 13.
Proof.
  split; [lia|]. split; [lia|]. split; [vm_compute; discriminate|].
  destruct (jf_pass_schedule 1 93 1 (JFP.prepare far_row).2)
    as (g0 & g & _ & _ & _ & _ & Hcount); [lia|lia|vm_compute; discriminate|].
  exact Hcount.
Defined.

(** X24.  A raster without seeds separates the engines.  On a raster
    with at least one pixel in which no pixel has alpha 255 once
    converted to 8 bits (the high byte of its 16-bit alpha is below
    0xff; for an image with 8-bit channels: no pixel is fully opaque),
    the averaging engine never returns, whatever the fuel, while the
    jump-flood engine (with a number of workers that fits) returns a
    raster whose every pixel is (0, 0, 0, 0). *)
Theorem engines_without_opaque input numCpu :
  1 <= Dx input -> 1 <= Dy input -> 1 <= numCpu <= Dy input + 1 ->
  (forall x y, 0 <= x < Dx input -> 0 <= y < Dy input ->
     A (RGBAModel_Convert (At input x y)) <> 255) ->
  (forall fuel, IA.process_gimp_alg fuel input = None) /\
  exists out, JFP.process_paint_net_alg numCpu input = Some out /\
    forall x y, 0 <= x < Dx input -> 0 <= y < Dy input ->
      RGBA_At (Dx input) (Dy input) out x y = mkRGBA 0 0 0 0.
Proof.
  intros Hw Hh Hn Hclear. split.
  - intros fuel. apply ia_no_opaque_diverges; [lia|lia|].
    destruct (ia_opaque_pixels input) as [|c l] eqn:Hl; [done|]. exfalso.
    assert (In c (ia_opaque_pixels input)) as Hc by (rewrite Hl; by left).
    apply In_ia_opaque_pixels in Hc as [[Hx Hy] Hop].
    unfold ia_opaque in Hop. apply Z.eqb_eq in Hop. by apply (Hclear c.1 c.2).
  - apply process_paint_net_alg_no_opaque; [done|lia|].
    intros x y Hx Hy Ha. apply (Hclear x y Hx Hy). by apply convert_opaque.
Qed.

(** On [clear_pixel] the averaging engine does not return with fuel 50
    and the jump-flood engine returns four zero bytes. *)
Lemma engines_without_opaque_witness :
  1 <= Dx clear_pixel /\ 1 <= Dy clear_pixel /\ 1 <= 1 <= Dy clear_pixel + 1 /\
  IA.process_gimp_alg 50 clear_pixel = None /\
  JFP.process_paint_net_alg 1 clear_pixel = Some [0; 0; 0; 0].
Proof.
  split; [cbn; lia|]. split; [cbn; lia|]. split; [cbn; lia|].
  destruct (engines_without_opaque clear_pixel 1) as [Hia _];
    [cbn; lia|cbn; lia|cbn; lia| |].
  - intros x y Hx Hy. cbn in Hx, Hy. assert (x = 0) as -> by lia.
    assert (y = 0) as -> by lia. vm_compute. discriminate.
  - split; [apply Hia|vm_compute; reflexivity].
Defined.
